(** * Find-The-Admin-Panel: the probing engine's bookkeeping, embedded and verified

    A shallow embedding of the pure bookkeeping of the scanner:
    - [scripts/rate_limiter.py]    (token bucket, adaptive limiter),
    - [scripts/proxy_manager.py]   (proxy pool, rotation and health accounting),
    - [scripts/path_fuzzer.py]     (path expansion, priorities, word mutations),
    - [scripts/input_validator.py] (proxy URLs, paths and file names),
    - [scripts/detection.py]       (endpoint detectors and the admin boost),
    - [scripts/exporter.py]        (the required fields of a result),
    - [scripts/config.py]          (the detection modes),
    - [finder.py]                  (from the wordlist to the scanned paths).

    Conventions of the embedding.
    - Python [float] values are exact rationals [Q]. Most properties below
      are about comparisons, [min]/[max] clamps and sums of non-negative
      constants, which rounding preserves; the bound on the tokens a bucket
      hands out multiplies a rate by a time and is a statement about the
      exact values.
    - Python [int] values are [Z].
    - Python [str] values are [string]; case mapping and white space are the
      ASCII ones.
    - Clock readings ([time.monotonic()], [time.time()]) are inputs of the
      operation that reads them, one argument per reading.
    - Exceptions are values of [exn], and a computation that can raise
      returns a [result].
    - What Python takes from its runtime (the order in which a [set] is
      listed, [random], [re], [json], [urllib.parse]) is an interface (a
      type class) the embedding is parameterised by. *)

From Stdlib Require Import ZArith QArith Qminmax Lqa Lia List Bool Ascii String Permutation Sorted.
From stdpp Require Import base option list gmap strings pretty.

Local Open Scope Z_scope.

(** ** Python built-ins shared by the modules *)

Module Py.

(** The exceptions the modelled code can meet. *)
Inductive exn : Type :=
| KeyError (key : string)
| AttributeError (msg : string)
| TypeError (msg : string)
| ValueError (msg : string)
| JSONDecodeError (msg : string)
| FileNotFoundError (msg : string)
| OtherError (msg : string).

Inductive result (A : Type) : Type :=
| Ok (a : A)
| Raise (e : exn).
Arguments Ok {A} a.
Arguments Raise {A} e.

Definition bind {A B} (m : result A) (k : A -> result B) : result B :=
  match m with
  | Ok a => k a
  | Raise e => Raise e
  end.

(** [str(e)] of an exception: its message. *)
Definition exn_message (e : exn) : string :=
  match e with
  | KeyError m | AttributeError m | TypeError m | ValueError m
  | JSONDecodeError m | FileNotFoundError m | OtherError m => m
  end.

(** [a < b] on floats. *)
Definition Qltb (a b : Q) : bool := negb (Qle_bool b a).

(** [max(a, b)]: the first argument unless the second is larger. *)
Definition max (a b : Q) : Q := if Qltb a b then b else a.

(** [min(a, b)]: the first argument unless the second is smaller. *)
Definition min (a b : Q) : Q := if Qltb b a then b else a.

(** [bool(s)] of an optional string: [None] and the empty string are falsy. *)
Definition truthy (s : option string) : bool :=
  match s with
  | Some (String _ _) => true
  | _ => false
  end.

(** [sorted(l, key=key, reverse=True)]: the stable sort by decreasing key.
    [insert_by key x l] puts [x] in front of the first element whose key
    is not above its own. *)
Fixpoint insert_by {A} (key : A -> Z) (x : A) (l : list A) : list A :=
  match l with
  | [] => [x]
  | y :: l' => if (key x <? key y)%Z then y :: insert_by key x l' else x :: l
  end.

Definition sorted_reverse {A} (key : A -> Z) (l : list A) : list A :=
  foldr (insert_by key) [] l.

End Py.

Notation "'let!' x := m 'in' k" := (Py.bind m (fun x => k))
  (at level 10, x name, m at level 100, k at level 200).

(** ** scripts/constants.py *)

Module Constants.

Definition HTTP_TOO_MANY_REQUESTS : Z := 429.
Definition DEFAULT_RATE_LIMIT : Z := 50.
Definition DEFAULT_BURST_SIZE : Z := 10.
Definition RATE_LIMIT_MIN : Z := 1.
Definition RATE_LIMIT_MAX : Z := 1000.

Definition FUZZING_EXTENSIONS : list string :=
  [".php"; ".asp"; ".aspx"; ".jsp"; ".cfm";
   ".html"; ".htm"; ".shtml"; ".py"; ".rb"]%string.

Definition BACKUP_EXTENSIONS : list string :=
  [".bak"; ".old"; ".backup"; ".orig"; ".save";
   ".tmp"; ".temp"; ".swp"; "~"; ".copy"]%string.

Definition PRIORITY_PATH_KEYWORDS : list string :=
  ["admin"; "administrator"; "dashboard"; "panel"; "control";
   "login"; "cp"; "manage"; "backend"; "webmaster"]%string.

Definition MAX_URL_LENGTH : Z := 2048.
Definition MAX_PATH_LENGTH : Z := 2000.
Definition MAX_FILENAME_LENGTH : Z := 255.

(** ['..', '\x00', '\n', '\r', '%00', '%0a', '%0d']. *)
Definition FORBIDDEN_PATH_CHARS : list string :=
  [".."; String (ascii_of_nat 0) EmptyString;
   String (ascii_of_nat 10) EmptyString; String (ascii_of_nat 13) EmptyString;
   "%00"; "%0a"; "%0d"]%string.

End Constants.

(** ** scripts/rate_limiter.py *)

Module RateLimitStats.

Record t : Type := mk {
  total_requests : Z;
  throttled_requests : Z;
  rate_limit_hits : Z;
  current_rate : Q;
  last_429_time : Q
}.

(** The dataclass defaults, with [current_rate] as the keyword argument. *)
Definition new (rate : Q) : t := mk 0 0 0 rate 0%Q.

End RateLimitStats.

Module TokenBucket.
Import Constants.
Local Open Scope Q_scope.

Record t : Type := mk {
  rate : Q;
  capacity : Z;
  tokens : Q;
  last_update : Q
}.

(** [TokenBucket.__init__]; [now] is the reading of [time.monotonic()].
    The token count starts from the [capacity] argument as given, the
    capacity field from [max(1, capacity)]. *)
Definition new (rate : Q) (capacity : Z) (now : Q) : t :=
  mk (Py.max (inject_Z RATE_LIMIT_MIN) (Py.min rate (inject_Z RATE_LIMIT_MAX)))
     (Z.max 1 capacity)
     (inject_Z capacity)
     now.

(** The refill of [acquire]: [min(capacity, tokens + elapsed * rate)]. *)
Definition refill (b : t) (now : Q) : Q :=
  let elapsed := now - last_update b in
  Py.min (inject_Z (capacity b)) (tokens b + elapsed * rate b).

(** [TokenBucket.acquire(tokens=n)], with [now] the clock reading. *)
Definition acquire (b : t) (now : Q) (n : Z) : bool * t :=
  let refilled := refill b now in
  if Qle_bool (inject_Z n) refilled
  then (true, mk (rate b) (capacity b) (refilled - inject_Z n) now)
  else (false, mk (rate b) (capacity b) refilled now).

(** [TokenBucket.update_rate]. *)
Definition update_rate (b : t) (new_rate : Q) : t :=
  mk (Py.max (inject_Z RATE_LIMIT_MIN) (Py.min new_rate (inject_Z RATE_LIMIT_MAX)))
     (capacity b) (tokens b) (last_update b).

(** A sequence of [acquire] calls, each with its clock reading and its token
    count; the result lists the bucket after each call. *)
Fixpoint trace (b : t) (calls : list (Q * Z)) : list t :=
  match calls with
  | [] => []
  | (now, n) :: rest =>
      let b' := snd (acquire b now n) in
      b' :: trace b' rest
  end.

(** The readings of a monotonic clock, from [t0] on. *)
Fixpoint monotonic (t0 : Q) (calls : list (Q * Z)) : Prop :=
  match calls with
  | [] => True
  | (now, _) :: rest => t0 <= now /\ monotonic now rest
  end.

(** [0 <= tokens <= capacity]. *)
Definition within_capacity (b : t) : Prop :=
  0 <= tokens b /\ tokens b <= inject_Z (capacity b).

(** The argument of [asyncio.sleep] in [wait_for_token]. *)
Definition wait_time (b : t) (timeout elapsed : Q) : Q :=
  Py.min (1 / rate b) (timeout - elapsed).

(** [TokenBucket.wait_for_token(timeout)]. [start_time] is the first clock
    reading; each turn of the loop reads the clock in [acquire] and, when
    refused, once more for [elapsed], so [polls] lists the pairs of
    readings of the turns. The sleep shows in the readings that follow it.
    [None]: the loop is still running when the readings end. *)
Fixpoint wait_for_token (b : t) (timeout start_time : Q) (polls : list (Q * Q))
    : option (bool * t) :=
  match polls with
  | [] => None
  | (t_acquire, t_check) :: rest =>
      let '(granted, b') := acquire b t_acquire 1 in
      if granted then Some (true, b')
      else if Qle_bool timeout (t_check - start_time) then Some (false, b')
      else wait_for_token b' timeout start_time rest
  end.

(** The bucket after the turns of [wait_for_token] that are refused and
    followed by a sleep. *)
Fixpoint refused_turns (b : t) (polls : list (Q * Q)) : t :=
  match polls with
  | [] => b
  | (t_acquire, _) :: rest => refused_turns (acquire b t_acquire 1).2 rest
  end.



End TokenBucket.

Module AdaptiveRateLimiter.
Import Constants.
Local Open Scope Q_scope.

Record t : Type := mk {
  current_rate : Q;
  min_rate : Q;
  max_rate : Q;
  backoff_factor : Q;
  recovery_factor : Q;
  bucket : TokenBucket.t;
  stats : RateLimitStats.t;
  host_buckets : gmap string TokenBucket.t;
  host_stats : gmap string RateLimitStats.t;
  _consecutive_successes : Z;
  _success_threshold : Z
}.

(** [AdaptiveRateLimiter.__init__]; [now] is the clock reading taken by the
    constructor of the global bucket. *)
Definition new (initial_rate : Q) (burst_size : Z)
    (min_rate max_rate backoff_factor recovery_factor : Q) (now : Q) : t :=
  mk initial_rate min_rate max_rate backoff_factor recovery_factor
     (TokenBucket.new initial_rate burst_size now)
     (RateLimitStats.new initial_rate)
     ∅ ∅ 0%Z 50%Z.

(** The constructor with its default arguments. *)
Definition with_defaults (now : Q) : t :=
  new (inject_Z DEFAULT_RATE_LIMIT) DEFAULT_BURST_SIZE 1 100 (1 # 2) (11 # 10) now.

Definition set_stats (l : t) (s : RateLimitStats.t) : t :=
  mk (current_rate l) (min_rate l) (max_rate l) (backoff_factor l)
     (recovery_factor l) (bucket l) s (host_buckets l) (host_stats l)
     (_consecutive_successes l) (_success_threshold l).

Definition set_bucket (l : t) (b : TokenBucket.t) : t :=
  mk (current_rate l) (min_rate l) (max_rate l) (backoff_factor l)
     (recovery_factor l) b (stats l) (host_buckets l) (host_stats l)
     (_consecutive_successes l) (_success_threshold l).

Definition set_hosts (l : t) (hb : gmap string TokenBucket.t)
    (hs : gmap string RateLimitStats.t) : t :=
  mk (current_rate l) (min_rate l) (max_rate l) (backoff_factor l)
     (recovery_factor l) (bucket l) (stats l) hb hs
     (_consecutive_successes l) (_success_threshold l).

Definition set_rate (l : t) (r : Q) (successes : Z) : t :=
  mk r (min_rate l) (max_rate l) (backoff_factor l)
     (recovery_factor l) (bucket l) (stats l) (host_buckets l) (host_stats l)
     successes (_success_threshold l).

Definition bump_total (s : RateLimitStats.t) : RateLimitStats.t :=
  RateLimitStats.mk (RateLimitStats.total_requests s + 1)
    (RateLimitStats.throttled_requests s) (RateLimitStats.rate_limit_hits s)
    (RateLimitStats.current_rate s) (RateLimitStats.last_429_time s).

Definition bump_throttled (s : RateLimitStats.t) : RateLimitStats.t :=
  RateLimitStats.mk (RateLimitStats.total_requests s)
    (RateLimitStats.throttled_requests s + 1) (RateLimitStats.rate_limit_hits s)
    (RateLimitStats.current_rate s) (RateLimitStats.last_429_time s).

(** [rate_limit_hits += 1; last_429_time = now]. *)
Definition record_hit (s : RateLimitStats.t) (now : Q) : RateLimitStats.t :=
  RateLimitStats.mk (RateLimitStats.total_requests s)
    (RateLimitStats.throttled_requests s) (RateLimitStats.rate_limit_hits s + 1)
    (RateLimitStats.current_rate s) now.

Definition set_stats_rate (s : RateLimitStats.t) (r : Q) : RateLimitStats.t :=
  RateLimitStats.mk (RateLimitStats.total_requests s)
    (RateLimitStats.throttled_requests s) (RateLimitStats.rate_limit_hits s)
    r (RateLimitStats.last_429_time s).

(** The three readings of the monotonic clock one [acquire] can take: in
    the global bucket, in the constructor of a new host bucket, and in the
    host bucket. *)
Record readings : Type := at_times {
  t_global : Q;
  t_create : Q;
  t_host : Q
}.

(** The bucket [acquire] builds for a host it has not seen. *)
Definition new_host_bucket (l : t) (now : Q) : TokenBucket.t :=
  TokenBucket.new (current_rate l / 2) (Z.max 1 (DEFAULT_BURST_SIZE / 2)) now.

(** The block of [acquire] under the lock: a host not yet in
    [host_buckets] gets its bucket and its statistics. *)
Definition ensure_host (l : t) (h : string) (now : Q) : t :=
  match host_buckets l !! h with
  | Some _ => l
  | None =>
      set_hosts l (<[h := new_host_bucket l now]> (host_buckets l))
                  (<[h := RateLimitStats.new 0]> (host_stats l))
  end.

(** The per-host part of [acquire], for a truthy [host]. *)
Definition acquire_host (l : t) (h : string) (ts : readings)
    : Py.result (bool * t) :=
  let l := ensure_host l h (t_create ts) in
  match host_buckets l !! h with
  | None => Py.Raise (Py.KeyError h)
  | Some hb =>
      let '(granted, hb') := TokenBucket.acquire hb (t_host ts) 1 in
      let l := set_hosts l (<[h := hb']> (host_buckets l)) (host_stats l) in
      if negb granted then
        Py.Ok (false, set_stats l (bump_throttled (stats l)))
      else
        match host_stats l !! h with
        | None => Py.Raise (Py.KeyError h)
        | Some hs =>
            Py.Ok (true, set_hosts l (host_buckets l)
                           (<[h := bump_total hs]> (host_stats l)))
        end
  end.

(** [AdaptiveRateLimiter.acquire(host)]. *)
Definition acquire (l : t) (host : option string) (ts : readings)
    : Py.result (bool * t) :=
  let l := set_stats l (bump_total (stats l)) in
  let '(granted, b) := TokenBucket.acquire (bucket l) (t_global ts) 1 in
  let l := set_bucket l b in
  if negb granted then
    Py.Ok (false, set_stats l (bump_throttled (stats l)))
  else if Py.truthy host then
    acquire_host l (default ""%string host) ts
  else Py.Ok (true, l).

(** [_handle_rate_limit_hit]; [now] and [now_host] are the two readings of
    [time.time()]. *)
Definition _handle_rate_limit_hit (l : t) (host : option string)
    (now now_host : Q) : Py.result t :=
  let l := set_stats l (record_hit (stats l) now) in
  let new_rate := Py.max (min_rate l) (current_rate l * backoff_factor l) in
  let l := set_rate l new_rate 0 in
  let l := set_bucket l (TokenBucket.update_rate (bucket l) new_rate) in
  let l := set_stats l (set_stats_rate (stats l) new_rate) in
  let h := default ""%string host in
  if Py.truthy host && bool_decide (is_Some (host_buckets l !! h)) then
    match host_stats l !! h, host_buckets l !! h with
    | Some hs, Some hb =>
        let host_rate := Py.max (min_rate l) (new_rate / 2) in
        Py.Ok (set_hosts l
                 (<[h := TokenBucket.update_rate hb host_rate]> (host_buckets l))
                 (<[h := set_stats_rate (record_hit hs now_host) host_rate]>
                    (host_stats l)))
    | _, _ => Py.Raise (Py.KeyError h)
    end
  else Py.Ok l.

(** [_handle_success]. *)
Definition _handle_success (l : t) (host : option string) : t :=
  let l := set_rate l (current_rate l) (_consecutive_successes l + 1) in
  if (_success_threshold l <=? _consecutive_successes l)%Z then
    let new_rate := Py.min (max_rate l) (current_rate l * recovery_factor l) in
    let l := set_rate l new_rate 0 in
    let l := set_bucket l (TokenBucket.update_rate (bucket l) new_rate) in
    set_stats l (set_stats_rate (stats l) new_rate)
  else l.

(** [on_response(status_code, host)]. *)
Definition on_response (l : t) (status_code : Z) (host : option string)
    (now now_host : Q) : Py.result t :=
  if (status_code =? HTTP_TOO_MANY_REQUESTS)%Z then
    _handle_rate_limit_hit l host now now_host
  else if ((200 <=? status_code) && (status_code <? 400))%Z then
    Py.Ok (_handle_success l host)
  else Py.Ok l.

(** [reset()]; [now] is the reading taken by the new bucket. *)
Definition reset (l : t) (now : Q) : t :=
  let r := inject_Z DEFAULT_RATE_LIMIT in
  mk r (min_rate l) (max_rate l) (backoff_factor l) (recovery_factor l)
     (TokenBucket.new r DEFAULT_BURST_SIZE now)
     (RateLimitStats.new r)
     ∅ ∅ 0%Z (_success_threshold l).

(** The calls a client makes on a limiter during its lifetime. *)
Inductive call : Type :=
| Acquire (host : option string) (ts : readings)
| OnResponse (status_code : Z) (host : option string) (now now_host : Q)
| Reset (now : Q).

Definition step (l : t) (c : call) : Py.result t :=
  match c with
  | Acquire host ts => let! r := acquire l host ts in Py.Ok (snd r)
  | OnResponse status host now now_host => on_response l status host now now_host
  | Reset now => Py.Ok (reset l now)
  end.

Fixpoint run (l : t) (calls : list call) : Py.result t :=
  match calls with
  | [] => Py.Ok l
  | c :: rest => let! l' := step l c in run l' rest
  end.

(** A response that counts as a success: [200 <= status_code < 400]. *)
Definition success_response (c : call) : Prop :=
  match c with
  | OnResponse status_code _ _ _ => (200 <= status_code < 400)%Z
  | _ => False
  end.

(** [AdaptiveRateLimiter.wait(host, timeout)]: the global bucket alone. *)
Definition wait (l : t) (host : option string) (timeout start_time : Q)
    (polls : list (Q * Q)) : option (bool * t) :=
  match TokenBucket.wait_for_token (bucket l) timeout start_time polls with
  | Some (granted, b) => Some (granted, set_bucket l b)
  | None => None
  end.

(** The calls to [acquire] since the last [reset], counted from [n]. *)
Fixpoint acquires_since_reset (n : Z) (calls : list call) : Z :=
  match calls with
  | [] => n
  | Acquire _ _ :: rest => acquires_since_reset (n + 1) rest
  | Reset _ :: rest => acquires_since_reset 0 rest
  | OnResponse _ _ _ _ :: rest => acquires_since_reset n rest
  end.

(** The hosts named in the calls to [acquire] since the last [reset]. *)
Fixpoint hosts_probed (hosts : gset string) (calls : list call) : gset string :=
  match calls with
  | [] => hosts
  | Acquire (Some h) _ :: rest => hosts_probed ({[h]} ∪ hosts) rest
  | Reset _ :: rest => hosts_probed ∅ rest
  | _ :: rest => hosts_probed hosts rest
  end.

(** The default limiter after five probes of one host at the instant of its
    construction: the host's bucket (capacity 5) is empty, the global one
    (capacity 10) is not. *)
Definition after_five_probes (h : string) : t :=
  match run (with_defaults 0)
          (replicate 5 (Acquire (Some h) (at_times 0 0 0))) with
  | Py.Ok l => l
  | Py.Raise _ => with_defaults 0
  end.

(** What the two host dictionaries satisfy in every state the class can be
    in: a host with a bucket has its statistics. *)
Definition hosts_paired (l : t) : Prop :=
  forall h, is_Some (host_buckets l !! h) -> is_Some (host_stats l !! h).

(** The configuration of [l'] is that of [l]. *)
Definition same_config (l l' : t) : Prop :=
  min_rate l' = min_rate l /\ max_rate l' = max_rate l /\
  backoff_factor l' = backoff_factor l /\
  recovery_factor l' = recovery_factor l /\
  _success_threshold l' = _success_threshold l.

(** What [l'] shares with [l] when only statistics, tokens and host
    entries moved. *)
Definition same_rates (l l' : t) : Prop :=
  current_rate l' = current_rate l /\
  TokenBucket.rate (bucket l') = TokenBucket.rate (bucket l) /\
  _consecutive_successes l' = _consecutive_successes l /\
  same_config l l'.

(** [min_rate <= current_rate <= max_rate]. *)
Definition rate_in_bounds (l : t) : Prop :=
  min_rate l <= current_rate l /\ current_rate l <= max_rate l.

(** The rate of the global bucket lies within the module's constants. *)
Definition bucket_rate_in_bounds (l : t) : Prop :=
  inject_Z RATE_LIMIT_MIN <= TokenBucket.rate (bucket l) /\
  TokenBucket.rate (bucket l) <= inject_Z RATE_LIMIT_MAX.

(** A configuration under which backing off lowers the rate and recovering
    raises it, between a floor and a ceiling that [reset] respects. *)
Definition well_configured (mn mx bf rf : Q) : Prop :=
  0 <= mn /\ mn <= mx /\ 0 <= bf /\ bf <= 1 /\ 1 <= rf /\
  mn <= inject_Z DEFAULT_RATE_LIMIT /\ inject_Z DEFAULT_RATE_LIMIT <= mx.

(** What the fields of a limiter keep to one another. *)
Record coherent (l : t) : Prop := {
  coherent_paired : hosts_paired l;
  coherent_stats_bucket :
    forall h, is_Some (host_stats l !! h) -> is_Some (host_buckets l !! h);
  coherent_reported_rate : RateLimitStats.current_rate (stats l) = current_rate l;
  coherent_bucket_rate :
    TokenBucket.rate (bucket l)
    = Py.max (inject_Z RATE_LIMIT_MIN)
        (Py.min (current_rate l) (inject_Z RATE_LIMIT_MAX));
  coherent_threshold : _success_threshold l = 50%Z;
  coherent_counter : (0 <= _consecutive_successes l < 50)%Z;
  coherent_throttled :
    (0 <= RateLimitStats.throttled_requests (stats l)
       <= RateLimitStats.total_requests (stats l))%Z;
  coherent_host_buckets :
    forall h hb, host_buckets l !! h = Some hb ->
      TokenBucket.capacity hb = 5%Z /\
      inject_Z RATE_LIMIT_MIN <= TokenBucket.rate hb /\
      TokenBucket.rate hb <= inject_Z RATE_LIMIT_MAX;
  coherent_host_totals :
    forall h hs, host_stats l !! h = Some hs ->
      (0 <= RateLimitStats.total_requests hs
         <= RateLimitStats.total_requests (stats l)
            - RateLimitStats.throttled_requests (stats l))%Z
}.

End AdaptiveRateLimiter.

(** ** Python strings *)

Module Str.
Local Open Scope string_scope.
Local Open Scope nat_scope.

Definition is_upper (c : ascii) : bool :=
  (65 <=? nat_of_ascii c) && (nat_of_ascii c <=? 90).

Definition is_lower (c : ascii) : bool :=
  (97 <=? nat_of_ascii c) && (nat_of_ascii c <=? 122).

Definition lower_char (c : ascii) : ascii :=
  if is_upper c then ascii_of_nat (nat_of_ascii c + 32) else c.

Definition upper_char (c : ascii) : ascii :=
  if is_lower c then ascii_of_nat (nat_of_ascii c - 32) else c.

Fixpoint map_chars (f : ascii -> ascii) (s : string) : string :=
  match s with
  | EmptyString => EmptyString
  | String c s' => String (f c) (map_chars f s')
  end.

(** [s.lower()] and [s.upper()]. *)
Definition lower (s : string) : string := map_chars lower_char s.
Definition upper (s : string) : string := map_chars upper_char s.

(** [s.capitalize()]: the first character in upper case, the rest in lower
    case. *)
Definition capitalize (s : string) : string :=
  match s with
  | EmptyString => EmptyString
  | String c s' => String (upper_char c) (lower s')
  end.

(** [s.startswith(p)]. *)
Definition startswith (p s : string) : bool := String.prefix p s.

(** [sub in s]. *)
Fixpoint contains (sub s : string) : bool :=
  String.prefix sub s ||
  match s with
  | EmptyString => false
  | String _ s' => contains sub s'
  end.

(** The characters [str.strip()] removes, among the ASCII ones. *)
Definition is_space (c : ascii) : bool :=
  let n := nat_of_ascii c in
  ((9 <=? n) && (n <=? 13)) || ((28 <=? n) && (n <=? 32)).

Fixpoint lstrip_with (drop : ascii -> bool) (s : string) : string :=
  match s with
  | EmptyString => EmptyString
  | String c s' => if drop c then lstrip_with drop s' else s
  end.

Definition strip_with (drop : ascii -> bool) (s : string) : string :=
  String.rev (lstrip_with drop (String.rev (lstrip_with drop s))).

(** [s.strip()]. *)
Definition strip (s : string) : string := strip_with is_space s.

(** [s.strip(c)] for a one-character [c]. *)
Definition strip_char (c : ascii) (s : string) : string :=
  strip_with (Ascii.eqb c) s.

(** [s.split(sep)] for a one-character [sep]; [cur] is the piece being
    read, reversed. The result is never empty. *)
Fixpoint split_go (sep : ascii) (cur : string) (s : string) : list string :=
  match s with
  | EmptyString => [String.rev cur]
  | String c s' =>
      if Ascii.eqb c sep then String.rev cur :: split_go sep EmptyString s'
      else split_go sep (String c cur) s'
  end.

Definition split (sep : ascii) (s : string) : list string :=
  split_go sep EmptyString s.

(** [sep.join(parts)]. *)
Fixpoint join (sep : string) (parts : list string) : string :=
  match parts with
  | [] => EmptyString
  | [p] => p
  | p :: rest => p +:+ sep +:+ join sep rest
  end.

(** [s.rsplit(sep, 1)] for a one-character [sep] that occurs in [s]: what
    stands before the last [sep], and what stands after it. *)
Definition rsplit1 (sep : ascii) (s : string) : string * string :=
  let parts := split sep s in
  (join (String sep EmptyString) (removelast parts), List.last parts EmptyString).

(** [s.replace(a, b)] for one-character [a], [b]. *)
Definition replace_char (a b : ascii) (s : string) : string :=
  map_chars (fun c => if Ascii.eqb c a then b else c) s.

(** [s.replace(a, '')] for a one-character [a]. *)
Fixpoint remove_char (a : ascii) (s : string) : string :=
  match s with
  | EmptyString => EmptyString
  | String c s' =>
      if Ascii.eqb c a then remove_char a s' else String c (remove_char a s')
  end.

(** [s[:-k]] for [k >= 1]. *)
Definition drop_last (k : nat) (s : string) : string :=
  String.substring 0 (String.length s - k) s.

(** The double quote, for the patterns that contain one. *)
Definition dquote : string := String (ascii_of_nat 34) EmptyString.

(** [l[:m]]: the first [m] elements, or all but the last [-m] when [m] is
    negative. *)
Definition slice_to {A} (m : Z) (l : list A) : list A :=
  if (0 <=? m)%Z then take (Z.to_nat m) l
  else take (length l - Z.to_nat (- m)) l.

(** [s.endswith(suffix)]. *)
Definition endswith (suffix s : string) : bool :=
  String.prefix (String.rev suffix) (String.rev s).

(** [all(f(c) for c in s)]. *)
Fixpoint all_chars (f : ascii -> bool) (s : string) : bool :=
  match s with
  | EmptyString => true
  | String c s' => f c && all_chars f s'
  end.

(** [s[:m]] on a string. *)
Definition slice_string_to (m : Z) (s : string) : string :=
  string_of_list_ascii (slice_to m (list_ascii_of_string s)).

End Str.

(** ** What Python takes from its runtime *)

(** [list(s)] of a set: its elements, in an order the run chooses. *)
Class SetListing : Type := {
  listing : gset string -> list string;
  listing_perm : forall X, listing X ≡ₚ elements X
}.

(** [random.shuffle]: a permutation the run chooses. *)
Class Shuffle : Type := {
  shuffle : list string -> list string;
  shuffle_perm : forall l, shuffle l ≡ₚ l
}.

(** A run that lists every set in the order of [elements] and whose
    shuffle leaves every list as it is. *)
Definition listing_by_elements : SetListing :=
  {| listing := elements; listing_perm := fun X => reflexivity (elements X) |}.

Definition shuffle_nothing : Shuffle :=
  {| shuffle := fun l => l; shuffle_perm := fun l => reflexivity l |}.

(** ** scripts/path_fuzzer.py *)

Module PathFuzzer.
Import Constants.
Local Open Scope string_scope.

Record t : Type := mk {
  depth : Z;
  include_extensions : bool;
  include_backups : bool;
  include_case_variations : bool;
  include_separator_variations : bool;
  max_variations_per_path : Z;
  extensions : list string;
  backup_extensions : list string
}.

(** [PathFuzzer.__init__]. *)
Definition new (depth : Z) (include_extensions include_backups
    include_case_variations include_separator_variations : bool)
    (max_variations_per_path : Z) : t :=
  let d := Z.max 1 (Z.min depth 3) in
  mk d include_extensions include_backups include_case_variations
     include_separator_variations max_variations_per_path
     (if (d =? 1)%Z then [".php"; ".html"; ".asp"]
      else if (d =? 2)%Z then [".php"; ".html"; ".asp"; ".aspx"; ".jsp"; ".htm"]
      else FUZZING_EXTENSIONS)
     (if (d =? 1)%Z then [".bak"; ".old"]
      else if (d =? 2)%Z then [".bak"; ".old"; ".backup"; ".orig"]
      else BACKUP_EXTENSIONS).

(** The constructor with its default arguments. *)
Definition with_defaults : t := new 1 true true true true 50.

(** [_to_camel_case] and [_to_title_case]. *)
Definition _to_camel_case (s : string) : string :=
  Str.join "" (map Str.capitalize (Str.split "_" (Str.replace_char "-" "_" s))).

Definition _to_title_case (s : string) : string :=
  Str.join "_" (map Str.capitalize (Str.split "_" (Str.replace_char "-" "_" s))).

(** The arguments of the calls [variations.add(...)] of [fuzz_path], in the
    order of the calls. *)
Definition added (f : t) (path0 : string) : list string :=
  let path := Str.strip_char "/" path0 in
  let parts := Str.split "/" path in
  let basename := List.last parts path in
  let '(name, original_ext) :=
    if Str.contains "." basename
    then let '(name, ext) := Str.rsplit1 "." basename in (name, "." +:+ ext)
    else (basename, "") in
  let several := (1 <? length parts)%nat in
  let dir := Str.join "/" (removelast parts) in
  [path0]
  ++ (if include_extensions f then
        flat_map (fun ext =>
          [ (if several then dir +:+ "/" +:+ (name +:+ ext) else name +:+ ext);
            (if several then dir +:+ "/" +:+ name else name) ])
          (extensions f)
      else [])
  ++ (if include_backups f then
        flat_map (fun backup_ext =>
          (path +:+ backup_ext)
          :: match original_ext with
             | EmptyString => []
             | _ =>
                 let base_path := Str.drop_last (String.length original_ext) path in
                 [ base_path +:+ backup_ext;
                   base_path +:+ backup_ext +:+ original_ext ]
             end)
          (backup_extensions f)
      else [])
  ++ (if include_case_variations f then
        [ Str.lower path; Str.upper path;
          _to_camel_case path; _to_title_case path ]
      else [])
  ++ (if include_separator_variations f then
        [ Str.replace_char "_" "-" path; Str.replace_char "-" "_" path;
          Str.remove_char "-" (Str.remove_char "_" path) ]
      else []).

(** The set [variations] at the end of [fuzz_path]. *)
Definition variations (f : t) (path : string) : gset string :=
  list_to_set (added f path).

(** [fuzz_path]: [list(variations)[:self.max_variations_per_path]]. *)
Definition fuzz_path `{SetListing} (f : t) (path : string) : list string :=
  Str.slice_to (max_variations_per_path f) (listing (variations f path)).

(** [fuzz_paths]: the union of the expansions, listed. *)
Definition fuzz_paths `{SetListing} (f : t) (paths : list string) : list string :=
  listing
    (fold_left (fun (all_variations : gset string) path =>
                  all_variations ∪ list_to_set (fuzz_path f path))
       paths ∅).

(** [score_path], the key of [prioritize_paths]. *)
Definition score_path (path : string) : Z :=
  let path_lower := Str.lower path in
  let score :=
    fold_left (fun score keyword =>
                 if Str.contains keyword path_lower then score + 10 else score)%Z
      PRIORITY_PATH_KEYWORDS 0%Z in
  let basename :=
    hd "" (Str.split "." (List.last (Str.split "/" path) "")) in
  let score :=
    if bool_decide (Str.lower basename
                    ∈ ["admin"; "administrator"; "dashboard"; "login"])
    then (score + 20)%Z else score in
  let score :=
    if (50 <? String.length path)%nat then (score - 5)%Z else score in
  if Str.endswith ".php" path || Str.endswith ".aspx" path then (score + 3)%Z else score.

(** [PathFuzzer.prioritize_paths]. *)
Definition prioritize_paths (paths : list string) : list string :=
  Py.sorted_reverse score_path paths.

(** A path with one of [PRIORITY_PATH_KEYWORDS] in it, in any case. *)
Definition has_priority_keyword (path : string) : bool :=
  existsb (fun keyword => Str.contains keyword (Str.lower path))
    PRIORITY_PATH_KEYWORDS.

End PathFuzzer.

Module WordlistMutator.
Local Open Scope string_scope.

Record t : Type := mk {
  max_mutations : Z
}.

(** The constructor with its default argument. *)
Definition with_defaults : t := mk 10.

(** The dictionary [substitutions], in the order of its items. *)
Definition substitutions : list (ascii * list ascii) :=
  [("a", ["@"; "4"]); ("e", ["3"]); ("i", ["1"; "!"]); ("o", ["0"]);
   ("s", ["$"; "5"]); ("t", ["7"])]%char.

(** The arguments of the calls [mutations.add(...)] of [mutate], in the
    order of the calls. *)
Definition added (word : string) : list string :=
  [word]
  ++ flat_map (fun '(char, replacements) =>
       if Str.contains (String char "") (Str.lower word)
       then map (fun replacement =>
                   Str.replace_char char replacement (Str.lower word))
              replacements
       else [])
       substitutions
  ++ map (fun i : Z => word +:+ pretty i) [1; 2; 3]%Z
  ++ map (fun year => word +:+ year) ["2024"; "2025"; "123"; "1234"]
  ++ map (fun prefix => prefix +:+ word) ["_"; "-"; "."; ""].

(** [mutate]: [list(mutations)[:self.max_mutations]]. *)
Definition mutate `{SetListing} (m : t) (word : string) : list string :=
  Str.slice_to (max_mutations m) (listing (list_to_set (added word))).

(** [mutate_wordlist]. *)
Definition mutate_wordlist `{SetListing} (m : t) (words : list string)
    : list string :=
  listing
    (fold_left (fun (all_mutations : gset string) word =>
                  all_mutations ∪ list_to_set (mutate m word))
       words ∅).

(** Eleven of the mutations of a word. *)
Definition eleven (word : string) : list string :=
  [word; word +:+ "1"; word +:+ "2"; word +:+ "3";
   word +:+ "2024"; word +:+ "2025"; word +:+ "123"; word +:+ "1234";
   "_" +:+ word; "-" +:+ word; "." +:+ word].

End WordlistMutator.

(** ** finder.py: the shaping of the path list in [scan_target] *)

Module Finder.
Local Open Scope string_scope.

Definition admin_keywords : list string :=
  ["admin"; "administrator"; "dashboard"; "panel"; "control"; "login"; "cp"].

(** [any(keyword in p.lower() for keyword in admin_keywords)]. *)
Definition has_admin_keyword (p : string) : bool :=
  existsb (fun keyword => Str.contains keyword (Str.lower p)) admin_keywords.

(** [prioritized_paths]: the paths with a keyword, in the order of the
    list, repetitions kept. *)
Definition prioritized (paths : list string) : list string :=
  filter (fun p => has_admin_keyword p = true) paths.

(** [set(paths) - set(prioritized_paths)]. *)
Definition remaining (paths : list string) : gset string :=
  list_to_set paths ∖ list_to_set (prioritized paths).

(** The stealth branch: the keyword matches, at most 300 of them, then at
    most 200 of the other paths, shuffled. *)
Definition stealth_paths `{SetListing} `{Shuffle} (paths : list string)
    : list string :=
  let random_paths := listing (remaining paths) in
  let selected_random :=
    match random_paths with
    | [] => []
    | _ => take 200 (shuffle random_paths)
    end in
  take 300 (prioritized paths) ++ selected_random.

(** The paths [scan_target] hands to the scanner, from the validated (and
    possibly fuzzed) list and [config.DETECTION_MODE]. *)
Definition shape_paths `{SetListing} `{Shuffle} (detection_mode : string)
    (paths : list string) : list string :=
  if String.eqb detection_mode "simple" && (1000 <? length paths)%nat then
    take 1000 paths
  else if String.eqb detection_mode "stealth" && (500 <? length paths)%nat then
    stealth_paths paths
  else paths.

(** A wordlist of 600 distinct paths, 50 of them with a keyword. *)
Definition sample_paths : list string :=
  map (fun i : nat => "admin/" +:+ pretty i) (seq 0 50)
  ++ map (fun i : nat => "page" +:+ pretty i) (seq 0 550).

(** A wordlist of 600 paths, 50 of them with a keyword, whose other 550
    lines are one path. *)
Definition repeated_paths : list string :=
  replicate 50 "admin" ++ replicate 550 "index".

End Finder.

(** [urllib.parse.urlparse]: the attributes of the result the code reads.
    Reading [port] raises [ValueError] when the port is not a number in
    range, and [urlparse] itself can raise. *)
Module Urlparse.

Record ParseResult : Type := mk {
  scheme : string;
  netloc : string;
  hostname : option string;
  port : Py.result (option Z);
  username : option string;
  password : option string
}.

End Urlparse.

Class Urllib : Type := {
  urlparse : string -> Py.result Urlparse.ParseResult
}.

(** [re]: [re.match(pattern, s)] as a truth value, and, with the flag
    [re.IGNORECASE], [re.search(pattern, s)] as a truth value and
    [re.findall(pattern, s)] for a pattern with at most one group. *)
Class Regex : Type := {
  re_match : string -> string -> bool;
  re_search_ignorecase : string -> string -> bool;
  re_findall_ignorecase : string -> string -> list string
}.

(** The lines a text file yields when iterated, an iteration that can end
    in an error; and [open(path, 'r')]. *)
Inductive file_lines : Type :=
| Eof
| Line (s : string) (rest : file_lines)
| ReadError (e : Py.exn).

Class FileSystem : Type := {
  open_read : string -> Py.result file_lines
}.

(** The calls on [adv_logger], kept as a list in the state of the caller. *)
Inductive log_entry : Type :=
| log_info (msg : string)
| log_warning (msg : string)
| log_error (msg : string).

(** [urllib.parse.unquote], which [validate_path] calls under a [try]. *)
Class Unquote : Type := {
  unquote : string -> Py.result string
}.

(** ** scripts/input_validator.py *)

Module InputValidator.
Import Constants.
Local Open Scope string_scope.

(** [IP_ADDRESS_PATTERN] of scripts/constants.py and the pattern of host
    names. *)
Definition IP_ADDRESS_PATTERN : string :=
  "^(?:(?:25[0-5]|2[0-4][0-9]|[01]?[0-9][0-9]?)\.){3}(?:25[0-5]|2[0-4][0-9]|[01]?[0-9][0-9]?)$".

Definition HOSTNAME_PATTERN : string := "^[a-zA-Z0-9.-]+$".

Definition valid_schemes : list string :=
  ["http://"; "https://"; "socks4://"; "socks5://"].

(** The [try] block of [validate_proxy_url]. *)
Definition parse_and_check `{Urllib} `{Regex} (proxy_url : string)
    : Py.result (bool * string) :=
  let! parsed := urlparse proxy_url in
  if negb (bool_decide (Urlparse.netloc parsed <> "")) then
    Py.Ok (false, "Invalid proxy URL: missing host")
  else
    let host := Urlparse.hostname parsed in
    let! _ := Urlparse.port parsed in
    if negb (Py.truthy host) then
      Py.Ok (false, "Invalid proxy URL: missing host")
    else if negb (re_match IP_ADDRESS_PATTERN (default "" host))
            && negb (re_match HOSTNAME_PATTERN (default "" host)) then
      Py.Ok (false, "Invalid proxy hostname")
    else Py.Ok (true, proxy_url).

(** [InputValidator.validate_proxy_url]. *)
Definition validate_proxy_url `{Urllib} `{Regex} (proxy_url : string)
    : bool * string :=
  if negb (bool_decide (proxy_url <> "")) then
    (false, "Proxy URL cannot be empty")
  else
    let proxy_url := Str.strip proxy_url in
    if negb (existsb (fun scheme => Str.startswith scheme (Str.lower proxy_url))
               valid_schemes) then
      (false, "Proxy URL must start with one of: " +:+ Str.join ", " valid_schemes)
    else
      match parse_and_check proxy_url with
      | Py.Ok r => r
      | Py.Raise e => (false, "Proxy URL parsing error: " +:+ Py.exn_message e)
      end.

(** [self.control_chars]: the characters below 32 other than tab, line
    feed and carriage return. *)
Definition control_chars (c : ascii) : bool :=
  let n := nat_of_ascii c in
  (n <? 32)%nat && negb ((n =? 9)%nat || (n =? 10)%nat || (n =? 13)%nat).

(** [_filter_control_chars]. *)
Fixpoint _filter_control_chars (text : string) : string :=
  match text with
  | EmptyString => EmptyString
  | String char rest =>
      if control_chars char then _filter_control_chars rest
      else String char (_filter_control_chars rest)
  end.

(** [repr(s)] for a string of NUL, line feed, carriage return and
    printable characters other than the quote and the backslash. *)
Definition repr_char (c : ascii) : string :=
  if (nat_of_ascii c =? 0)%nat then "\x00"
  else if (nat_of_ascii c =? 10)%nat then "\n"
  else if (nat_of_ascii c =? 13)%nat then "\r"
  else String c "".

Fixpoint repr_chars (s : string) : string :=
  match s with
  | EmptyString => EmptyString
  | String c rest => repr_char c +:+ repr_chars rest
  end.

Definition repr (s : string) : string := "'" +:+ repr_chars s +:+ "'".

(** The end of [validate_path]: backslashes become slashes and the
    leading slashes go. *)
Definition normalize_path (path : string) : bool * string :=
  let path := Str.replace_char "\" "/" path in
  let path := Str.lstrip_with (Ascii.eqb "/") path in
  (true, path).

(** [InputValidator.validate_path]. *)
Definition validate_path `{Unquote} (path : string) : bool * string :=
  if negb (bool_decide (path <> "")) then (false, "Path cannot be empty")
  else if (MAX_PATH_LENGTH <? Z.of_nat (String.length path))%Z then
    (false, "Path exceeds maximum length of " +:+ pretty MAX_PATH_LENGTH
            +:+ " characters")
  else
    let path := _filter_control_chars path in
    match List.find (fun forbidden => Str.contains forbidden path)
            FORBIDDEN_PATH_CHARS with
    | Some forbidden =>
        (false, "Path contains forbidden pattern: " +:+ repr forbidden)
    | None =>
        match unquote path with
        | Py.Ok decoded_path =>
            if existsb (fun forbidden => Str.contains forbidden decoded_path)
                 FORBIDDEN_PATH_CHARS
            then (false, "Path contains forbidden pattern after decoding")
            else normalize_path path
        | Py.Raise _ => normalize_path path
        end
    end.

(** [InputValidator.validate_paths_list]. *)
Fixpoint validate_paths_list `{Unquote} (paths : list string) : list string :=
  match paths with
  | [] => []
  | path :: rest =>
      let '(is_valid, result) := validate_path path in
      if is_valid then result :: validate_paths_list rest
      else validate_paths_list rest
  end.

(** What a path accepted by [validate_path] is free of. *)
Definition safe_path (path : string) : Prop :=
  Str.contains ".." path = false /\
  Str.contains "\" path = false /\
  Str.startswith "/" path = false /\
  (forall c, control_chars c = true \/ nat_of_ascii c = 10%nat
             \/ nat_of_ascii c = 13%nat ->
     Str.contains (String c "") path = false) /\
  Str.contains "%00" path = false /\
  Str.contains "%0a" path = false /\
  Str.contains "%0d" path = false /\
  (Z.of_nat (String.length path) <= MAX_PATH_LENGTH)%Z.

(** [name, ext = os.path.splitext(p)] for a [p] without a path separator,
    which is what [sanitize_filename] passes. [split_last_dot] cuts [p] in
    front of its last dot; the extension is empty when [p] has no dot or
    only dots in front of the last one. *)
Fixpoint split_last_dot (p : string) : option (string * string) :=
  match p with
  | EmptyString => None
  | String c rest =>
      match split_last_dot rest with
      | Some (name, ext) => Some (String c name, ext)
      | None => if Ascii.eqb c "." then Some ("", p) else None
      end
  end.

Definition splitext (p : string) : string * string :=
  match split_last_dot p with
  | Some (name, ext) =>
      if Str.all_chars (Ascii.eqb ".") name then (p, "") else (name, ext)
  | None => (p, "")
  end.

(** The characters of [invalid_chars], the double quote among them. *)
Definition invalid_chars : list ascii :=
  ["<"; ">"; ":"; ascii_of_nat 34; "|"; "?"; "*"]%char.

(** [sanitize_filename] up to the test of the length. *)
Definition clean_filename (filename : string) : string :=
  let filename := _filter_control_chars filename in
  let filename := Str.replace_char "\" "_" (Str.replace_char "/" "_" filename) in
  let filename :=
    fold_left (fun filename char => Str.replace_char char "_" filename)
      invalid_chars filename in
  Str.strip_with (fun c => Ascii.eqb c "." || Ascii.eqb c " ") filename.

(** [InputValidator.sanitize_filename]. *)
Definition sanitize_filename (filename : string) : string :=
  if negb (bool_decide (filename <> "")) then "untitled"
  else
    let filename := clean_filename filename in
    let filename :=
      if (MAX_FILENAME_LENGTH <? Z.of_nat (String.length filename))%Z then
        let '(name, ext) := splitext filename in
        let max_name_length :=
          (MAX_FILENAME_LENGTH - Z.of_nat (String.length ext))%Z in
        Str.slice_string_to max_name_length name +:+ ext
      else filename in
    if bool_decide (filename <> "") then filename else "untitled".

(** The characters [sanitize_filename] is there to remove. *)
Definition unwanted (c : ascii) : bool :=
  control_chars c
  || bool_decide (c ∈ ["/"; "\"; "<"; ">"; ":"; ascii_of_nat 34; "|"; "?"; "*"]%char).

(** A run in which no path holds a percent escape: [unquote] returns the
    path it is given. *)
Definition unquote_plain : Unquote := {| unquote := fun s => Py.Ok s |}.

End InputValidator.

(** ** finder.py: from the lines of the wordlist to the paths scanned *)

Module Scan.
Local Open Scope string_scope.

(** The paths of a text wordlist:
    [[line.strip() for line in f if line.strip() and not line.startswith('#')]]. *)
Definition read_wordlist (lines : list string) : list string :=
  map Str.strip
    (List.filter (fun line => bool_decide (Str.strip line <> "")
                              && negb (Str.startswith "#" line)) lines).

(** [get_fuzzer(depth)]: a fuzzer with the other arguments at their
    defaults. *)
Definition get_fuzzer (depth : Z) : PathFuzzer.t :=
  PathFuzzer.new depth true true true true 50.

(** The paths [scan_target] hands to the scanner for a text wordlist with
    these lines, from [config.USE_PATH_FUZZING], [config.FUZZING_DEPTH] and
    [config.DETECTION_MODE]. *)
Definition scan_paths `{Unquote} `{SetListing} `{Shuffle}
    (USE_PATH_FUZZING : bool) (FUZZING_DEPTH : Z) (DETECTION_MODE : string)
    (lines : list string) : list string :=
  let paths := read_wordlist lines in
  let paths := List.filter (fun p => bool_decide (p <> "")) paths in
  let paths := InputValidator.validate_paths_list paths in
  let paths :=
    if USE_PATH_FUZZING
    then PathFuzzer.fuzz_paths (get_fuzzer FUZZING_DEPTH) paths
    else paths in
  Finder.shape_paths DETECTION_MODE paths.

End Scan.

(** ** scripts/proxy_manager.py *)

Module ProxyStats.
Local Open Scope Q_scope.

Record t : Type := mk {
  total_requests : Z;
  successful_requests : Z;
  failed_requests : Z;
  total_response_time : Q;
  last_used : Q;
  last_success : Q;
  last_failure : Q;
  consecutive_failures : Z;
  is_healthy : bool
}.

(** The dataclass defaults. *)
Definition new : t := mk 0 0 0 0 0 0 0 0 true.

(** The property [success_rate]. *)
Definition success_rate (s : t) : Q :=
  if (total_requests s =? 0)%Z then 0
  else inject_Z (successful_requests s) / inject_Z (total_requests s).

(** The property [avg_response_time]; [None] is [float('inf')]. *)
Definition avg_response_time (s : t) : option Q :=
  if (successful_requests s =? 0)%Z then None
  else Some (total_response_time s / inject_Z (successful_requests s)).

End ProxyStats.

Module Proxy.
Local Open Scope string_scope.

Record t : Type := mk {
  url : string;
  type : string;
  host : option string;
  port : Z;
  username : option string;
  password : option string;
  stats : ProxyStats.t
}.

Definition set_stats (p : t) (s : ProxyStats.t) : t :=
  mk (url p) (type p) (host p) (port p) (username p) (password p) s.

(** [a or b] on optional strings. *)
Definition or_else (a b : option string) : option string :=
  if Py.truthy a then a else b.

(** The constructor of the dataclass with [__post_init__]: a proxy without
    a host or a port is completed from its URL. *)
Definition new `{Urllib} (url type : string) (host : option string) (port : Z)
    (username password : option string) : Py.result t :=
  if negb (Py.truthy host) || (port =? 0)%Z then
    let! parsed := urlparse url in
    let host' := or_else (Urlparse.hostname parsed) host in
    let! parsed_port := Urlparse.port parsed in
    let port' :=
      match parsed_port with
      | Some n => if (n =? 0)%Z then port else n
      | None => port
      end in
    Py.Ok (mk url type host' port'
             (or_else (Urlparse.username parsed) username)
             (or_else (Urlparse.password parsed) password)
             ProxyStats.new)
  else Py.Ok (mk url type host port username password ProxyStats.new).

(** [__eq__]: two proxies are equal when their URLs are. *)
Definition eqb (p q : t) : bool := String.eqb (url p) (url q).

(** [str(self.host)] in a formatted message. *)
Definition show_host (p : t) : string := default "None" (host p).

End Proxy.

Module ProxyManager.
Local Open Scope string_scope.

Record t : Type := mk {
  max_failures : Z;
  health_check_interval : Q;
  rotation_strategy : string;
  _proxies : list Proxy.t;
  _current_index : Z;
  (** what was sent to [adv_logger], oldest first *)
  logged : list log_entry
}.

Definition set_proxies (m : t) (ps : list Proxy.t) : t :=
  mk (max_failures m) (health_check_interval m) (rotation_strategy m)
     ps (_current_index m) (logged m).

Definition set_index (m : t) (i : Z) : t :=
  mk (max_failures m) (health_check_interval m) (rotation_strategy m)
     (_proxies m) i (logged m).

Definition log (m : t) (e : log_entry) : t :=
  mk (max_failures m) (health_check_interval m) (rotation_strategy m)
     (_proxies m) (_current_index m) (logged m ++ [e]).

(** The [try] block of [add_proxy]. *)
Definition try_add `{Urllib} (m : t) (proxy_url : string) : Py.result (bool * t) :=
  let! parsed := urlparse proxy_url in
  let proxy_type := Str.lower (Urlparse.scheme parsed) in
  if negb (bool_decide (proxy_type ∈ ["http"; "https"; "socks4"; "socks5"])) then
    Py.Ok (false, log m (log_warning ("Unsupported proxy type: " +:+ proxy_type)))
  else
    let! parsed_port := Urlparse.port parsed in
    let port :=
      match parsed_port with
      | Some n => if (n =? 0)%Z then None else Some n
      | None => None
      end in
    let! proxy := Proxy.new proxy_url proxy_type (Urlparse.hostname parsed)
              (default (if String.eqb proxy_type "http" then 80 else 1080)%Z port)
              (Urlparse.username parsed) (Urlparse.password parsed) in
    if negb (existsb (Proxy.eqb proxy) (_proxies m)) then
      Py.Ok (true,
             log (set_proxies m (_proxies m ++ [proxy]))
               (log_info ("Added proxy: " +:+ Proxy.show_host proxy +:+ ":"
                          +:+ pretty (Proxy.port proxy)
                          +:+ " (" +:+ Proxy.type proxy +:+ ")")))
    else Py.Ok (false, m).

(** [ProxyManager.add_proxy]. *)
Definition add_proxy `{Urllib} `{Regex} (m : t) (proxy_url : string) : bool * t :=
  let '(is_valid, result) := InputValidator.validate_proxy_url proxy_url in
  if negb is_valid then
    (false, log m (log_warning ("Invalid proxy URL: " +:+ result)))
  else
    match try_add m proxy_url with
    | Py.Ok r => r
    | Py.Raise e =>
        (false, log m (log_error ("Error adding proxy " +:+ proxy_url +:+ ": "
                                  +:+ Py.exn_message e)))
    end.

(** The loop of [load_from_file] over the lines of the file: the count, the
    manager, and the exception that ended the loop, if one did. *)
Fixpoint load_lines `{Urllib} `{Regex} (m : t) (f : file_lines) (count : Z)
    : Z * t * option Py.exn :=
  match f with
  | Eof => (count, m, None)
  | ReadError e => (count, m, Some e)
  | Line s rest =>
      let line := Str.strip s in
      if bool_decide (line <> "") && negb (Str.startswith "#" line) then
        let '(added, m') := add_proxy m line in
        load_lines m' rest (if added then count + 1 else count)%Z
      else load_lines m rest count
  end.

(** The [except] clauses of [load_from_file]. *)
Definition load_failed (m : t) (filepath : string) (e : Py.exn) : t :=
  match e with
  | Py.FileNotFoundError _ =>
      log m (log_warning ("Proxy file not found: " +:+ filepath))
  | _ =>
      log m (log_error ("Error loading proxies from " +:+ filepath +:+ ": "
                        +:+ Py.exn_message e))
  end.

(** [ProxyManager.load_from_file]. *)
Definition load_from_file `{Urllib} `{Regex} `{FileSystem} (m : t)
    (filepath : string) : Z * t :=
  match open_read filepath with
  | Py.Raise e => (0%Z, load_failed m filepath e)
  | Py.Ok f =>
      match load_lines m f 0 with
      | (count, m', None) =>
          (count, log m' (log_info ("Loaded " +:+ pretty count +:+ " proxies from "
                                    +:+ filepath)))
      | (count, m', Some e) => (count, load_failed m' filepath e)
      end
  end.

(** The lines of a file that [load_from_file] passes to [add_proxy]. *)
Fixpoint candidate_lines (f : file_lines) : list string :=
  match f with
  | Eof | ReadError _ => []
  | Line s rest =>
      let line := Str.strip s in
      if bool_decide (line <> "") && negb (Str.startswith "#" line)
      then line :: candidate_lines rest
      else candidate_lines rest
  end.

(** [record_success] and [record_failure] on the statistics of the proxy they
    are given; [now] is the reading of [time.time()]. *)
Definition succeeded (s : ProxyStats.t) (response_time now : Q) : ProxyStats.t :=
  ProxyStats.mk (ProxyStats.total_requests s + 1)
    (ProxyStats.successful_requests s + 1)
    (ProxyStats.failed_requests s)
    (ProxyStats.total_response_time s + response_time)%Q
    (ProxyStats.last_used s) now (ProxyStats.last_failure s)
    0 true.

Definition failed (max_failures : Z) (s : ProxyStats.t) (now : Q) : ProxyStats.t :=
  let n := (ProxyStats.consecutive_failures s + 1)%Z in
  ProxyStats.mk (ProxyStats.total_requests s + 1)
    (ProxyStats.successful_requests s)
    (ProxyStats.failed_requests s + 1)
    (ProxyStats.total_response_time s)
    (ProxyStats.last_used s) (ProxyStats.last_success s) now
    n (if (max_failures <=? n)%Z then false else ProxyStats.is_healthy s).

(** [ProxyManager.record_success(proxy, response_time)]. The proxy is the
    object at position [i] of the pool: the manager and its callers share
    it. *)
Definition record_success (m : t) (i : nat) (response_time now : Q) : t :=
  set_proxies m
    (alter (fun p => Proxy.set_stats p (succeeded (Proxy.stats p) response_time now))
       i (_proxies m)).

(** [ProxyManager.record_failure(proxy)]. *)
Definition record_failure (m : t) (i : nat) (now : Q) : t :=
  match _proxies m !! i with
  | None => m
  | Some p =>
      let s := failed (max_failures m) (Proxy.stats p) now in
      let m := set_proxies m (<[i := Proxy.set_stats p s]> (_proxies m)) in
      if (max_failures m <=? ProxyStats.consecutive_failures s)%Z then
        log m (log_warning
                 ("Proxy " +:+ Proxy.show_host p +:+ ":" +:+ pretty (Proxy.port p)
                  +:+ " marked unhealthy after "
                  +:+ pretty (ProxyStats.consecutive_failures s)
                  +:+ " consecutive failures"))
      else m
  end.

(** The calls [record_success] and [record_failure] made for one proxy. *)
Inductive outcome : Type :=
| Success (response_time now : Q)
| Failure (now : Q).

Definition record (max_failures : Z) (s : ProxyStats.t) (o : outcome)
    : ProxyStats.t :=
  match o with
  | Success response_time now => succeeded s response_time now
  | Failure now => failed max_failures s now
  end.

Definition record_all (max_failures : Z) (s : ProxyStats.t)
    (os : list outcome) : ProxyStats.t :=
  fold_left (record max_failures) os s.

(** The failures at the end of a history, most recent outcome last. *)
Fixpoint leading_failures (os : list outcome) : nat :=
  match os with
  | Failure _ :: rest => S (leading_failures rest)
  | _ => 0
  end.

Definition trailing_failures (os : list outcome) : nat :=
  leading_failures (rev os).

(** The positions of the pool whose proxy satisfies [f], in order. *)
Fixpoint positions (f : Proxy.t -> bool) (ps : list Proxy.t) (i : nat)
    : list nat :=
  match ps with
  | [] => []
  | p :: rest => if f p then i :: positions f rest (S i) else positions f rest (S i)
  end.

Definition healthy (p : Proxy.t) : bool := ProxyStats.is_healthy (Proxy.stats p).

(** [now - proxy.stats.last_failure > self.health_check_interval]. *)
Definition rested (m : t) (now : Q) (p : Proxy.t) : bool :=
  Py.Qltb (health_check_interval m)
          (now - ProxyStats.last_failure (Proxy.stats p))%Q.

(** The body of the loop that reinstates a proxy. *)
Definition reinstate (m : t) (now : Q) (p : Proxy.t) : Proxy.t :=
  if rested m now p then
    let s := Proxy.stats p in
    Proxy.set_stats p
      (ProxyStats.mk (ProxyStats.total_requests s)
         (ProxyStats.successful_requests s) (ProxyStats.failed_requests s)
         (ProxyStats.total_response_time s) (ProxyStats.last_used s)
         (ProxyStats.last_success s) (ProxyStats.last_failure s) 0 true)
  else p.

(** The key of the strategy [performance],
    [(-success_rate, avg_response_time)], and the order of tuples on it. *)
Definition performance_key (p : Proxy.t) : Q * option Q :=
  ((- ProxyStats.success_rate (Proxy.stats p))%Q,
   ProxyStats.avg_response_time (Proxy.stats p)).

Definition key_lt (a b : Q * option Q) : bool :=
  if Qeq_bool a.1 b.1 then
    match a.2, b.2 with
    | Some x, Some y => Py.Qltb x y
    | Some _, None => true
    | None, _ => false
    end
  else Py.Qltb a.1 b.1.

(** [min(healthy_proxies, key=...)]: the first position of least key. *)
Fixpoint best (ps : list Proxy.t) (candidates : list nat) (current : nat) : nat :=
  match candidates with
  | [] => current
  | i :: rest =>
      match ps !! i, ps !! current with
      | Some p, Some q =>
          if key_lt (performance_key p) (performance_key q)
          then best ps rest i else best ps rest current
      | _, _ => best ps rest current
      end
  end.

(** What one [get_proxy] reads from outside: the clock, twice, and the
    draw of [random.choice]. *)
Record draw : Type := drawn {
  t_check : Q;
  t_used : Q;
  random_index : nat
}.

Definition touch (p : Proxy.t) (now : Q) : Proxy.t :=
  let s := Proxy.stats p in
  Proxy.set_stats p
    (ProxyStats.mk (ProxyStats.total_requests s)
       (ProxyStats.successful_requests s) (ProxyStats.failed_requests s)
       (ProxyStats.total_response_time s) now
       (ProxyStats.last_success s) (ProxyStats.last_failure s)
       (ProxyStats.consecutive_failures s) (ProxyStats.is_healthy s)).

(** The choice of [get_proxy] among the healthy proxies, [first] and
    [others]: the position chosen and the new rotation index. *)
Definition choose (m : t) (ps : list Proxy.t) (first : nat) (others : list nat)
    (d : draw) : nat * Z :=
  let healthy_proxies := first :: others in
  let n := length healthy_proxies in
  if String.eqb (rotation_strategy m) "random" then
    (healthy_proxies !!! (random_index d mod n)%nat, _current_index m)
  else if String.eqb (rotation_strategy m) "performance" then
    (best ps others first, _current_index m)
  else
    let k := ((_current_index m + 1) `mod` Z.of_nat n)%Z in
    (healthy_proxies !!! Z.to_nat k, k).

(** [ProxyManager.get_proxy]: the position in the pool of the proxy
    returned, if one is. *)
Definition get_proxy (m : t) (d : draw) : option nat * t :=
  let healthy_proxies := positions healthy (_proxies m) 0 in
  let '(ps, healthy_proxies) :=
    match healthy_proxies with
    | [] => (map (reinstate m (t_check d)) (_proxies m),
             positions (rested m (t_check d)) (_proxies m) 0)
    | _ => (_proxies m, healthy_proxies)
    end in
  match healthy_proxies with
  | [] => (None, set_proxies m ps)
  | first :: others =>
      let '(i, k) := choose m ps first others d in
      (Some i,
       set_index (set_proxies m (alter (fun p => touch p (t_used d)) i ps)) k)
  end.

(** A pool of two proxies that failed out, one 400 seconds ago and one 50
    seconds ago, seen at time 400 with the default interval of 300. *)
Definition failed_out (url : string) (last_failure : Q) : Proxy.t :=
  Proxy.mk url "http" (Some "proxy.example") 8080 None None
    (ProxyStats.mk 3 0 3 0 0 0 last_failure 3 false).

Definition sample_pool : t :=
  mk 3 300 "round_robin"
     [failed_out "http://proxy.example:8080" 0;
      failed_out "http://proxy.example:8081" 350] 0 [].

(** A run for the examples: [urlparse] knows two URLs and raises on the
    others, every host name matches, and one file exists. *)
Definition sample_urlparse : Urllib :=
  {| urlparse := fun u =>
       if String.eqb u "http://proxy.example:8080" then
         Py.Ok (Urlparse.mk "http" "proxy.example:8080" (Some "proxy.example")
                  (Py.Ok (Some 8080%Z)) None None)
       else if String.eqb u "ftp://proxy.example:21" then
         Py.Ok (Urlparse.mk "ftp" "proxy.example:21" (Some "proxy.example")
                  (Py.Ok (Some 21%Z)) None None)
       else Py.Raise (Py.ValueError "Invalid URL") |}.

Definition sample_regex : Regex :=
  {| re_match := fun _ _ => true;
     re_search_ignorecase := fun _ _ => false;
     re_findall_ignorecase := fun _ _ => [] |}.

Definition sample_files : FileSystem :=
  {| open_read := fun path =>
       if String.eqb path "proxies.txt" then
         Py.Ok (Line "# the pool"
               (Line "   "
               (Line " http://proxy.example:8080 "
               (Line "http://proxy.example:8080"
               (Line "ftp://proxy.example:21"
               (Line "socks5://unknown" Eof))))))
       else Py.Raise (Py.FileNotFoundError "No such file or directory") |}.

Definition empty_pool : t := mk 3 300 "round_robin" [] 0 [].

(** [ProxyManager.add_proxies]. *)
Definition add_proxies `{Urllib} `{Regex} (m : t) (proxy_urls : list string) : t :=
  fold_left (fun m proxy_url => (add_proxy m proxy_url).2) proxy_urls m.

(** [ProxyManager.__init__]; [proxies] is [None] when the argument is left
    out. *)
Definition new `{Urllib} `{Regex} (proxies : option (list string))
    (max_failures : Z) (health_check_interval : Q) (rotation_strategy : string)
    : t :=
  let m := mk max_failures health_check_interval rotation_strategy [] 0 [] in
  match proxies with
  | Some (_ :: _ as proxy_urls) => add_proxies m proxy_urls
  | _ => m
  end.

(** The calls a client makes on a manager during its lifetime. *)
Inductive call : Type :=
| AddProxy (proxy_url : string)
| AddProxies (proxy_urls : list string)
| LoadFromFile (filepath : string)
| GetProxy (d : draw)
| RecordSuccess (i : nat) (response_time now : Q)
| RecordFailure (i : nat) (now : Q).

Definition step `{Urllib} `{Regex} `{FileSystem} (m : t) (c : call) : t :=
  match c with
  | AddProxy proxy_url => (add_proxy m proxy_url).2
  | AddProxies proxy_urls => add_proxies m proxy_urls
  | LoadFromFile filepath => (load_from_file m filepath).2
  | GetProxy d => (get_proxy m d).2
  | RecordSuccess i response_time now => record_success m i response_time now
  | RecordFailure i now => record_failure m i now
  end.

Definition run `{Urllib} `{Regex} `{FileSystem} (m : t) (calls : list call) : t :=
  fold_left step calls m.

(** What a sequence of [get_proxy] calls returns, and the manager after
    them. *)
Fixpoint get_proxies (m : t) (ds : list draw) : list (option nat) * t :=
  match ds with
  | [] => ([], m)
  | d :: rest =>
      let '(r, m') := get_proxy m d in
      let '(rs, m'') := get_proxies m' rest in
      (r :: rs, m'')
  end.

(** The outcomes that are successes. *)
Definition is_success (o : outcome) : bool :=
  match o with
  | Success _ _ => true
  | Failure _ => false
  end.

(** What [m'] keeps of the pool of [m]: the proxies of [m] stay in place,
    URLs stay distinct and types stay among the four schemes. *)
Definition pool_extends (m m' : t) : Prop :=
  map Proxy.url (_proxies m) `prefix_of` map Proxy.url (_proxies m') /\
  (NoDup (map Proxy.url (_proxies m)) -> NoDup (map Proxy.url (_proxies m'))) /\
  (Forall (fun p => Proxy.type p ∈ ["http"; "https"; "socks4"; "socks5"])
     (_proxies m) ->
   Forall (fun p => Proxy.type p ∈ ["http"; "https"; "socks4"; "socks5"])
     (_proxies m')).

(** A pool under the strategy [performance]: two healthy proxies with the
    same success rate, the second one faster. *)
Definition two_speeds : t :=
  mk 3 300 "performance"
     [Proxy.mk "http://a.example:8080" "http" (Some "a.example") 8080 None None
        (ProxyStats.mk 4 2 2 6 0 0 0 0 true);
      Proxy.mk "http://b.example:8080" "http" (Some "b.example") 8080 None None
        (ProxyStats.mk 2 1 1 1 0 0 0 0 true)] 0 [].

(** A pool under round-robin whose second proxy is unhealthy. *)
Definition three_proxies : t :=
  mk 3 300 "round_robin"
     [Proxy.mk "http://a.example:8080" "http" (Some "a.example") 8080 None None
        ProxyStats.new;
      failed_out "http://b.example:8080" 0;
      Proxy.mk "http://c.example:8080" "http" (Some "c.example") 8080 None None
        ProxyStats.new] 0 [].

End ProxyManager.

(** [json.loads]: the values it returns, and the function. *)
#[warnings="-register-all"]
Inductive json : Type :=
| JNull
| JBool (b : bool)
| JNumber (n : Q)
| JString (s : string)
| JArray (items : list json)
| JObject (members : list (string * json)).

Class Json : Type := {
  json_loads : string -> Py.result json
}.

(** [str(headers)] of a dictionary of strings. *)
Class DictStr : Type := {
  str_dict : list (string * string) -> string
}.

(** ** scripts/detection.py *)

Module Detection.
Local Open Scope string_scope.
Local Open Scope list_scope.

(** A dictionary of strings, in insertion order. *)
Definition headers : Type := list (string * string).

(** [key in d] and [d.get(key, default)]. *)
Definition has_key (key : string) (d : headers) : bool :=
  existsb (fun kv => String.eqb kv.1 key) d.

Definition get (key : string) (d : headers) (default : string) : string :=
  match List.find (fun kv => String.eqb kv.1 key) d with
  | Some kv => kv.2
  | None => default
  end.

(** The values kept under [details]. *)
Inductive detail : Type :=
| DStr (s : string)
| DInt (n : Z)
| DBool (b : bool)
| DJson (j : option json).

Record EndpointInfo : Type := mkEndpointInfo {
  url : string;
  endpoint_type : string;
  confidence : Q;
  details : list (string * detail)
}.

(** *** WebSocketDetector *)

Definition ws_patterns : list string :=
  [ "ws://[^\s" +:+ Str.dquote +:+ "\'<>]+";
    "wss://[^\s" +:+ Str.dquote +:+ "\'<>]+";
    "new\s+WebSocket\s*\([" +:+ Str.dquote +:+ "\']([^" +:+ Str.dquote
      +:+ "\']+)[" +:+ Str.dquote +:+ "\']\)";
    "socket\.io";
    "sockjs";
    "Upgrade:\s*websocket" ].

Definition websocket_detect `{Regex} (content : string) (hs : headers)
    (url : string) : list EndpointInfo :=
  (if has_key "Upgrade" hs
      && Str.contains "websocket" (Str.lower (get "Upgrade" hs ""))
   then [mkEndpointInfo url "websocket" (9 # 10)
           [("source", DStr "header"); ("type", DStr "upgrade")]]
   else [])
  ++ flat_map (fun pattern =>
       flat_map (fun m =>
         if bool_decide (m <> "")
            && (Str.contains "ws://" m || Str.contains "wss://" m)
         then [mkEndpointInfo m "websocket" (85 # 100)
                 [("source", DStr "content"); ("pattern", DStr pattern)]]
         else [])
         (re_findall_ignorecase pattern content))
       ws_patterns.

(** *** GraphQLDetector *)

Definition graphql_indicators : list string :=
  [ "graphql"; "GraphQL"; "__schema"; "__type";
    "query {"; "mutation {"; "subscription {";
    "graphiql"; "playground"; "apollo" ].

(** [sum(1 for ind in indicators if ind in content)]. *)
Definition count_in (indicators : list string) (content : string) : Z :=
  Z.of_nat (length (List.filter (fun ind => Str.contains ind content) indicators)).

Definition graphql_detect (content : string) (hs : headers) (url : string)
    : list EndpointInfo :=
  let content_type := get "Content-Type" hs "" in
  let indicator_count := count_in graphql_indicators content in
  (if Str.contains "application/graphql" content_type
   then [mkEndpointInfo url "graphql" (95 # 100) [("source", DStr "content_type")]]
   else [])
  ++ (if (2 <=? indicator_count)%Z
      then [mkEndpointInfo url "graphql"
              (Py.min (9 # 10) ((1 # 2) + inject_Z indicator_count * (1 # 10)))
              [("source", DStr "content"); ("indicator_count", DInt indicator_count)]]
      else [])
  ++ (if Str.contains "__schema" content || Str.contains "__type" content
      then [mkEndpointInfo url "graphql" (95 # 100) [("source", DStr "schema_detected")]]
      else []).

(** *** RESTAPIDetector *)

Definition api_indicators : list string :=
  [ "swagger"; "openapi"; "api-docs"; "REST";
    "application/json"; "endpoints"; "routes";
    Str.dquote +:+ "paths" +:+ Str.dquote +:+ ":";
    Str.dquote +:+ "info" +:+ Str.dquote +:+ ":";
    Str.dquote +:+ "swagger" +:+ Str.dquote +:+ ":";
    Str.dquote +:+ "openapi" +:+ Str.dquote +:+ ":";
    "x-api-key"; "Authorization" ].

(** [key in value] for a value that [json.loads] returned: a key of a
    dictionary, an element of a list, a substring of a string; the other
    values are not containers. *)
Definition json_contains (key : string) (j : json) : Py.result bool :=
  match j with
  | JObject members => Py.Ok (existsb (fun kv => String.eqb kv.1 key) members)
  | JArray items =>
      Py.Ok (existsb (fun x => match x with
                               | JString s => String.eqb s key
                               | _ => false
                               end) items)
  | JString s => Py.Ok (Str.contains key s)
  | _ => Py.Raise (Py.TypeError "argument is not iterable")
  end.

(** [value.get(key)]: only a dictionary has the method. *)
Definition json_get (key : string) (j : json) : Py.result (option json) :=
  match j with
  | JObject members =>
      Py.Ok (snd <$> List.find (fun kv => String.eqb kv.1 key) members)
  | _ => Py.Raise (Py.AttributeError "object has no attribute 'get'")
  end.

(** [bool(value)]. *)
Definition json_truthy (j : option json) : bool :=
  match j with
  | None | Some JNull => false
  | Some (JBool b) => b
  | Some (JNumber n) => negb (Qeq_bool n 0)
  | Some (JString s) => bool_decide (s <> "")
  | Some (JArray items) => bool_decide (items <> [])
  | Some (JObject members) => bool_decide (members <> [])
  end.

(** The body of the [try] of [RESTAPIDetector.detect], after
    [json.loads]. *)
Definition swagger_endpoint (api_spec : json) (url : string)
    : Py.result (list EndpointInfo) :=
  let! has_swagger := json_contains "swagger" api_spec in
  let! has_either := (if has_swagger then Py.Ok true
                else json_contains "openapi" api_spec) in
  if has_either then
    let! swagger := json_get "swagger" api_spec in
    let! version := (if json_truthy swagger then Py.Ok swagger
               else json_get "openapi" api_spec) in
    let! info := json_get "info" api_spec in
    let! title := json_get "title" (default (JObject []) info) in
    Py.Ok [mkEndpointInfo url "rest_api" (95 # 100)
             [("source", DStr "swagger_spec"); ("version", DJson version);
              ("title", DJson (Some (default (JString "Unknown API") title)))]]
  else Py.Ok [].

Definition rest_detect `{Json} `{DictStr} (content : string) (hs : headers)
    (url : string) : Py.result (list EndpointInfo) :=
  let is_swagger :=
    Str.contains (Str.dquote +:+ "swagger" +:+ Str.dquote) content
    || Str.contains (Str.dquote +:+ "openapi" +:+ Str.dquote) content in
  let! spec_endpoints :=
    (if is_swagger then
       match json_loads content with
       | Py.Ok api_spec => swagger_endpoint api_spec url
       | Py.Raise (Py.JSONDecodeError _) => Py.Ok []
       | Py.Raise e => Py.Raise e
       end
     else Py.Ok []) in
  let indicator_count :=
    count_in (map Str.lower api_indicators) (Str.lower content) in
  Py.Ok
    (spec_endpoints
     ++ (if (2 <=? indicator_count)%Z
         then [mkEndpointInfo url "rest_api"
                 (Py.min (85 # 100) ((4 # 10) + inject_Z indicator_count * (1 # 10)))
                 [("source", DStr "content");
                  ("indicator_count", DInt indicator_count)]]
         else [])
     ++ (if Str.contains "x-api-key" (Str.lower (str_dict hs))
            || Str.contains "x-ratelimit" (Str.lower (str_dict hs))
         then [mkEndpointInfo url "rest_api" (7 # 10) [("source", DStr "headers")]]
         else [])).

(** *** SOAPDetector *)

Definition soap_indicators : list string :=
  [ "wsdl:"; "soap:"; "xmlns:soap"; "xmlns:wsdl";
    "soap:Envelope"; "wsdl:definitions"; "targetNamespace";
    "soap:Body"; "portType"; "binding"; "service" ].

Definition soap_detect (content : string) (hs : headers) (url : string)
    : list EndpointInfo :=
  let content_type := get "Content-Type" hs "" in
  (if (Str.contains "text/xml" content_type
       || Str.contains "application/soap+xml" content_type)
      && existsb (fun ind => Str.contains ind content) soap_indicators
   then [mkEndpointInfo url "soap" (9 # 10)
           [("source", DStr "content_type_and_content")]]
   else [])
  ++ (if Str.contains "wsdl:definitions" content
         || Str.contains "<definitions" content
      then [mkEndpointInfo url "soap" (95 # 100)
              [("source", DStr "wsdl_detected"); ("is_wsdl", DBool true)]]
      else [])
  ++ (if Str.contains "soap:Envelope" content
         || Str.contains "SOAP-ENV:Envelope" content
      then [mkEndpointInfo url "soap" (9 # 10) [("source", DStr "soap_envelope")]]
      else []).

(** *** AdvancedDetector *)

(** [detect_all]: the dictionary, as its items in order. *)
Definition detect_all `{Regex} `{Json} `{DictStr} (content : string)
    (hs : headers) (url : string)
    : Py.result (list (string * list EndpointInfo)) :=
  let websocket := websocket_detect content hs url in
  let graphql := graphql_detect content hs url in
  let! rest_api := rest_detect content hs url in
  let soap := soap_detect content hs url in
  Py.Ok [ ("websocket", websocket); ("graphql", graphql);
          ("rest_api", rest_api); ("soap", soap) ].

Definition admin_patterns : list (string * Q) :=
  [ ("role\s*[=:]\s*[" +:+ Str.dquote +:+ "\']?admin", 15 # 100);
    ("permission\s*[=:]\s*[" +:+ Str.dquote +:+ "\']?admin", 15 # 100);
    ("isAdmin\s*[=:]\s*true", 2 # 10);
    ("user_type\s*[=:]\s*[" +:+ Str.dquote +:+ "\']?admin", 15 # 100);
    ("admin_access", 1 # 10) ]%Q.

Definition security_patterns : list (string * string) :=
  [ ("csrf", "CSRF Protection");
    ("x-csrf-token", "CSRF Token");
    ("__RequestVerificationToken", "Anti-Forgery Token");
    ("captcha", "CAPTCHA");
    ("recaptcha", "reCAPTCHA");
    ("two-factor", "Two-Factor Auth");
    ("otp", "OTP Authentication") ].

Record admin_details : Type := mkDetails {
  endpoints_found : list (string * nat);
  admin_indicators : list string;
  security_features : list string
}.

(** The endpoint types that add to the boost: those with an endpoint whose
    URL contains [admin]. *)
Definition admin_endpoint_types (all_endpoints : list (string * list EndpointInfo))
    : list (string * list EndpointInfo) :=
  List.filter (fun te : string * list EndpointInfo =>
      existsb (fun e => Str.contains "admin" (Str.lower (url e))) te.2)
    all_endpoints.

Definition matched_admin_patterns `{Regex} (content : string)
    : list (string * Q) :=
  List.filter (fun pb : string * Q => re_search_ignorecase pb.1 content)
    admin_patterns.

Definition found_security_features `{DictStr} (content : string) (hs : headers)
    : list (string * string) :=
  List.filter (fun pn : string * string =>
      Str.contains (Str.lower pn.1) (Str.lower content)
      || Str.contains (Str.lower pn.1) (Str.lower (str_dict hs)))
    security_patterns.

(** The sum of a list of boosts, added in order from [start]. *)
Definition add_all (start : Q) (boosts : list Q) : Q :=
  fold_left Qplus boosts start.

(** The value of [confidence_boost] before the final [min]. *)
Definition raw_boost `{Regex} `{DictStr}
    (all_endpoints : list (string * list EndpointInfo))
    (content : string) (hs : headers) : Q :=
  let after_endpoints :=
    add_all 0 (map (fun _ => 1 # 10) (admin_endpoint_types all_endpoints)) in
  let after_patterns :=
    add_all after_endpoints (map snd (matched_admin_patterns content)) in
  add_all after_patterns
    (map (fun _ => 2 # 100) (found_security_features content hs)).

(** [AdvancedDetector.analyze_admin_potential]. *)
Definition analyze_admin_potential `{Regex} `{Json} `{DictStr}
    (content title url : string) (hs : headers)
    : Py.result (Q * admin_details) :=
  let! all_endpoints := detect_all content hs url in
  let details :=
    mkDetails
      (map (fun te : string * list EndpointInfo => (te.1, length te.2))
         (List.filter (fun te : string * list EndpointInfo =>
                         bool_decide (te.2 <> [])) all_endpoints))
      (map fst (matched_admin_patterns content))
      (map snd (found_security_features content hs)) in
  Py.Ok (Py.min (raw_boost all_endpoints content hs) (4 # 10), details).

(** A response body that is a JSON document, the string [swagger]. *)
Definition json_string_body : string :=
  Str.dquote +:+ "swagger" +:+ Str.dquote.

(** A run in which no pattern matches, [json.loads] decodes every body to
    the string [swagger], and [str] of every dictionary is empty. *)
Definition no_match : Regex :=
  {| re_match := fun _ _ => false;
     re_search_ignorecase := fun _ _ => false;
     re_findall_ignorecase := fun _ _ => [] |}.

Definition loads_swagger_string : Json :=
  {| json_loads := fun _ => Py.Ok (JString "swagger") |}.

Definition str_empty : DictStr := {| str_dict := fun _ => "" |}.

(** What every endpoint a detector reports satisfies: the type of its
    detector, and a confidence from 0.6 to 0.95. *)
Definition reported_as (type : string) (e : EndpointInfo) : Prop :=
  endpoint_type e = type /\ (6 # 10 <= confidence e)%Q /\
  (confidence e <= 95 # 100)%Q.

End Detection.

(** ** scripts/exporter.py: [_ensure_result_has_required_fields] *)

Module Exporter.
Local Open Scope string_scope.

(** A result is a dictionary, [gmap string json]: its values are Python
    values of the shapes [json] has, [None] being [JNull]. *)

(** [value[key]] for a string key: only a dictionary takes one. *)
Definition json_subscript (key : string) (j : json) : Py.result json :=
  match j with
  | JObject members =>
      match List.find (fun kv => String.eqb kv.1 key) members with
      | Some kv => Py.Ok kv.2
      | None => Py.Raise (Py.KeyError key)
      end
  | _ => Py.Raise (Py.TypeError "indices must be integers")
  end.

Definition required_fields : list (string * json) :=
  [ ("url", JString "Unknown"); ("status_code", JNumber 0);
    ("title", JString "Unknown"); ("confidence", JNumber 0);
    ("found", JBool false); ("has_login_form", JBool false);
    ("technologies", JArray []); ("headers", JObject []);
    ("server", JString "Unknown"); ("forms", JArray []);
    ("inputs", JArray []); ("content_length", JNumber 0) ].

(** [x is None]. *)
Definition is_none (j : json) : bool :=
  match j with
  | JNull => true
  | _ => false
  end.

(** The [if] on the headers: the server field is taken from them. *)
Definition server_from_headers (safe_result : gmap string json)
    : Py.result (gmap string json) :=
  match safe_result !! "headers" with
  | None => Py.Ok safe_result
  | Some headers =>
      let! has_server := Detection.json_contains "Server" headers in
      if has_server then
        let! server := json_subscript "Server" headers in
        Py.Ok (<["server" := server]> safe_result)
      else Py.Ok safe_result
  end.

(** One turn of the loop over [required_fields]. *)
Definition fill_field (safe_result : gmap string json)
    (fd : string * json) : gmap string json :=
  match safe_result !! fd.1 with
  | Some value => if is_none value then <[fd.1 := fd.2]> safe_result
                  else safe_result
  | None => <[fd.1 := fd.2]> safe_result
  end.

(** [ResultExporter._ensure_result_has_required_fields]. *)
Definition _ensure_result_has_required_fields (r : gmap string json)
    : Py.result (gmap string json) :=
  let! safe_result := server_from_headers r in
  Py.Ok (fold_left fill_field required_fields safe_result).

End Exporter.

(** ** scripts/config.py: the detection modes *)

Module Config.
Local Open Scope string_scope.

(** The values of the settings of a mode. *)
Inductive setting : Type :=
| SInt (n : Z)
| SFloat (x : Q)
| SBool (b : bool)
| SStr (s : string).

(** The fields of [Config] that [_setup_detection_modes] reads or writes;
    [MODE_CONFIGS] as the dataclass declares it, a dictionary of
    dictionaries. The calls on the logger are not part of the state. *)
Record t : Type := mk {
  DETECTION_MODE : string;
  MODE_CONFIGS : gmap string (gmap string setting);
  MAX_CONCURRENT_TASKS : setting;
  CONNECTION_TIMEOUT : setting;
  READ_TIMEOUT : setting
}.

(** [default_modes], in the order of its items. *)
Definition default_modes : list (string * list (string * setting)) :=
  [ ("simple",
     [ ("MAX_CONCURRENT_TASKS", SInt 50); ("CONNECTION_TIMEOUT", SInt 3);
       ("READ_TIMEOUT", SInt 10); ("DELAY_BETWEEN_REQUESTS", SFloat 0);
       ("REQUEST_RANDOMIZATION", SBool false);
       ("CONFIDENCE_THRESHOLD", SFloat (1 # 2)); ("MAX_RETRIES", SInt 1);
       ("USE_RANDOM_USER_AGENTS", SBool false);
       ("VERIFY_FOUND_URLS", SBool false); ("MAX_PATHS", SInt 1000);
       ("DESCRIPTION", SStr "Quick scan with minimal requests") ]);
    ("aggressive",
     [ ("MAX_CONCURRENT_TASKS", SInt 100); ("CONNECTION_TIMEOUT", SInt 5);
       ("READ_TIMEOUT", SInt 15); ("DELAY_BETWEEN_REQUESTS", SFloat 0);
       ("REQUEST_RANDOMIZATION", SBool false);
       ("CONFIDENCE_THRESHOLD", SFloat (6 # 10)); ("MAX_RETRIES", SInt 3);
       ("USE_RANDOM_USER_AGENTS", SBool true);
       ("VERIFY_FOUND_URLS", SBool true); ("MAX_PATHS", SInt 10000);
       ("DESCRIPTION", SStr "Thorough scan with maximum coverage") ]);
    ("stealth",
     [ ("MAX_CONCURRENT_TASKS", SInt 10); ("CONNECTION_TIMEOUT", SInt 8);
       ("READ_TIMEOUT", SInt 20); ("DELAY_BETWEEN_REQUESTS", SFloat (3 # 2));
       ("REQUEST_RANDOMIZATION", SBool true);
       ("CONFIDENCE_THRESHOLD", SFloat (7 # 10)); ("MAX_RETRIES", SInt 2);
       ("USE_RANDOM_USER_AGENTS", SBool true);
       ("VERIFY_FOUND_URLS", SBool true); ("MAX_PATHS", SInt 500);
       ("DESCRIPTION", SStr "Slow, careful scan to avoid detection") ]) ].

(** One turn of the inner loop: a key the mode lacks takes the default. *)
Definition fill_key (config : gmap string setting) (kv : string * setting)
    : gmap string setting :=
  match config !! kv.1 with
  | Some _ => config
  | None => <[kv.1 := kv.2]> config
  end.

(** One turn of the outer loop. *)
Definition fill_mode (configs : gmap string (gmap string setting))
    (mc : string * list (string * setting))
    : gmap string (gmap string setting) :=
  match configs !! mc.1 with
  | None => <[mc.1 := list_to_map mc.2]> configs
  | Some config => <[mc.1 := fold_left fill_key mc.2 config]> configs
  end.

(** [MODE_CONFIGS] after the first [if] of [_setup_detection_modes]. *)
Definition merged_modes (configs : gmap string (gmap string setting))
    : gmap string (gmap string setting) :=
  if (size configs =? 0)%nat
  then list_to_map
         (map (fun mc : string * list (string * setting) =>
                 (mc.1, list_to_map mc.2)) default_modes)
  else fold_left fill_mode default_modes configs.

(** [Config._setup_detection_modes]. *)
Definition _setup_detection_modes (c : t) : t :=
  let configs := merged_modes (MODE_CONFIGS c) in
  match configs !! DETECTION_MODE c with
  | Some mode_config =>
      mk (DETECTION_MODE c) configs
         (default (MAX_CONCURRENT_TASKS c) (mode_config !! "MAX_CONCURRENT_TASKS"))
         (default (CONNECTION_TIMEOUT c) (mode_config !! "CONNECTION_TIMEOUT"))
         (default (READ_TIMEOUT c) (mode_config !! "READ_TIMEOUT"))
  | None =>
      mk (DETECTION_MODE c) configs (MAX_CONCURRENT_TASKS c)
         (CONNECTION_TIMEOUT c) (READ_TIMEOUT c)
  end.

(** [Config.get_current_mode_config]. *)
Definition get_current_mode_config (c : t) : gmap string setting :=
  default ∅ (MODE_CONFIGS c !! DETECTION_MODE c).

(** [Config.set_detection_mode]. *)
Definition set_detection_mode (c : t) (mode : string) : t :=
  match MODE_CONFIGS c !! mode with
  | Some _ =>
      _setup_detection_modes
        (mk mode (MODE_CONFIGS c) (MAX_CONCURRENT_TASKS c)
           (CONNECTION_TIMEOUT c) (READ_TIMEOUT c))
  | None => c
  end.

(** The setting of a key in a mode, if it has one. *)
Definition mode_setting (configs : gmap string (gmap string setting))
    (mode key : string) : option setting :=
  configs !! mode ≫= fun config => config !! key.

(** The default of a key in a mode, if it has one. *)
Definition default_setting (mode key : string) : option setting :=
  match List.find (fun mc : string * list (string * setting) =>
                     String.eqb mc.1 mode) default_modes with
  | Some mc =>
      snd <$> List.find (fun kv : string * setting => String.eqb kv.1 key) mc.2
  | None => None
  end.

End Config.

(** * Theorems *)

(** ** Comparisons and clamps *)

Section Clamps.
Local Open Scope Q_scope.

Lemma Qltb_true (a b : Q) : Py.Qltb a b = true <-> a < b.
Proof.
  unfold Py.Qltb. rewrite negb_true_iff, <- not_true_iff_false, Qle_bool_iff.
  split; [apply Qnot_le_lt | apply Qlt_not_le].
Qed.

Lemma Qltb_false (a b : Q) : Py.Qltb a b = false <-> b <= a.
Proof.
  unfold Py.Qltb. rewrite negb_false_iff. apply Qle_bool_iff.
Qed.

Lemma max_cases (a b : Q) :
  (a < b /\ Py.max a b = b) \/ (b <= a /\ Py.max a b = a).
Proof.
  unfold Py.max. destruct (Py.Qltb a b) eqn:E.
  - left. split; [by apply Qltb_true | done].
  - right. split; [by apply Qltb_false | done].
Qed.

Lemma min_cases (a b : Q) :
  (b < a /\ Py.min a b = b) \/ (a <= b /\ Py.min a b = a).
Proof.
  unfold Py.min. destruct (Py.Qltb b a) eqn:E.
  - left. split; [by apply Qltb_true | done].
  - right. split; [by apply Qltb_false | done].
Qed.

Lemma clamp_bounds (lo hi x : Q) :
  lo <= hi -> lo <= Py.max lo (Py.min x hi) /\ Py.max lo (Py.min x hi) <= hi.
Proof.
  intros Hlh.
  destruct (max_cases lo (Py.min x hi)) as [[H ->]|[H ->]];
    destruct (min_cases x hi) as [[H' E]|[H' E]]; rewrite ?E in *; lra.
Qed.

Lemma clamp_id (lo hi x : Q) :
  lo <= x -> x <= hi -> Py.max lo (Py.min x hi) == x.
Proof.
  intros Hl Hh.
  destruct (max_cases lo (Py.min x hi)) as [[H ->]|[H ->]];
    destruct (min_cases x hi) as [[H' E]|[H' E]]; rewrite ?E in *; lra.
Qed.

End Clamps.

(** ** The token bucket *)

Section TokenBucketTheorems.
Import TokenBucket.
Local Open Scope Q_scope.

Lemma new_rate_bounds (r : Q) (cap : Z) (t0 : Q) :
  1 <= rate (new r cap t0) /\ rate (new r cap t0) <= 1000.
Proof. apply (clamp_bounds 1 1000 r). lra. Qed.

Lemma update_rate_bounds (b : t) (r : Q) :
  1 <= rate (update_rate b r) /\ rate (update_rate b r) <= 1000.
Proof. apply (clamp_bounds 1 1000 r). lra. Qed.

Lemma acquire_fields (b : t) (now : Q) (n : Z) :
  rate (acquire b now n).2 = rate b /\
  capacity (acquire b now n).2 = capacity b /\
  last_update (acquire b now n).2 = now.
Proof. unfold acquire. by destruct (Qle_bool _ _). Qed.

(** The refill never exceeds the capacity, and is non-negative when the
    clock has not gone back and the bucket was in range. *)
Lemma refill_range (b : t) (now : Q) :
  within_capacity b -> 0 <= rate b -> last_update b <= now ->
  0 <= refill b now /\ refill b now <= inject_Z (capacity b).
Proof.
  intros [Hlo Hhi] Hrate Hnow. unfold refill.
  assert (0 <= (now - last_update b) * rate b)
    by (apply Qmult_le_0_compat; lra).
  destruct (min_cases (inject_Z (capacity b))
              (tokens b + (now - last_update b) * rate b)) as [[? ->]|[? ->]]; lra.
Qed.

Lemma acquire_within_capacity (b : t) (now : Q) (n : Z) :
  within_capacity b -> 0 <= rate b -> last_update b <= now -> (0 <= n)%Z ->
  within_capacity (acquire b now n).2.
Proof.
  intros Hb Hrate Hnow Hn.
  destruct (refill_range b now Hb Hrate Hnow) as [Hlo Hhi].
  assert (0 <= inject_Z n)
    by (change (inject_Z 0 <= inject_Z n); by rewrite <- Zle_Qle).
  unfold acquire, within_capacity.
  destruct (Qle_bool (inject_Z n) (refill b now)) eqn:E; cbn [tokens capacity snd].
  - apply Qle_bool_iff in E. lra.
  - lra.
Qed.

Lemma trace_within_capacity (calls : list (Q * Z)) : forall b : t,
  within_capacity b -> 0 <= rate b ->
  monotonic (last_update b) calls ->
  Forall (fun c => (0 <= c.2)%Z) calls ->
  Forall within_capacity (trace b calls).
Proof.
  induction calls as [|[now n] rest IH]; intros b Hb Hrate Hmono Hn; simpl.
  - constructor.
  - destruct Hmono as [Hnow Hmono]. inversion Hn as [|? ? Hn0 Hn']; subst.
    destruct (acquire_fields b now n) as (Er & _ & El).
    constructor.
    + by apply acquire_within_capacity.
    + apply IH; [by apply acquire_within_capacity | by rewrite Er | by rewrite El | done].
Qed.

(** C1, as the code has it: a bucket built with a capacity of at least one
    starts with [0 <= tokens <= capacity], and keeps it after every
    [acquire] of a sequence whose token counts are non-negative and whose
    clock readings do not go back (the monotonic clock). *)
Theorem token_bucket_within_capacity (r : Q) (cap : Z) (t0 : Q)
    (calls : list (Q * Z)) :
  (1 <= cap)%Z ->
  monotonic t0 calls ->
  Forall (fun c => (0 <= c.2)%Z) calls ->
  Forall within_capacity (new r cap t0 :: trace (new r cap t0) calls).
Proof.
  intros Hcap Hmono Hn.
  assert (Hnew : within_capacity (new r cap t0)).
  { unfold within_capacity, new; simpl. rewrite Z.max_r by lia.
    split; [change 0 with (inject_Z 0); rewrite <- Zle_Qle; lia | lra]. }
  constructor; [done|].
  apply trace_within_capacity; [done | | done | done].
  destruct (new_rate_bounds r cap t0). lra.
Qed.

(** Three probes, a third of a second apart, on a bucket of rate 2 and
    capacity 3. *)
Lemma token_bucket_within_capacity_witness :
  Forall within_capacity
    (new 2 3 0 :: trace (new 2 3 0) [(1 # 3, 1%Z); (2 # 3, 2%Z); (1, 0%Z)]).
Proof.
  apply (token_bucket_within_capacity 2 3 0).
  - lia.
  - simpl. repeat split; lra.
  - repeat constructor; simpl; lia.
Defined.

(** C1, as stated, fails: a negative token count passes the test
    [tokens >= n] and the deduction adds to the bucket. On a full bucket of
    capacity 10, [acquire(-3)] leaves 13 tokens. *)
Lemma acquire_negative_count_overfills :
  let b := (acquire (new 1 10 0) 0 (-3)).2 in
  tokens b == 13 /\ capacity b = 10%Z /\ ~ within_capacity b.
Proof.
  vm_compute. repeat split; try congruence.
  intros [_ H]. apply H. reflexivity.
Qed.

End TokenBucketTheorems.

(** ** The rate a bucket enforces *)

Section TokenBucketRate.
Import TokenBucket.
Local Open Scope Q_scope.





End TokenBucketRate.

(** ** The adaptive limiter *)

Section AdaptiveRateLimiterTheorems.
Import Constants AdaptiveRateLimiter.
Local Open Scope Q_scope.

Lemma hosts_paired_new_host (l : t) (h : string) (hb : TokenBucket.t)
    (hs : RateLimitStats.t) :
  hosts_paired l ->
  hosts_paired (set_hosts l (<[h := hb]> (host_buckets l))
                            (<[h := hs]> (host_stats l))).
Proof.
  intros H k. cbn. rewrite !lookup_insert.
  case_decide; [eauto | apply H].
Qed.

Lemma hosts_paired_same_hosts (l l' : t) :
  host_buckets l' = host_buckets l -> host_stats l' = host_stats l ->
  hosts_paired l -> hosts_paired l'.
Proof. intros Eb Es H k. rewrite Eb, Es. apply H. Qed.

Lemma ensure_host_lookup (l : t) (h : string) (now : Q) :
  host_buckets (ensure_host l h now) !! h
  = Some (default (new_host_bucket l now) (host_buckets l !! h)).
Proof.
  unfold ensure_host. destruct (host_buckets l !! h) eqn:E; cbn.
  - done.
  - by rewrite lookup_insert_eq.
Qed.

Lemma ensure_host_paired (l : t) (h : string) (now : Q) :
  hosts_paired l ->
  hosts_paired (ensure_host l h now) /\
  is_Some (host_stats (ensure_host l h now) !! h).
Proof.
  intros Hp. unfold ensure_host. destruct (host_buckets l !! h) eqn:E.
  - split; [done | apply Hp; by eexists].
  - split; [by apply hosts_paired_new_host |].
    cbn. rewrite lookup_insert_eq. by eexists.
Qed.

Lemma ensure_host_same_rates (l : t) (h : string) (now : Q) :
  same_rates l (ensure_host l h now).
Proof. unfold ensure_host. by destruct (host_buckets l !! h). Qed.

Lemma acquire_host_preserves (l : t) (h : string) (ts : readings) :
  hosts_paired l ->
  exists granted l',
    acquire_host l h ts = Py.Ok (granted, l') /\
    hosts_paired l' /\ same_rates l l'.
Proof.
  intros Hp. unfold acquire_host.
  destruct (ensure_host_paired l h (t_create ts) Hp) as [Hp' [hs Ehs]].
  pose proof (ensure_host_same_rates l h (t_create ts)) as Hs.
  rewrite ensure_host_lookup.
  set (l1 := ensure_host l h (t_create ts)) in *.
  destruct (TokenBucket.acquire _ (t_host ts) 1) as [[] hb'] eqn:Ehb; cbn [negb].
  - cbn [host_stats set_hosts]. rewrite Ehs.
    eexists _, _. split; [done|]. split; [|exact Hs].
    intros k. cbn. rewrite !lookup_insert.
    case_decide; [eauto | apply Hp'].
  - eexists _, _. split; [done|]. split; [|exact Hs].
    intros k. cbn. rewrite lookup_insert.
    case_decide; [subst; eauto | apply Hp'].
Qed.

(** What [acquire] leaves alone. *)
Lemma acquire_preserves (l : t) (host : option string) (ts : readings) :
  hosts_paired l ->
  exists granted l',
    acquire l host ts = Py.Ok (granted, l') /\
    hosts_paired l' /\ same_rates l l'.
Proof.
  intros Hp. unfold acquire.
  destruct (acquire_fields (bucket l) (t_global ts) 1) as (Er & _ & _).
  cbn [bucket stats set_stats] in *.
  destruct (TokenBucket.acquire (bucket l) (t_global ts) 1) as [[] b] eqn:Eg;
    cbn [negb snd] in *.
  2:{ eexists _, _. split; [done|]. by repeat split. }
  destruct (Py.truthy host) eqn:Eh.
  2:{ eexists _, _. split; [done|]. by repeat split. }
  destruct (acquire_host_preserves
              (set_bucket (set_stats l (bump_total (stats l))) b)
              (default ""%string host) ts) as (g & l' & E & Hp' & Hs); [done|].
  exists g, l'. split; [done|]. split; [done|].
  destruct Hs as (? & ? & ? & Hc). destruct Hc as (? & ? & ? & ? & ?).
  cbn in *. repeat split; congruence.
Qed.

Lemma rate_limit_hit_spec (l : t) (host : option string) (now now_host : Q) :
  hosts_paired l ->
  exists l',
    _handle_rate_limit_hit l host now now_host = Py.Ok l' /\
    hosts_paired l' /\ same_config l l' /\
    current_rate l' = Py.max (min_rate l) (current_rate l * backoff_factor l) /\
    _consecutive_successes l' = 0%Z /\
    TokenBucket.rate (bucket l')
    = Py.max 1 (Py.min (current_rate l') 1000).
Proof.
  intros Hp. unfold _handle_rate_limit_hit.
  cbn [set_stats set_rate set_bucket min_rate current_rate backoff_factor
       host_buckets host_stats bucket stats].
  set (h := default ""%string host).
  destruct (Py.truthy host && bool_decide (is_Some (host_buckets l !! h))) eqn:E.
  - apply andb_true_iff in E as [_ E]. apply bool_decide_eq_true in E.
    destruct (Hp h E) as [hs ->]. destruct E as [hb ->].
    eexists. split; [done|]. split; [|by repeat split].
    intros k. cbn. rewrite !lookup_insert. case_decide; [eauto | apply Hp].
  - eexists. split; [done|]. by repeat split.
Qed.

Lemma handle_success_spec (l : t) (host : option string) :
  let l' := _handle_success l host in
  let n := (_consecutive_successes l + 1)%Z in
  host_buckets l' = host_buckets l /\ host_stats l' = host_stats l /\
  same_config l l' /\
  if (_success_threshold l <=? n)%Z
  then current_rate l' = Py.min (max_rate l) (current_rate l * recovery_factor l) /\
       _consecutive_successes l' = 0%Z /\
       TokenBucket.rate (bucket l') = Py.max 1 (Py.min (current_rate l') 1000)
  else current_rate l' = current_rate l /\ _consecutive_successes l' = n /\
       bucket l' = bucket l.
Proof.
  unfold _handle_success.
  cbn [set_rate _success_threshold _consecutive_successes current_rate max_rate
       recovery_factor].
  by destruct (_success_threshold l <=? _consecutive_successes l + 1)%Z.
Qed.

Lemma on_success_response (l : t) (status : Z) (host : option string)
    (now now_host : Q) :
  (200 <= status < 400)%Z ->
  on_response l status host now now_host = Py.Ok (_handle_success l host).
Proof.
  intros H. unfold on_response, HTTP_TOO_MANY_REQUESTS.
  destruct (Z.eqb_spec status 429); [lia|].
  destruct (Z.leb_spec 200 status), (Z.ltb_spec status 400); done || lia.
Qed.

(** Successes that leave the counter below the threshold change nothing
    but the counter. *)
Lemma successes_below_threshold (calls : list call) : forall l : t,
  Forall success_response calls ->
  (_consecutive_successes l + Z.of_nat (length calls) < _success_threshold l)%Z ->
  exists l',
    run l calls = Py.Ok l' /\ current_rate l' = current_rate l /\
    _consecutive_successes l' = (_consecutive_successes l + Z.of_nat (length calls))%Z.
Proof.
  induction calls as [|c rest IH]; intros l Hs Hlen.
  - exists l. cbn. repeat split; lia.
  - inversion Hs as [|? ? Hc Hrest]; subst.
    destruct c as [| status host now now_host |]; try done.
    cbn [run step]. rewrite on_success_response by done. cbn.
    destruct (handle_success_spec l host) as (_ & _ & Hc' & Hif).
    destruct Hc' as (_ & _ & _ & _ & Ht).
    cbn [length] in Hlen.
    destruct (Z.leb_spec (_success_threshold l) (_consecutive_successes l + 1));
      [lia|].
    destruct Hif as (Er & En & _).
    destruct (IH (_handle_success l host) Hrest) as (l' & E & Er' & En').
    { rewrite Ht, En. lia. }
    exists l'. split; [done|]. rewrite Er', En', Er, En. split; [done|]. lia.
Qed.

(** The success that brings the counter to the threshold raises the rate
    and resets the counter. *)
Lemma successes_reach_threshold (calls : list call) : forall l : t,
  Forall success_response calls ->
  (_consecutive_successes l < _success_threshold l)%Z ->
  (_consecutive_successes l + Z.of_nat (length calls) = _success_threshold l)%Z ->
  exists l',
    run l calls = Py.Ok l' /\
    current_rate l' = Py.min (max_rate l) (current_rate l * recovery_factor l) /\
    _consecutive_successes l' = 0%Z.
Proof.
  induction calls as [|c rest IH]; intros l Hs Hlt Hlen.
  - cbn [length] in Hlen. lia.
  - inversion Hs as [|? ? Hc Hrest]; subst.
    destruct c as [| status host now now_host |]; try done.
    cbn [run step]. rewrite on_success_response by done. cbn.
    destruct (handle_success_spec l host) as (_ & _ & Hc' & Hif).
    destruct Hc' as (Emin & Emax & Ebf & Erf & Ht).
    cbn [length] in Hlen.
    destruct (Z.leb_spec (_success_threshold l) (_consecutive_successes l + 1)).
    + destruct rest; [|cbn [length] in Hlen; lia].
      destruct Hif as (Er & En & _). by eexists.
    + destruct Hif as (Er & En & _).
      destruct (IH (_handle_success l host) Hrest) as (l' & E & Er' & En').
      { rewrite Ht, En. lia. }
      { rewrite Ht, En. lia. }
      exists l'. split; [done|]. by rewrite Er', En', Emax, Erf, Er.
Qed.

(** Every call returns, and keeps the two host dictionaries paired and the
    configuration (the threshold of 50 included) as the constructor set
    it. *)
Lemma step_paired (l : t) (c : call) :
  hosts_paired l ->
  exists l', step l c = Py.Ok l' /\ hosts_paired l' /\
    _success_threshold l' = _success_threshold l.
Proof.
  intros Hp. destruct c as [host ts | status host now now_host | now]; cbn [step].
  - destruct (acquire_preserves l host ts Hp)
      as (g & l' & -> & Hp' & _ & _ & _ & Hc).
    exists l'. cbn. split; [done|]. split; [done|]. apply Hc.
  - unfold on_response.
    destruct (status =? HTTP_TOO_MANY_REQUESTS)%Z.
    + destruct (rate_limit_hit_spec l host now now_host Hp)
        as (l' & -> & Hp' & Hc & _).
      exists l'. split; [done|]. split; [done|]. apply Hc.
    + destruct ((200 <=? status) && (status <? 400))%Z.
      * destruct (handle_success_spec l host) as (Eb & Es & Hc & _).
        exists (_handle_success l host). split; [done|].
        split; [by eapply hosts_paired_same_hosts | apply Hc].
      * by exists l.
  - exists (reset l now). split; [done|]. split; [|done].
    intros k [x Hx]. cbn in Hx. by rewrite lookup_empty in Hx.
Qed.

Lemma run_paired (calls : list call) : forall l : t,
  hosts_paired l ->
  exists l', run l calls = Py.Ok l' /\ hosts_paired l' /\
    _success_threshold l' = _success_threshold l.
Proof.
  induction calls as [|c rest IH]; intros l Hp.
  - by exists l.
  - destruct (step_paired l c Hp) as (l1 & E & Hp1 & Ht1).
    destruct (IH l1 Hp1) as (l' & E' & Hp' & Ht').
    exists l'. cbn [run]. rewrite E. cbn. split; [done|]. split; [done|].
    congruence.
Qed.

(** The states a limiter reaches from its constructor are the states the
    theorems below speak of. *)
Lemma reachable_paired (initial_rate : Q) (burst_size : Z) (mn mx bf rf t0 : Q)
    (calls : list call) :
  exists l',
    run (new initial_rate burst_size mn mx bf rf t0) calls = Py.Ok l' /\
    hosts_paired l' /\ _success_threshold l' = 50%Z.
Proof.
  apply (run_paired calls (new initial_rate burst_size mn mx bf rf t0)).
  intros k [x Hx]. cbn in Hx. by rewrite lookup_empty in Hx.
Qed.

(** C2: a 429 sets the rate to [max(min_rate, current_rate * backoff_factor)]
    and the counter of consecutive successes to zero; with the threshold of
    the constructor (50), the success that makes 50 in a row sets the rate to
    [min(max_rate, current_rate * recovery_factor)] and the counter to zero,
    and the successes before it leave the rate alone. *)
Theorem backoff_on_429_and_recovery_after_50 (l : t) :
  hosts_paired l ->
  _success_threshold l = 50%Z ->
  (forall host now now_host, exists l',
      on_response l 429 host now now_host = Py.Ok l' /\
      current_rate l' = Py.max (min_rate l) (current_rate l * backoff_factor l) /\
      _consecutive_successes l' = 0%Z) /\
  (forall calls, Forall success_response calls ->
      (_consecutive_successes l < 50)%Z ->
      (_consecutive_successes l + Z.of_nat (length calls) = 50)%Z ->
      exists l',
        run l calls = Py.Ok l' /\
        current_rate l' = Py.min (max_rate l) (current_rate l * recovery_factor l) /\
        _consecutive_successes l' = 0%Z) /\
  (forall calls, Forall success_response calls ->
      (_consecutive_successes l + Z.of_nat (length calls) < 50)%Z ->
      exists l',
        run l calls = Py.Ok l' /\ current_rate l' = current_rate l /\
        _consecutive_successes l' = (_consecutive_successes l + Z.of_nat (length calls))%Z).
Proof.
  intros Hp Ht. split; [|split].
  - intros host now now_host.
    destruct (rate_limit_hit_spec l host now now_host Hp)
      as (l' & E & _ & _ & Er & En & _).
    exists l'. by repeat split.
  - intros calls Hs Hlt Hlen.
    apply successes_reach_threshold; [done | lia | lia].
  - intros calls Hs Hlen.
    apply successes_below_threshold; [done | lia].
Qed.

(** The limiter of the default constructor: fifty answers 200 in a row. *)
Lemma backoff_on_429_and_recovery_after_50_witness :
  exists l',
    run (with_defaults 0) (replicate 50 (OnResponse 200 None 0 0)) = Py.Ok l' /\
    current_rate l' = Py.min 100 (inject_Z 50 * (11 # 10)) /\
    _consecutive_successes l' = 0%Z.
Proof.
  assert (Hp : hosts_paired (with_defaults 0)).
  { intros h [x Hx]. cbn in Hx. by rewrite lookup_empty in Hx. }
  destruct (backoff_on_429_and_recovery_after_50 (with_defaults 0) Hp eq_refl)
    as (_ & H & _).
  apply (H (replicate 50 (OnResponse 200 None 0 0))).
  - apply Forall_replicate. cbn. lia.
  - cbn. lia.
  - cbn. lia.
Defined.

(** The invariant behind C8. *)
Lemma step_keeps_rate_in_bounds (l : t) (c : call) :
  hosts_paired l ->
  well_configured (min_rate l) (max_rate l) (backoff_factor l) (recovery_factor l) ->
  rate_in_bounds l -> bucket_rate_in_bounds l ->
  exists l',
    step l c = Py.Ok l' /\ hosts_paired l' /\ same_config l l' /\
    rate_in_bounds l' /\ bucket_rate_in_bounds l'.
Proof.
  intros Hp (Hmn & Hmm & Hbf0 & Hbf1 & Hrf & Hd1 & Hd2) [Hlo Hhi] Hb.
  destruct c as [host ts | status host now now_host | now]; cbn [step].
  - destruct (acquire_preserves l host ts Hp)
      as (g & l' & -> & Hp' & Er & Ebr & _ & Hc).
    exists l'. cbn. split; [done|]. split; [done|]. split; [done|].
    destruct Hc as (Emin & Emax & _).
    unfold rate_in_bounds, bucket_rate_in_bounds. rewrite Er, Ebr, Emin, Emax.
    by split.
  - unfold on_response, HTTP_TOO_MANY_REQUESTS.
    destruct (status =? 429)%Z.
    + destruct (rate_limit_hit_spec l host now now_host Hp)
        as (l' & -> & Hp' & Hc & Er & _ & Ebr).
      exists l'. split; [done|]. split; [done|]. split; [done|].
      destruct Hc as (Emin & Emax & _).
      split.
      * unfold rate_in_bounds. rewrite Er, Emin, Emax.
        assert (current_rate l * backoff_factor l <= current_rate l) by nra.
        destruct (max_cases (min_rate l) (current_rate l * backoff_factor l))
          as [[? ->]|[? ->]]; lra.
      * unfold bucket_rate_in_bounds. rewrite Ebr.
        apply (clamp_bounds 1 1000). lra.
    + destruct ((200 <=? status) && (status <? 400))%Z.
      * destruct (handle_success_spec l host) as (Eb & Es & Hc & Hif).
        exists (_handle_success l host). split; [done|].
        split; [by eapply hosts_paired_same_hosts|]. split; [done|].
        destruct Hc as (Emin & Emax & _).
        unfold rate_in_bounds, bucket_rate_in_bounds. rewrite Emin, Emax.
        destruct (_success_threshold l <=? _consecutive_successes l + 1)%Z.
        -- destruct Hif as (Er & _ & Ebr). rewrite Ebr, Er. split.
           ++ assert (current_rate l <= current_rate l * recovery_factor l) by nra.
              destruct (min_cases (max_rate l) (current_rate l * recovery_factor l))
                as [[? ->]|[? ->]]; lra.
           ++ apply (clamp_bounds 1 1000). lra.
        -- destruct Hif as (Er & _ & Ebr). by rewrite Ebr, Er.
      * exists l. split; [done|]. split; [done|]. split; [by repeat split|].
        split; [by split | done].
  - exists (reset l now). split; [done|].
    split; [intros k [x Hx]; cbn in Hx; by rewrite lookup_empty in Hx|].
    split; [by repeat split|].
    split; [by split|apply new_rate_bounds].
Qed.

Lemma run_keeps_rate_in_bounds (calls : list call) : forall l : t,
  hosts_paired l ->
  well_configured (min_rate l) (max_rate l) (backoff_factor l) (recovery_factor l) ->
  rate_in_bounds l -> bucket_rate_in_bounds l ->
  exists l',
    run l calls = Py.Ok l' /\ rate_in_bounds l' /\ bucket_rate_in_bounds l'.
Proof.
  induction calls as [|c rest IH]; intros l Hp Hw Hr Hb.
  - by exists l.
  - destruct (step_keeps_rate_in_bounds l c Hp Hw Hr Hb)
      as (l1 & E & Hp1 & Hc & Hr1 & Hb1).
    cbn [run]. rewrite E. cbn.
    apply IH; try done.
    destruct Hc as (-> & -> & -> & -> & _). done.
Qed.

(** C8, as the code has it: the constructor stores [initial_rate] as given,
    a 429 clamps from below only and a recovery from above only. So when
    [initial_rate] lies within [[min_rate, max_rate]] and the configuration
    is one where backing off lowers and recovering raises
    ([0 <= min_rate <= max_rate], [0 <= backoff_factor <= 1],
    [1 <= recovery_factor], and the [DEFAULT_RATE_LIMIT] that [reset]
    restores within the bounds), every sequence of calls runs without
    raising and ends with [min_rate <= current_rate <= max_rate], and with
    the rate of the bucket within [[RATE_LIMIT_MIN, RATE_LIMIT_MAX]]. *)
Theorem rate_stays_within_bounds (initial_rate : Q) (burst_size : Z)
    (mn mx bf rf : Q) (t0 : Q) (calls : list call) :
  well_configured mn mx bf rf ->
  mn <= initial_rate -> initial_rate <= mx ->
  exists l',
    run (new initial_rate burst_size mn mx bf rf t0) calls = Py.Ok l' /\
    rate_in_bounds l' /\ bucket_rate_in_bounds l'.
Proof.
  intros Hw Hlo Hhi. apply run_keeps_rate_in_bounds.
  - intros k [x Hx]. cbn in Hx. by rewrite lookup_empty in Hx.
  - done.
  - by split.
  - apply new_rate_bounds.
Qed.

(** The default limiter: a probe, a 429, a success, a reset. *)
Lemma rate_stays_within_bounds_witness :
  exists l',
    run (new 50 10 1 100 (1 # 2) (11 # 10) 0)
        [Acquire (Some "target"%string) (at_times 0 0 0);
         OnResponse 429 (Some "target"%string) 1 1;
         OnResponse 200 None 2 2; Reset 3] = Py.Ok l' /\
    rate_in_bounds l' /\ bucket_rate_in_bounds l'.
Proof.
  apply (rate_stays_within_bounds 50 10 1 100 (1 # 2) (11 # 10) 0).
  - unfold well_configured. repeat split; by vm_compute.
  - lra.
  - lra.
Defined.

(** C8, as stated, fails: the constructor does not clamp. With the default
    bounds, an initial rate of 500 is the current rate. *)
Lemma constructor_keeps_rate_above_max :
  let l := new 500 10 1 100 (1 # 2) (11 # 10) 0 in
  current_rate l == 500 /\ max_rate l == 100 /\ ~ rate_in_bounds l.
Proof.
  cbn. repeat split; try reflexivity.
  unfold rate_in_bounds. cbn. lra.
Qed.

(** C7, as the code has it. On a probe to a host that has no bucket yet and
    that the global bucket admits, [acquire] creates the host's bucket with
    the rate [current_rate / 2] clamped into
    [[RATE_LIMIT_MIN, RATE_LIMIT_MAX]] (half the current rate when that lies
    in the range) and the capacity [max(1, DEFAULT_BURST_SIZE // 2) = 5],
    whatever burst the limiter was built with; the new bucket is full, so
    the probe succeeds when the clock has not gone back. And a probe with a
    host succeeds only if both the global bucket and the host's bucket give
    a token. *)
Theorem first_probe_creates_host_bucket (l : t) (h : string) (ts : readings) :
  h <> ""%string ->
  hosts_paired l ->
  (host_buckets l !! h = None ->
   (TokenBucket.acquire (bucket l) (t_global ts) 1).1 = true ->
   exists granted l' hb,
     acquire l (Some h) ts = Py.Ok (granted, l') /\
     host_buckets l' !! h = Some hb /\
     TokenBucket.rate hb = Py.max 1 (Py.min (current_rate l / 2) 1000) /\
     (2 <= current_rate l -> current_rate l <= 2000 ->
      TokenBucket.rate hb == current_rate l / 2) /\
     TokenBucket.capacity hb = 5%Z /\
     (t_create ts <= t_host ts -> granted = true /\ TokenBucket.tokens hb == 4)) /\
  (forall l', acquire l (Some h) ts = Py.Ok (true, l') ->
     (TokenBucket.acquire (bucket l) (t_global ts) 1).1 = true /\
     (TokenBucket.acquire
        (default (new_host_bucket l (t_create ts)) (host_buckets l !! h))
        (t_host ts) 1).1 = true).
Proof.
  intros Hh Hp.
  assert (Ht : Py.truthy (Some h) = true) by (by destruct h).
  split.
  - intros Hnone Hg. unfold acquire. rewrite Ht.
    change (default ""%string (Some h)) with h.
    cbn [bucket set_stats].
    destruct (TokenBucket.acquire (bucket l) (t_global ts) 1) as [g b] eqn:Eg.
    cbn in Hg. subst g. cbn [negb].
    unfold acquire_host. rewrite ensure_host_lookup.
    cbn [host_buckets set_bucket set_stats]. rewrite Hnone.
    change (default (new_host_bucket ?l ?t) None) with (new_host_bucket l t).
    set (hb0 := new_host_bucket _ _).
    assert (Hs : is_Some (host_stats (ensure_host
        (set_bucket (set_stats l (bump_total (stats l))) b) h (t_create ts)) !! h)).
    { apply ensure_host_paired. done. }
    destruct Hs as [hs Hs].
    destruct (acquire_fields hb0 (t_host ts) 1) as (Er & Ec & _).
    assert (Hfull : t_create ts <= t_host ts ->
              TokenBucket.acquire hb0 (t_host ts) 1
              = (true, TokenBucket.mk (TokenBucket.rate hb0) 5
                         (TokenBucket.refill hb0 (t_host ts) - 1) (t_host ts))
              /\ TokenBucket.refill hb0 (t_host ts) == 5).
    { intros Hmono.
      assert (Hr : TokenBucket.refill hb0 (t_host ts) == 5).
      { unfold TokenBucket.refill.
        destruct (new_rate_bounds (current_rate l / 2) 5 (t_create ts)) as [Hr1 _].
        change (TokenBucket.rate (TokenBucket.new (current_rate l / 2) 5 (t_create ts)))
          with (TokenBucket.rate hb0) in Hr1.
        change (TokenBucket.capacity hb0) with 5%Z.
        change (TokenBucket.tokens hb0) with (inject_Z 5).
        change (TokenBucket.last_update hb0) with (t_create ts).
        assert (0 <= (t_host ts - t_create ts) * TokenBucket.rate hb0)
          by (apply Qmult_le_0_compat; lra).
        destruct (min_cases (inject_Z 5)
          (inject_Z 5 + (t_host ts - t_create ts) * TokenBucket.rate hb0))
          as [[? ->]|[? ->]]; change (inject_Z 5) with 5 in *; lra. }
      split; [|done].
      unfold TokenBucket.acquire.
      assert (Hle : Qle_bool (inject_Z 1) (TokenBucket.refill hb0 (t_host ts)) = true).
      { apply Qle_bool_iff. rewrite Hr. done. }
      by rewrite Hle. }
    destruct (TokenBucket.acquire hb0 (t_host ts) 1) as [g hb'] eqn:Eh.
    cbn [snd] in Er, Ec.
    assert (Hrate : TokenBucket.rate hb'
                    = Py.max 1 (Py.min (current_rate l / 2) 1000))
      by (by rewrite Er).
    assert (Hcap : TokenBucket.capacity hb' = 5%Z) by (by rewrite Ec).
    assert (Hhalf : 2 <= current_rate l -> current_rate l <= 2000 ->
                    TokenBucket.rate hb' == current_rate l / 2).
    { intros H2 H2000. rewrite Hrate. apply clamp_id.
      - apply Qle_shift_div_l; lra.
      - apply Qle_shift_div_r; lra. }
    destruct g; cbn [negb].
    + cbn [host_stats set_hosts]. rewrite Hs.
      eexists true, _, hb'. split; [done|].
      split; [cbn; by rewrite lookup_insert_eq|].
      split; [done|]. split; [done|]. split; [done|].
      intros Hmono. split; [done|].
      destruct (Hfull Hmono) as [E Hr]. injection E as ->. cbn. rewrite Hr. lra.
    + eexists false, _, hb'. split; [done|].
      split; [cbn; by rewrite lookup_insert_eq|].
      split; [done|]. split; [done|]. split; [done|].
      intros Hmono. destruct (Hfull Hmono) as [E _]. discriminate E.
  - intros l'. unfold acquire. rewrite Ht.
    change (default ""%string (Some h)) with h. cbn [bucket set_stats].
    destruct (TokenBucket.acquire (bucket l) (t_global ts) 1) as [[] b] eqn:Eg;
      cbn [negb fst]; [|discriminate].
    unfold acquire_host. rewrite ensure_host_lookup.
    cbn [host_buckets set_bucket set_stats].
    change (new_host_bucket (set_bucket (set_stats l (bump_total (stats l))) b)
              (t_create ts)) with (new_host_bucket l (t_create ts)).
    destruct (TokenBucket.acquire _ (t_host ts) 1) as [[] hb'] eqn:Eh;
      cbn [negb]; [done | discriminate].
Qed.

(** The default limiter (rate 50), first probe of a host. *)
Lemma first_probe_creates_host_bucket_witness :
  exists granted l' hb,
    acquire (with_defaults 0) (Some "example.com"%string) (at_times 0 0 0)
    = Py.Ok (granted, l') /\
    host_buckets l' !! "example.com"%string = Some hb /\
    TokenBucket.rate hb == 25 /\ TokenBucket.capacity hb = 5%Z /\
    granted = true.
Proof.
  assert (Hp : hosts_paired (with_defaults 0)).
  { intros h [x Hx]. cbn in Hx. by rewrite lookup_empty in Hx. }
  destruct (first_probe_creates_host_bucket (with_defaults 0)
              "example.com"%string (at_times 0 0 0) ltac:(done) Hp) as [H _].
  destruct H as (g & l' & hb & E & El & _ & Eh & Ec & Eg);
    [apply lookup_empty | by vm_compute |].
  exists g, l', hb. repeat split; try done.
  - rewrite Eh; [by vm_compute | by vm_compute | by vm_compute].
  - apply Eg. cbn. lra.
Defined.

(** C7, as stated, fails: the burst of a host's bucket is half of
    [DEFAULT_BURST_SIZE], not half of the burst of the limiter. A limiter
    built with a burst of 20 gives its hosts a capacity of 5. *)
Lemma host_bucket_ignores_configured_burst :
  exists l' hb,
    acquire (new 50 20 1 100 (1 # 2) (11 # 10) 0)
      (Some "example.com"%string) (at_times 0 0 0) = Py.Ok (true, l') /\
    TokenBucket.capacity (bucket l') = 20%Z /\
    host_buckets l' !! "example.com"%string = Some hb /\
    TokenBucket.capacity hb = 5%Z.
Proof.
  eexists _, _. split; [by vm_compute|]. split; [done|]. split; by vm_compute.
Qed.

(** C10: when the global bucket gives its token and the host's bucket then
    refuses, [acquire] answers [False] with the token of the global bucket
    spent and the request counted, as a request and as a throttled one. *)
Theorem failed_host_acquire_spends_global_token (l : t) (h : string)
    (ts : readings) (hb : TokenBucket.t) :
  h <> ""%string ->
  host_buckets l !! h = Some hb ->
  (TokenBucket.acquire (bucket l) (t_global ts) 1).1 = true ->
  (TokenBucket.acquire hb (t_host ts) 1).1 = false ->
  exists l',
    acquire l (Some h) ts = Py.Ok (false, l') /\
    TokenBucket.tokens (bucket l')
    = TokenBucket.refill (bucket l) (t_global ts) - 1 /\
    RateLimitStats.total_requests (stats l')
    = (RateLimitStats.total_requests (stats l) + 1)%Z /\
    RateLimitStats.throttled_requests (stats l')
    = (RateLimitStats.throttled_requests (stats l) + 1)%Z.
Proof.
  intros Hh Hb Hg Hrefuse.
  assert (Ht : Py.truthy (Some h) = true) by (by destruct h).
  unfold acquire. rewrite Ht.
  change (default ""%string (Some h)) with h. cbn [bucket set_stats].
  assert (Eb : TokenBucket.acquire (bucket l) (t_global ts) 1
               = (true, TokenBucket.mk (TokenBucket.rate (bucket l))
                          (TokenBucket.capacity (bucket l))
                          (TokenBucket.refill (bucket l) (t_global ts) - 1)
                          (t_global ts))).
  { revert Hg. unfold TokenBucket.acquire.
    by destruct (Qle_bool (inject_Z 1) _). }
  rewrite Eb. cbn [negb].
  unfold acquire_host. rewrite ensure_host_lookup.
  cbn [host_buckets set_bucket set_stats]. rewrite Hb.
  change (default (new_host_bucket _ _) (Some hb)) with hb.
  destruct (TokenBucket.acquire hb (t_host ts) 1) as [g hb'] eqn:Eh.
  cbn in Hrefuse. subst g. cbn [negb].
  eexists. split; [done|].
  unfold ensure_host. cbn [host_buckets set_bucket set_stats]. rewrite Hb.
  by cbn.
Qed.

(** The sixth probe of a host at one instant, on the default limiter. *)
Lemma failed_host_acquire_spends_global_token_witness :
  exists l',
    acquire (after_five_probes "example.com") (Some "example.com"%string)
      (at_times 0 0 0) = Py.Ok (false, l') /\
    TokenBucket.tokens (bucket l') == 4 /\
    RateLimitStats.total_requests (stats l') = 6%Z /\
    RateLimitStats.throttled_requests (stats l') = 1%Z.
Proof.
  destruct (failed_host_acquire_spends_global_token
              (after_five_probes "example.com") "example.com"%string
              (at_times 0 0 0)
              (default (TokenBucket.mk 0 0 0 0)
                 (host_buckets (after_five_probes "example.com")
                  !! "example.com"%string)))
    as (l' & E & Et & En & Eth).
  - done.
  - vm_compute. reflexivity.
  - vm_compute. reflexivity.
  - vm_compute. reflexivity.
  - exists l'. split; [done|]. split; [|split].
    + rewrite Et. vm_compute. reflexivity.
    + rewrite En. vm_compute. reflexivity.
    + rewrite Eth. vm_compute. reflexivity.
Defined.

End AdaptiveRateLimiterTheorems.

(** ** What a limiter keeps true over its lifetime *)

Section RateLimiterInvariants.
Import Constants AdaptiveRateLimiter.
Local Open Scope Q_scope.

(** The result of [acquire], field by field. *)
Lemma acquire_effect (l : t) (host : option string) (ts : readings) :
  hosts_paired l ->
  (forall h, is_Some (host_stats l !! h) -> is_Some (host_buckets l !! h)) ->
  let gg := TokenBucket.acquire (bucket l) (t_global ts) 1 in
  let h := default ""%string host in
  let hb0 := default (new_host_bucket l (t_create ts)) (host_buckets l !! h) in
  let hs0 := default (RateLimitStats.new 0) (host_stats l !! h) in
  let gh := TokenBucket.acquire hb0 (t_host ts) 1 in
  let touched := gg.1 && Py.truthy host in
  let granted := gg.1 && (negb (Py.truthy host) || gh.1) in
  exists l',
    acquire l host ts = Py.Ok (granted, l') /\
    bucket l' = gg.2 /\
    stats l' = (if granted then bump_total (stats l)
                else bump_throttled (bump_total (stats l))) /\
    (forall k, host_buckets l' !! k
               = if touched && bool_decide (k = h) then Some gh.2
                 else host_buckets l !! k) /\
    (forall k, host_stats l' !! k
               = if touched && bool_decide (k = h)
                 then Some (if gh.1 then bump_total hs0 else hs0)
                 else host_stats l !! k) /\
    current_rate l' = current_rate l /\
    _consecutive_successes l' = _consecutive_successes l /\
    same_config l l'.
Proof.
  intros Hp Hq. cbn zeta. unfold acquire. cbn [bucket set_stats].
  destruct (TokenBucket.acquire (bucket l) (t_global ts) 1) as [[] b] eqn:Eg;
    cbn [negb fst snd andb].
  2:{ eexists. split; [done|]. by repeat split. }
  destruct (Py.truthy host) eqn:Eh; cbn [negb orb].
  2:{ eexists. split; [done|]. by repeat split. }
  set (h := default ""%string host).
  unfold acquire_host, ensure_host.
  cbn [host_buckets host_stats set_bucket set_stats].
  destruct (host_buckets l !! h) as [hb|] eqn:Eb.
  - destruct (Hp h) as [hs Ehs]; [by eexists|].
    cbn [host_buckets host_stats set_bucket set_stats]. rewrite Eb, Ehs.
    change (default (new_host_bucket l (t_create ts)) (Some hb)) with hb.
    change (default (RateLimitStats.new 0) (Some hs)) with hs.
    destruct (TokenBucket.acquire hb (t_host ts) 1) as [[] hb'] eqn:Egh;
      cbn [negb fst snd host_stats set_hosts].
    + rewrite Ehs. eexists. split; [done|]. cbn.
      split; [done|]. split; [done|]. split; [|split; [|done]].
      * intros k. rewrite lookup_insert.
        case_bool_decide; case_decide; congruence.
      * intros k. rewrite lookup_insert.
        case_bool_decide; case_decide; congruence.
    + eexists. split; [done|]. cbn.
      split; [done|]. split; [done|]. split; [|split; [|done]].
      * intros k. rewrite lookup_insert.
        case_bool_decide; case_decide; congruence.
      * intros k. case_bool_decide; congruence.
  - assert (Ehs : host_stats l !! h = None).
    { destruct (host_stats l !! h) eqn:E; [|done].
      destruct (Hq h) as [? ?]; [by eexists | congruence]. }
    cbn [host_buckets host_stats set_bucket set_stats set_hosts].
    rewrite lookup_insert_eq, Ehs.
    change (default (new_host_bucket l (t_create ts)) None)
      with (new_host_bucket l (t_create ts)).
    change (default (RateLimitStats.new 0) None) with (RateLimitStats.new 0).
    change (new_host_bucket (set_bucket (set_stats l (bump_total (stats l))) b)
              (t_create ts)) with (new_host_bucket l (t_create ts)).
    destruct (TokenBucket.acquire (new_host_bucket l (t_create ts)) (t_host ts) 1)
      as [[] hb'] eqn:Egh; cbn [negb fst snd host_stats set_hosts].
    + rewrite lookup_insert_eq. eexists. split; [done|]. cbn.
      split; [done|]. split; [done|]. split; [|split; [|done]].
      * intros k. rewrite !lookup_insert.
        case_bool_decide; case_decide; congruence.
      * intros k. rewrite !lookup_insert.
        case_bool_decide; case_decide; congruence.
    + eexists. split; [done|]. cbn.
      split; [done|]. split; [done|]. split; [|split; [|done]].
      * intros k. rewrite !lookup_insert.
        case_bool_decide; case_decide; congruence.
      * intros k. rewrite !lookup_insert.
        case_bool_decide; case_decide; congruence.
Qed.

(** The result of [_handle_rate_limit_hit], field by field. *)
Lemma rate_limit_hit_effect (l : t) (host : option string) (now now_host : Q) :
  hosts_paired l ->
  let new_rate := Py.max (min_rate l) (current_rate l * backoff_factor l) in
  let host_rate := Py.max (min_rate l) (new_rate / 2) in
  let h := default ""%string host in
  let touched := Py.truthy host && bool_decide (is_Some (host_buckets l !! h)) in
  exists l',
    _handle_rate_limit_hit l host now now_host = Py.Ok l' /\
    current_rate l' = new_rate /\
    _consecutive_successes l' = 0%Z /\
    bucket l' = TokenBucket.update_rate (bucket l) new_rate /\
    stats l' = set_stats_rate (record_hit (stats l) now) new_rate /\
    (forall k, host_buckets l' !! k
               = if touched && bool_decide (k = h)
                 then (fun hb => TokenBucket.update_rate hb host_rate)
                        <$> host_buckets l !! k
                 else host_buckets l !! k) /\
    (forall k, host_stats l' !! k
               = if touched && bool_decide (k = h)
                 then (fun hs => set_stats_rate (record_hit hs now_host) host_rate)
                        <$> host_stats l !! k
                 else host_stats l !! k) /\
    same_config l l'.
Proof.
  intros Hp. cbn zeta. unfold _handle_rate_limit_hit.
  cbn [set_stats set_rate set_bucket min_rate current_rate backoff_factor
       host_buckets host_stats bucket stats].
  set (h := default ""%string host).
  destruct (Py.truthy host && bool_decide (is_Some (host_buckets l !! h))) eqn:E.
  - apply andb_true_iff in E as [_ E]. apply bool_decide_eq_true in E.
    destruct (Hp h E) as [hs Ehs]. destruct E as [hb Ehb]. rewrite Ehs, Ehb.
    eexists. split; [done|]. cbn.
    split; [done|]. split; [done|]. split; [done|]. split; [done|].
    split; [|split; [|done]].
    + intros k. rewrite lookup_insert.
      case_bool_decide; case_decide; subst; try congruence. by rewrite Ehb.
    + intros k. rewrite lookup_insert.
      case_bool_decide; case_decide; subst; try congruence. by rewrite Ehs.
  - eexists. split; [done|]. by repeat split.
Qed.

Lemma coherent_new (initial_rate : Q) (burst_size : Z) (mn mx bf rf t0 : Q) :
  coherent (new initial_rate burst_size mn mx bf rf t0).
Proof.
  split; cbn; try done; try lia.
  - intros h [x Hx]. cbn in Hx. by rewrite lookup_empty in Hx.
  - intros h [x Hx]. by rewrite lookup_empty in Hx.
Qed.

Lemma acquires_since_reset_cons (n : Z) (c : call) (rest : list call) :
  acquires_since_reset n (c :: rest)
  = acquires_since_reset (acquires_since_reset n [c]) rest.
Proof. by destruct c. Qed.

Lemma hosts_probed_cons (X : gset string) (c : call) (rest : list call) :
  hosts_probed X (c :: rest) = hosts_probed (hosts_probed X [c]) rest.
Proof. by destruct c as [[h|] ?| |]. Qed.

Lemma hosts_probed_mono (calls : list call) : forall X Y : gset string,
  X ⊆ Y -> hosts_probed X calls ⊆ hosts_probed Y calls.
Proof.
  induction calls as [|c rest IH]; intros X Y HXY; [done|].
  destruct c as [[h|] ?| |]; cbn [hosts_probed]; apply IH;
    [by apply union_mono_l | done | done | done].
Qed.

Lemma host_bucket_shape (l : t) (now : Q) :
  (TokenBucket.capacity (new_host_bucket l now) = 5)%Z /\
  inject_Z RATE_LIMIT_MIN <= TokenBucket.rate (new_host_bucket l now) /\
  TokenBucket.rate (new_host_bucket l now) <= inject_Z RATE_LIMIT_MAX.
Proof.
  split; [done|]. apply (new_rate_bounds (current_rate l / 2)).
Qed.

Lemma acquire_coherent (l : t) (host : option string) (ts : readings) :
  coherent l ->
  exists granted l',
    acquire l host ts = Py.Ok (granted, l') /\ coherent l' /\
    RateLimitStats.total_requests (stats l')
    = (RateLimitStats.total_requests (stats l) + 1)%Z /\
    (forall k, is_Some (host_buckets l' !! k) ->
       is_Some (host_buckets l !! k) \/ host = Some k).
Proof.
  intros [Hp Hq Hr Hb Ht Hn Hth Hhb Hhs].
  destruct (acquire_effect l host ts Hp Hq)
    as (l' & E & Eb & Es & Ehb & Ehs & Ecr & Ecs & Hc).
  cbn zeta in *.
  destruct (acquire_fields (bucket l) (t_global ts) 1) as (Egr & _ & _).
  set (gg := TokenBucket.acquire (bucket l) (t_global ts) 1) in *.
  set (h := default ""%string host) in *.
  set (hb0 := default (new_host_bucket l (t_create ts)) (host_buckets l !! h)) in *.
  set (hs0 := default (RateLimitStats.new 0) (host_stats l !! h)) in *.
  destruct (acquire_fields hb0 (t_host ts) 1) as (Ehr & Ehc & _).
  set (gh := TokenBucket.acquire hb0 (t_host ts) 1) in *.
  set (touched := gg.1 && Py.truthy host) in *.
  set (granted := gg.1 && (negb (Py.truthy host) || gh.1)) in *.
  assert (Hhb0 : (TokenBucket.capacity hb0 = 5)%Z /\
                 inject_Z RATE_LIMIT_MIN <= TokenBucket.rate hb0 /\
                 TokenBucket.rate hb0 <= inject_Z RATE_LIMIT_MAX).
  { unfold hb0. destruct (host_buckets l !! h) as [hb|] eqn:Eh; cbn [default].
    - by apply (Hhb h).
    - apply host_bucket_shape. }
  assert (Hhs0 : (0 <= RateLimitStats.total_requests hs0
                  <= RateLimitStats.total_requests (stats l)
                     - RateLimitStats.throttled_requests (stats l))%Z).
  { unfold hs0. destruct (host_stats l !! h) as [hs|] eqn:Eh; cbn [default].
    - by apply (Hhs h).
    - cbn. lia. }
  assert (Etot : RateLimitStats.total_requests (stats l')
                 = (RateLimitStats.total_requests (stats l) + 1)%Z).
  { rewrite Es. by destruct granted. }
  exists granted, l'. split; [done|]. split; [|split; [done|]].
  - destruct Hc as (_ & _ & _ & _ & Eth).
    split.
    + intros k. rewrite Ehb, Ehs. destruct (touched && bool_decide (k = h)); eauto.
    + intros k. rewrite Ehb, Ehs. destruct (touched && bool_decide (k = h)); eauto.
    + rewrite Es, Ecr. by destruct granted.
    + by rewrite Eb, Egr, Ecr.
    + congruence.
    + by rewrite Ecs.
    + rewrite Es. destruct granted; cbn; lia.
    + intros k hb. rewrite Ehb. destruct (touched && bool_decide (k = h)).
      * intros [= <-]. by rewrite Ehr, Ehc.
      * apply Hhb.
    + intros k hs. rewrite Ehs.
      destruct (touched && bool_decide (k = h)) eqn:Ek.
      * apply andb_true_iff in Ek as [Etch _].
        apply andb_true_iff in Etch as [Eg Ehost].
        assert (Egranted : granted = gh.1).
        { unfold granted. by rewrite Eg, Ehost. }
        intros [= <-]. rewrite Es, Egranted. destruct gh.1; cbn; lia.
      * intros Ek'. specialize (Hhs k hs Ek'). rewrite Es.
        destruct granted; cbn; lia.
  - intros k. rewrite Ehb. destruct (touched && bool_decide (k = h)) eqn:Ek.
    + intros _. right. apply andb_true_iff in Ek as [Etch Ek].
      apply andb_true_iff in Etch as [_ Ehost].
      apply bool_decide_eq_true in Ek. subst k.
      unfold h. by destruct host as [[]|].
    + by left.
Qed.

Lemma rate_limit_hit_coherent (l : t) (host : option string) (now now_host : Q) :
  coherent l ->
  exists l',
    _handle_rate_limit_hit l host now now_host = Py.Ok l' /\ coherent l' /\
    RateLimitStats.total_requests (stats l')
    = RateLimitStats.total_requests (stats l) /\
    (forall k, is_Some (host_buckets l' !! k) -> is_Some (host_buckets l !! k)).
Proof.
  intros [Hp Hq Hr Hb Ht Hn Hth Hhb Hhs].
  destruct (rate_limit_hit_effect l host now now_host Hp)
    as (l' & E & Ecr & Ecs & Eb & Es & Ehb & Ehs & Hc).
  cbn zeta in *.
  set (new_rate := Py.max (min_rate l) (current_rate l * backoff_factor l)) in *.
  set (host_rate := Py.max (min_rate l) (new_rate / 2)) in *.
  set (h := default ""%string host) in *.
  set (touched := Py.truthy host && bool_decide (is_Some (host_buckets l !! h))) in *.
  exists l'. split; [done|]. split; [|split].
  - destruct Hc as (_ & _ & _ & _ & Eth).
    split.
    + intros k. rewrite Ehb, Ehs.
      destruct (touched && bool_decide (k = h)); rewrite ?fmap_is_Some; apply Hp.
    + intros k. rewrite Ehb, Ehs.
      destruct (touched && bool_decide (k = h)); rewrite ?fmap_is_Some; apply Hq.
    + by rewrite Es, Ecr.
    + by rewrite Eb, Ecr.
    + congruence.
    + rewrite Ecs. lia.
    + by rewrite Es.
    + intros k hb. rewrite Ehb. destruct (touched && bool_decide (k = h)).
      * intros Ek. apply fmap_Some in Ek as (hb0 & Ek & ->).
        destruct (Hhb k hb0 Ek) as [Hcap _].
        split; [exact Hcap|]. apply update_rate_bounds.
      * apply Hhb.
    + intros k hs. rewrite Ehs, Es. destruct (touched && bool_decide (k = h)).
      * intros Ek. apply fmap_Some in Ek as (hs0 & Ek & ->).
        specialize (Hhs k hs0 Ek). cbn. lia.
      * intros Ek. specialize (Hhs k hs Ek). cbn. lia.
  - by rewrite Es.
  - intros k. rewrite Ehb.
    destruct (touched && bool_decide (k = h)); rewrite ?fmap_is_Some; done.
Qed.

Lemma handle_success_coherent (l : t) (host : option string) :
  coherent l ->
  coherent (_handle_success l host) /\
  RateLimitStats.total_requests (stats (_handle_success l host))
  = RateLimitStats.total_requests (stats l) /\
  host_buckets (_handle_success l host) = host_buckets l.
Proof.
  intros [Hp Hq Hr Hb Ht Hn Hth Hhb Hhs]. unfold _handle_success.
  cbn [set_rate _success_threshold _consecutive_successes current_rate max_rate
       recovery_factor].
  rewrite Ht.
  destruct (Z.leb_spec 50 (_consecutive_successes l + 1)).
  - split; [|done]. split; cbn; try done; lia.
  - split; [|done]. split; cbn; try done; lia.
Qed.

Lemma reset_coherent (l : t) (now : Q) :
  _success_threshold l = 50%Z -> coherent (reset l now).
Proof.
  intros Ht. split; cbn; try done; try lia.
  - intros h [x Hx]. cbn in Hx. by rewrite lookup_empty in Hx.
  - intros h [x Hx]. by rewrite lookup_empty in Hx.
Qed.

(** Every call returns and keeps the fields coherent; [acquire] counts one
    request, [reset] starts the count again, and a host gets a bucket only
    when [acquire] is called for it. *)
Lemma step_coherent (l : t) (c : call) :
  coherent l ->
  exists l',
    step l c = Py.Ok l' /\ coherent l' /\
    RateLimitStats.total_requests (stats l')
    = acquires_since_reset (RateLimitStats.total_requests (stats l)) [c] /\
    dom (host_buckets l') ⊆ hosts_probed (dom (host_buckets l)) [c].
Proof.
  intros Hl. destruct c as [host ts | status host now now_host | now]; cbn [step].
  - destruct (acquire_coherent l host ts Hl) as (g & l' & -> & Hl' & Et & Hd).
    exists l'. cbn [Py.bind snd]. split; [done|]. split; [done|]. split; [done|].
    intros k Hk. apply elem_of_dom in Hk.
    destruct (Hd k Hk) as [Hk'| ->]; cbn [hosts_probed].
    + apply elem_of_dom in Hk'. destruct host; [|done].
      apply elem_of_union. by right.
    + apply elem_of_union. left. by apply elem_of_singleton.
  - unfold on_response.
    destruct (status =? HTTP_TOO_MANY_REQUESTS)%Z.
    + destruct (rate_limit_hit_coherent l host now now_host Hl)
        as (l' & -> & Hl' & Et & Hd).
      exists l'. split; [done|]. split; [done|]. split; [done|].
      intros k Hk. apply elem_of_dom in Hk. apply elem_of_dom. by apply Hd.
    + destruct ((200 <=? status) && (status <? 400))%Z.
      * destruct (handle_success_coherent l host Hl) as (Hl' & Et & Ed).
        exists (_handle_success l host). split; [done|]. split; [done|].
        split; [done|]. by rewrite Ed.
      * by exists l.
  - exists (reset l now). split; [done|].
    split; [apply reset_coherent, Hl|]. split; [done|]. cbn. by rewrite dom_empty_L.
Qed.

Lemma run_coherent (calls : list call) : forall l : t,
  coherent l ->
  exists l',
    run l calls = Py.Ok l' /\ coherent l' /\
    RateLimitStats.total_requests (stats l')
    = acquires_since_reset (RateLimitStats.total_requests (stats l)) calls /\
    dom (host_buckets l') ⊆ hosts_probed (dom (host_buckets l)) calls.
Proof.
  induction calls as [|c rest IH]; intros l Hl.
  - by exists l.
  - destruct (step_coherent l c Hl) as (l1 & E & Hl1 & Et1 & Hd1).
    destruct (IH l1 Hl1) as (l' & E' & Hl' & Et' & Hd').
    exists l'. cbn [run]. rewrite E. cbn [Py.bind].
    split; [done|]. split; [done|]. split.
    + by rewrite acquires_since_reset_cons, <- Et1.
    + rewrite hosts_probed_cons. etrans; [exact Hd'|].
      by apply hosts_probed_mono.
Qed.

Lemma run_app (calls1 calls2 : list call) : forall l : t,
  run l (calls1 ++ calls2) = let! l' := run l calls1 in run l' calls2.
Proof.
  induction calls1 as [|c rest IH]; intros l; [done|].
  cbn [app run]. destruct (step l c) as [l1|e]; [apply IH | done].
Qed.

Lemma step_same_config (l : t) (c : call) :
  hosts_paired l ->
  exists l', step l c = Py.Ok l' /\ hosts_paired l' /\ same_config l l'.
Proof.
  intros Hp. destruct c as [host ts | status host now now_host | now]; cbn [step].
  - destruct (acquire_preserves l host ts Hp)
      as (g & l' & -> & Hp' & _ & _ & _ & Hc).
    by exists l'.
  - unfold on_response.
    destruct (status =? HTTP_TOO_MANY_REQUESTS)%Z.
    + destruct (rate_limit_hit_spec l host now now_host Hp)
        as (l' & -> & Hp' & Hc & _).
      by exists l'.
    + destruct ((200 <=? status) && (status <? 400))%Z.
      * destruct (handle_success_spec l host) as (Eb & Es & Hc & _).
        exists (_handle_success l host). split; [done|].
        split; [by eapply hosts_paired_same_hosts | done].
      * by exists l.
  - exists (reset l now). split; [done|]. split; [|done].
    intros k [x Hx]. cbn in Hx. by rewrite lookup_empty in Hx.
Qed.

Lemma run_same_config (calls : list call) : forall l : t,
  hosts_paired l ->
  exists l', run l calls = Py.Ok l' /\ same_config l l'.
Proof.
  induction calls as [|c rest IH]; intros l Hp.
  - by exists l.
  - destruct (step_same_config l c Hp) as (l1 & E & Hp1 & Hc1).
    destruct (IH l1 Hp1) as (l' & E' & Hc').
    exists l'. cbn [run]. rewrite E. split; [done|].
    destruct Hc1 as (? & ? & ? & ? & ?), Hc' as (? & ? & ? & ? & ?).
    repeat split; congruence.
Qed.

(** X2: However a limiter was built and used, no call raises, the rate it
    reports in its statistics is its current rate, the rate of its global
    bucket is the current rate clamped to [RATE_LIMIT_MIN, RATE_LIMIT_MAX],
    and the counter of consecutive successes stays below the threshold. *)
Theorem limiter_rates_agree (initial_rate : Q) (burst_size : Z)
    (mn mx bf rf t0 : Q) (calls : list call) :
  exists l',
    run (new initial_rate burst_size mn mx bf rf t0) calls = Py.Ok l' /\
    RateLimitStats.current_rate (stats l') = current_rate l' /\
    TokenBucket.rate (bucket l')
    = Py.max (inject_Z RATE_LIMIT_MIN)
        (Py.min (current_rate l') (inject_Z RATE_LIMIT_MAX)) /\
    (0 <= _consecutive_successes l' < 50)%Z.
Proof.
  destruct (run_coherent calls _
              (coherent_new initial_rate burst_size mn mx bf rf t0))
    as (l' & E & Hl' & _).
  exists l'. split; [done|]. by destruct Hl'.
Qed.

(** X3: The request counters: [total_requests] is the number of [acquire] calls
    since the last [reset], the throttled ones are among them, and a
    host's own count is at most the number of requests let through. *)
Theorem limiter_request_accounting (initial_rate : Q) (burst_size : Z)
    (mn mx bf rf t0 : Q) (calls : list call) :
  exists l',
    run (new initial_rate burst_size mn mx bf rf t0) calls = Py.Ok l' /\
    RateLimitStats.total_requests (stats l') = acquires_since_reset 0 calls /\
    (0 <= RateLimitStats.throttled_requests (stats l')
       <= RateLimitStats.total_requests (stats l'))%Z /\
    forall h hs, host_stats l' !! h = Some hs ->
      (0 <= RateLimitStats.total_requests hs
         <= RateLimitStats.total_requests (stats l')
            - RateLimitStats.throttled_requests (stats l'))%Z.
Proof.
  destruct (run_coherent calls _
              (coherent_new initial_rate burst_size mn mx bf rf t0))
    as (l' & E & Hl' & Et & _).
  exists l'. split; [done|]. split; [exact Et|]. by destruct Hl'.
Qed.

(** X4: The per-host entries: the two dictionaries have the same hosts, all of
    them named in an [acquire] since the last [reset], and every host
    bucket has capacity 5 and a rate within [RATE_LIMIT_MIN, RATE_LIMIT_MAX],
    whatever burst size and rates the limiter was built with. *)
Theorem limiter_host_entries (initial_rate : Q) (burst_size : Z)
    (mn mx bf rf t0 : Q) (calls : list call) :
  exists l',
    run (new initial_rate burst_size mn mx bf rf t0) calls = Py.Ok l' /\
    dom (host_stats l') = dom (host_buckets l') /\
    dom (host_buckets l') ⊆ hosts_probed ∅ calls /\
    forall h hb, host_buckets l' !! h = Some hb ->
      TokenBucket.capacity hb = 5%Z /\
      inject_Z RATE_LIMIT_MIN <= TokenBucket.rate hb /\
      TokenBucket.rate hb <= inject_Z RATE_LIMIT_MAX.
Proof.
  destruct (run_coherent calls _
              (coherent_new initial_rate burst_size mn mx bf rf t0))
    as (l' & E & Hl' & _ & Hd).
  exists l'. split; [done|]. destruct Hl' as [Hp Hq _ _ _ _ _ Hhb _].
  split; [|split; [|exact Hhb]].
  - apply set_eq. intros k. rewrite !elem_of_dom. split; [apply Hq | apply Hp].
  - cbn in Hd. by rewrite dom_empty_L in Hd.
Qed.

(** X5: [reset] after any use gives the limiter the constructor would build
    with the default rate and burst size and the same bounds and factors:
    the initial rate and burst size it was built with are not restored. *)
Theorem reset_restores_defaults (initial_rate : Q) (burst_size : Z)
    (mn mx bf rf t0 : Q) (calls : list call) (now : Q) :
  run (new initial_rate burst_size mn mx bf rf t0) (calls ++ [Reset now])
  = Py.Ok (new (inject_Z DEFAULT_RATE_LIMIT) DEFAULT_BURST_SIZE mn mx bf rf now).
Proof.
  rewrite run_app.
  destruct (run_same_config calls (new initial_rate burst_size mn mx bf rf t0))
    as (l' & -> & Emn & Emx & Ebf & Erf & Eth).
  { intros k [x Hx]. cbn in Hx. by rewrite lookup_empty in Hx. }
  cbn in *. unfold reset, new. by rewrite Emn, Emx, Ebf, Erf, Eth.
Qed.

Lemma wait_for_token_outcome (polls : list (Q * Q)) :
  forall (b : TokenBucket.t) (timeout start_time : Q) (granted : bool)
         (b' : TokenBucket.t),
  TokenBucket.wait_for_token b timeout start_time polls = Some (granted, b') ->
  exists before t_acquire t_check after,
    polls = before ++ (t_acquire, t_check) :: after /\
    Forall (fun p : Q * Q => p.2 - start_time < timeout) before /\
    TokenBucket.acquire (TokenBucket.refused_turns b before) t_acquire 1
    = (granted, b') /\
    (granted = false -> timeout <= t_check - start_time).
Proof.
  induction polls as [|[ta tc] rest IH]; intros b timeout start_time g b' H;
    [done|].
  cbn [TokenBucket.wait_for_token] in H.
  destruct (TokenBucket.acquire b ta 1) as [[] b1] eqn:E.
  - injection H as <- <-. exists [], ta, tc, rest.
    split; [done|]. split; [constructor|]. split; [done|]. done.
  - destruct (Qle_bool timeout (tc - start_time)) eqn:Et.
    + injection H as <- <-. exists [], ta, tc, rest.
      split; [done|]. split; [constructor|]. split; [done|].
      intros _. by apply Qle_bool_iff.
    + destruct (IH b1 timeout start_time g b' H)
        as (before & ta' & tc' & after & -> & Hb & Ea & Hf).
      exists ((ta, tc) :: before), ta', tc', after.
      split; [done|]. split; [|split; [|done]].
      * constructor; [|done]. cbn. apply Qnot_le_lt. intros Hle.
        apply Qle_bool_iff in Hle. congruence.
      * cbn [TokenBucket.refused_turns]. by rewrite E.
Qed.

(** X6: [wait] works on the global bucket alone: the request counters and the
    host entries stay as they were (the host plays no part), the answer is
    that of its last [acquire] on the global bucket, and the answer is
    [False] only at a clock reading [timeout] or more past the start. *)
Theorem wait_takes_global_token_only (l : t) (host : option string)
    (timeout start_time : Q) (polls : list (Q * Q)) (granted : bool) (l' : t) :
  wait l host timeout start_time polls = Some (granted, l') ->
  stats l' = stats l /\ host_buckets l' = host_buckets l /\
  host_stats l' = host_stats l /\ current_rate l' = current_rate l /\
  exists before t_acquire t_check after,
    polls = before ++ (t_acquire, t_check) :: after /\
    Forall (fun p : Q * Q => p.2 - start_time < timeout) before /\
    TokenBucket.acquire (TokenBucket.refused_turns (bucket l) before) t_acquire 1
    = (granted, bucket l') /\
    (granted = false -> timeout <= t_check - start_time).
Proof.
  unfold wait. intros H.
  destruct (TokenBucket.wait_for_token (bucket l) timeout start_time polls)
    as [[g b]|] eqn:E; [|done].
  injection H as <- <-. cbn [set_bucket stats host_buckets host_stats
                             current_rate bucket].
  repeat (split; [done|]).
  by apply wait_for_token_outcome.
Qed.

(** A limiter whose global bucket starts empty: the first poll is refused,
    the second, half a second later, is granted. *)
Lemma wait_takes_global_token_only_witness :
  exists l',
    wait (new 2 0 1 100 (1 # 2) (11 # 10) 0) (Some "example.com"%string) 30 0
      [(0, 0); (1 # 2, 1 # 2)]
    = Some (true, l') /\
    stats l' = stats (new 2 0 1 100 (1 # 2) (11 # 10) 0) /\
    host_buckets l' = host_buckets (new 2 0 1 100 (1 # 2) (11 # 10) 0).
Proof.
  eexists. split; [reflexivity|].
  match goal with
  | |- stats ?l' = stats ?l /\ _ =>
      destruct (wait_takes_global_token_only l (Some "example.com"%string)
                  30 0 [(0, 0); (1 # 2, 1 # 2)] true l' eq_refl)
        as (Hs & Hb & _)
  end.
  split; [exact Hs | exact Hb].
Defined.

End RateLimiterInvariants.

(** ** Path expansion *)

Section PathFuzzerTheorems.
Import PathFuzzer.
Local Open Scope string_scope.

Lemma size_list_to_set_le (l : list string) :
  (size (list_to_set l : gset string) ≤ length l)%nat.
Proof.
  induction l as [|x l IH]; [done|].
  rewrite list_to_set_cons, size_union_alt, size_singleton. cbn.
  assert (size (list_to_set l ∖ {[x]} : gset string)
          ≤ size (list_to_set l : gset string))%nat
    by (by apply subseteq_size, subseteq_difference_l).
  lia.
Qed.

Lemma length_listing `{SetListing} (X : gset string) :
  length (listing X) = size X.
Proof. by rewrite listing_perm. Qed.

Lemma elem_of_listing `{SetListing} (X : gset string) (x : string) :
  x ∈ listing X <-> x ∈ X.
Proof. by rewrite listing_perm, elem_of_elements. Qed.

Lemma length_slice_to {A} (m : Z) (l : list A) :
  (0 <= m)%Z -> (Z.of_nat (length (Str.slice_to m l)) <= m)%Z.
Proof.
  intros Hm. unfold Str.slice_to.
  destruct (Z.leb_spec 0 m); [|lia]. rewrite length_take. lia.
Qed.

Lemma slice_to_all {A} (m : Z) (l : list A) :
  (Z.of_nat (length l) <= m)%Z -> Str.slice_to m l = l.
Proof.
  intros Hm. unfold Str.slice_to.
  destruct (Z.leb_spec 0 m); [|lia]. apply take_ge. lia.
Qed.

(** The length of the result never exceeds a non-negative
    [max_variations_per_path]. *)
Lemma fuzz_path_length `{SetListing} (f : t) (path : string) :
  (0 <= max_variations_per_path f)%Z ->
  (Z.of_nat (length (fuzz_path f path)) <= max_variations_per_path f)%Z.
Proof. apply length_slice_to. Qed.

(** With the default settings [fuzz_path] makes at most twenty additions. *)
Lemma added_with_defaults_length (path : string) :
  (length (added with_defaults path) ≤ 20)%nat.
Proof.
  unfold added.
  destruct (if Str.contains "." _ then _ else _) as [name original_ext].
  change (include_extensions with_defaults) with true.
  change (include_backups with_defaults) with true.
  change (include_case_variations with_defaults) with true.
  change (include_separator_variations with_defaults) with true.
  change (extensions with_defaults) with [".php"; ".html"; ".asp"].
  change (backup_extensions with_defaults) with [".bak"; ".old"].
  destruct original_ext; cbn [flat_map app length]; lia.
Qed.

Lemma fuzz_path_with_defaults `{SetListing} (path : string) :
  fuzz_path with_defaults path = listing (variations with_defaults path).
Proof.
  unfold fuzz_path. apply slice_to_all.
  rewrite length_listing.
  pose proof (size_list_to_set_le (added with_defaults path)).
  pose proof (added_with_defaults_length path).
  unfold variations. cbn. lia.
Qed.

(** C5: with the default settings, the expansion of [admin] contains
    [admin.php], [admin.bak] and [ADMIN]; no expansion is longer than
    [max_variations_per_path] (50); and whatever order the two runs list
    the set in, two calls on one input return the same set of strings. *)
Theorem fuzz_path_with_default_settings :
  (forall L : SetListing,
     "admin.php" ∈ fuzz_path with_defaults "admin" /\
     "admin.bak" ∈ fuzz_path with_defaults "admin" /\
     "ADMIN" ∈ fuzz_path with_defaults "admin") /\
  (forall (L : SetListing) (path : string),
     (Z.of_nat (length (fuzz_path with_defaults path))
      <= max_variations_per_path with_defaults)%Z) /\
  (forall (L1 L2 : SetListing) (path : string),
     (list_to_set (@fuzz_path L1 with_defaults path) : gset string)
     = list_to_set (@fuzz_path L2 with_defaults path)).
Proof.
  split; [|split].
  - intros L. rewrite fuzz_path_with_defaults.
    rewrite !elem_of_listing. unfold variations.
    rewrite !elem_of_list_to_set.
    repeat split; vm_compute; apply list_elem_of_In; cbn; tauto.
  - intros L path. by apply fuzz_path_length.
  - intros L1 L2 path.
    rewrite (@fuzz_path_with_defaults L1), (@fuzz_path_with_defaults L2).
    apply set_eq. intros x.
    by rewrite !elem_of_list_to_set, (@elem_of_listing L1), (@elem_of_listing L2).
Qed.

End PathFuzzerTheorems.

(** ** Path expansion beyond one path, priorities and mutations *)

Section PathFuzzerCoverage.
Import PathFuzzer.
Local Open Scope string_scope.
Local Open Scope list_scope.
Context {L : SetListing}.

Lemma size_union_le (X Y : gset string) : (size (X ∪ Y) ≤ size X + size Y)%nat.
Proof.
  rewrite size_union_alt.
  assert (size (Y ∖ X) ≤ size Y)%nat
    by (by apply subseteq_size, subseteq_difference_l).
  lia.
Qed.

Lemma size_list_to_set_app (l1 l2 : list string) (n1 n2 : nat) :
  (size (list_to_set l1 : gset string) ≤ n1)%nat ->
  (size (list_to_set l2 : gset string) ≤ n2)%nat ->
  (size (list_to_set (l1 ++ l2) : gset string) ≤ n1 + n2)%nat.
Proof.
  intros H1 H2. rewrite list_to_set_app_L.
  pose proof (size_union_le (list_to_set l1) (list_to_set l2)). lia.
Qed.

(** The additions of the extension loop: the same bare name at every turn. *)
Lemma size_extension_additions (g : string -> string) (n : string)
    (exts : list string) :
  (size (list_to_set (flat_map (fun ext => [g ext; n]) exts) : gset string)
   ≤ S (length exts))%nat.
Proof.
  assert (Hsub : (list_to_set (flat_map (fun ext => [g ext; n]) exts) : gset string)
                 ⊆ {[n]} ∪ list_to_set (map g exts)).
  { induction exts as [|e exts IH]; [set_solver|].
    cbn [flat_map app map]. rewrite !list_to_set_cons.
    intros x. rewrite !elem_of_union, !elem_of_singleton.
    intros [->|[->|Hx]]; [right; by left | by left |].
    apply IH in Hx. apply elem_of_union in Hx as [Hx|Hx].
    - left. by apply elem_of_singleton in Hx.
    - right. by right. }
  apply subseteq_size in Hsub.
  pose proof (size_union_le {[n]} (list_to_set (map g exts))) as Hu.
  rewrite size_singleton in Hu.
  pose proof (size_list_to_set_le (map g exts)) as Hm.
  rewrite length_map in Hm. lia.
Qed.

Lemma length_flat_map_le {A B} (g : A -> list B) (k : nat) (l : list A) :
  (forall x, length (g x) ≤ k)%nat ->
  (length (flat_map g l) ≤ k * length l)%nat.
Proof.
  intros Hg. induction l as [|x l IH]; cbn [flat_map length]; [lia|].
  rewrite length_app. specialize (Hg x). lia.
Qed.

Lemma new_extension_lists (depth : Z) (ie ib ic iv : bool) (mx : Z) :
  (length (extensions (new depth ie ib ic iv mx)) ≤ 10)%nat /\
  (length (backup_extensions (new depth ie ib ic iv mx)) ≤ 10)%nat.
Proof.
  unfold new. cbn [extensions backup_extensions].
  destruct (_ =? 1)%Z; [cbn; lia|]. destruct (_ =? 2)%Z; cbn; lia.
Qed.

(** A fuzzer built by the constructor makes at most 49 different
    variations of a path. *)
Lemma size_variations_new (depth : Z) (ie ib ic iv : bool) (mx : Z)
    (path : string) :
  (size (variations (new depth ie ib ic iv mx) path) ≤ 49)%nat.
Proof.
  destruct (new_extension_lists depth ie ib ic iv mx) as [He Hb].
  set (f := new depth ie ib ic iv mx) in *.
  unfold variations, added.
  destruct (if Str.contains "." _ then _ else _) as [name original_ext].
  apply (size_list_to_set_app _ _ 1 48).
  { rewrite list_to_set_singleton, size_singleton. lia. }
  apply (size_list_to_set_app _ _ 11 37).
  { destruct (include_extensions f).
    - etrans; [apply size_extension_additions with
                 (g := fun ext => if (1 <? length _)%nat then _ else _)|]. lia.
    - rewrite list_to_set_nil, size_empty. lia. }
  apply (size_list_to_set_app _ _ 30 7).
  { etrans; [apply size_list_to_set_le|].
    destruct (include_backups f); [|cbn; lia].
    etrans; [apply (length_flat_map_le _ 3)|lia].
    intros x. destruct original_ext; cbn; lia. }
  apply (size_list_to_set_app _ _ 4 3).
  - etrans; [apply size_list_to_set_le|].
    destruct (include_case_variations f); cbn; lia.
  - etrans; [apply size_list_to_set_le|].
    destruct (include_separator_variations f); cbn; lia.
Qed.

(** With 49 or more allowed, nothing is cut. *)
Lemma fuzz_path_uncut (depth : Z) (ie ib ic iv : bool) (mx : Z) (path : string) :
  (49 <= mx)%Z ->
  let f := new depth ie ib ic iv mx in
  fuzz_path f path = listing (variations f path) /\
  path ∈ fuzz_path f path /\
  NoDup (fuzz_path f path) /\
  (length (fuzz_path f path) ≤ 49)%nat.
Proof.
  intros Hmx. cbn zeta.
  pose proof (size_variations_new depth ie ib ic iv mx path) as Hsize.
  set (f := new depth ie ib ic iv mx) in *.
  assert (E : fuzz_path f path = listing (variations f path)).
  { unfold fuzz_path. apply slice_to_all. rewrite length_listing.
    change (max_variations_per_path f) with mx. lia. }
  rewrite E. split; [done|]. split; [|split].
  - apply elem_of_listing. unfold variations, added.
    destruct (if Str.contains "." _ then _ else _) as [name original_ext].
    apply elem_of_list_to_set. by left.
  - rewrite listing_perm. apply NoDup_elements.
  - by rewrite length_listing.
Qed.

(** X12: A fuzzer built by the constructor with [max_variations_per_path] of 49
    or more (the default is 50) never cuts its result, whatever its depth
    and switches: [fuzz_path] returns every variation once, the path it was
    given among them, and at most 49 strings. *)
Theorem fuzz_path_keeps_every_variation (depth : Z) (ie ib ic iv : bool)
    (mx : Z) (path : string) :
  (49 <= mx)%Z ->
  let f := new depth ie ib ic iv mx in
  fuzz_path f path = listing (variations f path) /\
  path ∈ fuzz_path f path /\
  NoDup (fuzz_path f path) /\
  (length (fuzz_path f path) ≤ 49)%nat.
Proof. apply fuzz_path_uncut. Qed.

Lemma fuzz_paths_elem (f : t) (paths : list string) (x : string) :
  x ∈ fuzz_paths f paths <-> exists p, p ∈ paths /\ x ∈ fuzz_path f p.
Proof.
  unfold fuzz_paths. rewrite elem_of_listing.
  assert (H : forall (X : gset string),
            x ∈ fold_left (fun (all_variations : gset string) path =>
                             all_variations ∪ list_to_set (fuzz_path f path))
                  paths X
            <-> x ∈ X \/ exists p, p ∈ paths /\ x ∈ fuzz_path f p).
  { induction paths as [|q paths IH]; intros X; cbn [fold_left].
    - split; [by left|]. intros [?|(p & Hp & _)]; [done|].
      by apply elem_of_nil in Hp.
    - rewrite IH, elem_of_union, elem_of_list_to_set. split.
      + intros [[?|?]|(p & Hp & Hx)]; [by left | right | right].
        * exists q. split; [by left | done].
        * exists p. split; [by right | done].
      + intros [?|(p & Hp & Hx)]; [by left; left|].
        apply elem_of_cons in Hp as [->|Hp]; [left; by right|].
        right. by exists p. }
  rewrite H. split; [|by right]. intros [Hx|?]; [|done].
  by apply elem_of_empty in Hx.
Qed.

(** What [fuzz_paths] returns when nothing is cut. *)
Lemma fuzz_paths_cover (depth : Z) (ie ib ic iv : bool) (mx : Z)
    (paths : list string) :
  (49 <= mx)%Z ->
  let f := new depth ie ib ic iv mx in
  NoDup (fuzz_paths f paths) /\
  (forall p, p ∈ paths -> p ∈ fuzz_paths f paths) /\
  (forall x, x ∈ fuzz_paths f paths ->
     exists p, p ∈ paths /\ x ∈ variations f p) /\
  (length (fuzz_paths f paths) ≤ 49 * length paths)%nat.
Proof.
  intros Hmx. cbn zeta. set (f := new depth ie ib ic iv mx).
  split; [|split; [|split]].
  - unfold fuzz_paths. rewrite listing_perm. apply NoDup_elements.
  - intros p Hp. apply fuzz_paths_elem. exists p. split; [done|].
    by apply (fuzz_path_uncut depth ie ib ic iv mx p).
  - intros x Hx. apply fuzz_paths_elem in Hx as (p & Hp & Hx).
    exists p. split; [done|].
    destruct (fuzz_path_uncut depth ie ib ic iv mx p Hmx)
      as (E & _). fold f in E. rewrite E in Hx. by apply elem_of_listing in Hx.
  - unfold fuzz_paths. rewrite length_listing.
    assert (H : forall (X : gset string),
              (size (fold_left (fun (all_variations : gset string) path =>
                                  all_variations ∪ list_to_set (fuzz_path f path))
                       paths X)
               ≤ size X + 49 * length paths)%nat).
    { induction paths as [|q paths IH]; intros X; cbn [fold_left length]; [lia|].
      etrans; [apply IH|].
      pose proof (size_union_le X (list_to_set (fuzz_path f q))) as Hu.
      pose proof (size_list_to_set_le (fuzz_path f q)) as Hq.
      destruct (fuzz_path_uncut depth ie ib ic iv mx q Hmx)
        as (_ & _ & _ & Hlen). fold f in Hlen. lia. }
    specialize (H ∅). by rewrite size_empty in H.
Qed.

(** X13: [fuzz_paths] with such a fuzzer: the result has no repetition, keeps
    every path it was given, holds nothing but variations of those paths,
    and is at most 49 times as long as the list it was given. *)
Theorem fuzz_paths_covers_inputs (depth : Z) (ie ib ic iv : bool) (mx : Z)
    (paths : list string) :
  (49 <= mx)%Z ->
  let f := new depth ie ib ic iv mx in
  NoDup (fuzz_paths f paths) /\
  (forall p, p ∈ paths -> p ∈ fuzz_paths f paths) /\
  (forall x, x ∈ fuzz_paths f paths ->
     exists p, p ∈ paths /\ x ∈ variations f p) /\
  (length (fuzz_paths f paths) ≤ 49 * length paths)%nat.
Proof. apply fuzz_paths_cover. Qed.

End PathFuzzerCoverage.

Section PathFuzzerCoverageExamples.
Import PathFuzzer.
Local Open Scope string_scope.

(** Depth 3, every switch on, the default limit of 50. *)
Lemma fuzz_path_keeps_every_variation_witness :
  "admin/login.php" ∈ @fuzz_path listing_by_elements
                        (new 3 true true true true 50) "admin/login.php" /\
  (length (@fuzz_path listing_by_elements (new 3 true true true true 50)
             "admin/login.php") ≤ 49)%nat.
Proof.
  destruct (@fuzz_path_keeps_every_variation listing_by_elements
              3 true true true true 50 "admin/login.php")
    as (_ & Hin & _ & Hlen); [lia|].
  by split.
Defined.

(** Two paths at depth 2. *)
Lemma fuzz_paths_covers_inputs_witness :
  "admin" ∈ @fuzz_paths listing_by_elements (new 2 true true true true 50)
              ["admin"; "cp/login"] /\
  (length (@fuzz_paths listing_by_elements (new 2 true true true true 50)
             ["admin"; "cp/login"]) ≤ 49 * 2)%nat.
Proof.
  destruct (@fuzz_paths_covers_inputs listing_by_elements
              2 true true true true 50 ["admin"; "cp/login"])
    as (_ & Hin & _ & Hlen); [lia|].
  split; [apply Hin; by left | exact Hlen].
Defined.

End PathFuzzerCoverageExamples.

Section PrioritizeTheorems.
Import Constants PathFuzzer.
Local Open Scope string_scope.
Local Open Scope list_scope.

Lemma prefix_app (sub b : string) : String.prefix sub (sub +:+ b) = true.
Proof.
  induction sub as [|c sub IH]; simpl; [by destruct b|].
  destruct (ascii_dec c c); [done | congruence].
Qed.

Lemma contains_prefix (sub s : string) :
  String.prefix sub s = true -> Str.contains sub s = true.
Proof. intros H. destruct s; cbn [Str.contains]; by rewrite H. Qed.

Lemma contains_app (a sub b : string) :
  Str.contains sub (a +:+ (sub +:+ b)) = true.
Proof.
  induction a as [|c a IH].
  - change ("" +:+ (sub +:+ b)) with (sub +:+ b).
    apply contains_prefix, prefix_app.
  - change (String c a +:+ (sub +:+ b)) with (String c (a +:+ (sub +:+ b))).
    cbn [Str.contains]. rewrite IH. apply orb_true_r.
Qed.

Lemma map_chars_app (f : ascii -> ascii) (a b : string) :
  Str.map_chars f (a +:+ b) = Str.map_chars f a +:+ Str.map_chars f b.
Proof.
  induction a as [|c a IH]; [done|].
  change (String (f c) (Str.map_chars f (a +:+ b))
          = String (f c) (Str.map_chars f a +:+ Str.map_chars f b)).
  by rewrite IH.
Qed.

Lemma string_app_assoc (a b c : string) : (a +:+ b) +:+ c = a +:+ (b +:+ c).
Proof.
  induction a as [|x a IH]; [done|].
  change (String x ((a +:+ b) +:+ c) = String x (a +:+ (b +:+ c))).
  by rewrite IH.
Qed.

Lemma string_app_nil_r (a : string) : a +:+ "" = a.
Proof.
  induction a as [|x a IH]; [done|].
  change (String x (a +:+ "") = String x a). by rewrite IH.
Qed.

Lemma split_go_nonempty (sep : ascii) (s : string) : forall cur,
  Str.split_go sep cur s <> [].
Proof.
  induction s as [|c s IH]; intros cur; cbn; [done|].
  destruct (Ascii.eqb c sep); [done | apply IH].
Qed.

Lemma rev_app_app (s1 s2 s3 : string) :
  String.rev_app s1 s2 +:+ s3 = String.rev_app s1 (s2 +:+ s3).
Proof.
  revert s2. induction s1 as [|c s1 IH]; intros s2; [done|].
  cbn [String.rev_app]. by rewrite IH.
Qed.

Lemma rev_cons_app (c : ascii) (cur s : string) :
  String.rev (String c cur) +:+ s = String.rev cur +:+ String c s.
Proof. unfold String.rev. cbn [String.rev_app]. by rewrite !rev_app_app. Qed.

(** The last piece of a split is the end of the string, the first its
    beginning. *)
Lemma split_go_last (sep : ascii) (s : string) : forall cur d,
  exists x, String.rev cur +:+ s = x +:+ List.last (Str.split_go sep cur s) d.
Proof.
  induction s as [|c s IH]; intros cur d; cbn [Str.split_go].
  - exists "". by rewrite string_app_nil_r.
  - destruct (Ascii.eqb c sep).
    + destruct (IH "" d) as [x Hx].
      change (String.rev "" +:+ s) with s in Hx.
      exists (String.rev cur +:+ String c x).
      pose proof (split_go_nonempty sep s "") as Hne.
      destruct (Str.split_go sep "" s) as [|p ps] eqn:E; [done|].
      change (List.last (String.rev cur :: p :: ps) d) with (List.last (p :: ps) d).
      rewrite string_app_assoc.
      change (String c x +:+ List.last (p :: ps) d)
        with (String c (x +:+ List.last (p :: ps) d)).
      by rewrite Hx.
    + destruct (IH (String c cur) d) as [x Hx]. exists x.
      by rewrite <- Hx, rev_cons_app.
Qed.

Lemma split_go_hd (sep : ascii) (s : string) : forall cur d,
  exists y, String.rev cur +:+ s = hd d (Str.split_go sep cur s) +:+ y.
Proof.
  induction s as [|c s IH]; intros cur d; cbn [Str.split_go].
  - by exists "".
  - destruct (Ascii.eqb c sep).
    + by exists (String c s).
    + destruct (IH (String c cur) d) as [y Hy]. exists y.
      by rewrite <- Hy, rev_cons_app.
Qed.

Lemma basename_in_path (path : string) :
  exists x y,
    path = x +:+ (hd "" (Str.split "." (List.last (Str.split "/" path) "")) +:+ y).
Proof.
  destruct (split_go_last "/" path "" "") as [x Hx].
  destruct (split_go_hd "." (List.last (Str.split "/" path) "") "" "") as [y Hy].
  change (String.rev "" +:+ path) with path in Hx.
  change (String.rev "" +:+ List.last (Str.split "/" path) "")
    with (List.last (Str.split "/" path) "") in Hy.
  exists x, y. unfold Str.split in *. by rewrite <- Hy.
Qed.

Lemma keyword_score_bounds (path_lower : string) (keywords : list string) :
  forall start : Z,
    let score :=
      fold_left (fun score keyword =>
                   if Str.contains keyword path_lower then score + 10 else score)%Z
        keywords start in
    (start <= score)%Z /\
    (existsb (fun keyword => Str.contains keyword path_lower) keywords = true ->
     (start + 10 <= score)%Z) /\
    (existsb (fun keyword => Str.contains keyword path_lower) keywords = false ->
     score = start).
Proof.
  induction keywords as [|k ks IH]; intros start; cbn zeta; cbn [fold_left existsb].
  - split; [lia|]. split; [done | done].
  - destruct (Str.contains k path_lower); cbn [orb].
    + destruct (IH (start + 10)%Z) as (H1 & _ & _). cbn zeta in H1.
      split; [lia|]. split; [intros _; lia | done].
    + destruct (IH start) as (H1 & H2 & H3). by split.
Qed.

(** A path whose base name is one of the four names has a keyword. *)
Lemma basename_has_keyword (path : string) :
  Str.lower (hd "" (Str.split "." (List.last (Str.split "/" path) "")))
  ∈ ["admin"; "administrator"; "dashboard"; "login"] ->
  has_priority_keyword path = true.
Proof.
  intros Hin. destruct (basename_in_path path) as (x & y & E).
  set (basename := hd "" _) in *.
  assert (Hc : Str.contains (Str.lower basename) (Str.lower path) = true).
  { rewrite E at 1. unfold Str.lower. rewrite !map_chars_app. apply contains_app. }
  unfold has_priority_keyword, PRIORITY_PATH_KEYWORDS.
  cbn [existsb].
  repeat (apply elem_of_cons in Hin as [Hin|Hin];
          [rewrite Hin in Hc; rewrite Hc; by rewrite ?orb_true_r|]).
  by apply elem_of_nil in Hin.
Qed.

(** A path with a keyword scores 5 or more, a path without one 3 or less. *)
Lemma score_path_keyword (path : string) :
  if has_priority_keyword path then (5 <= score_path path)%Z
  else (score_path path <= 3)%Z.
Proof.
  pose proof (basename_has_keyword path) as Hb.
  unfold score_path, has_priority_keyword in *.
  destruct (keyword_score_bounds (Str.lower path) PRIORITY_PATH_KEYWORDS 0)
    as (H0 & Hk & Hn). cbn zeta in *.
  set (score := fold_left _ PRIORITY_PATH_KEYWORDS 0%Z) in *.
  destruct (existsb _ PRIORITY_PATH_KEYWORDS) eqn:Ek.
  - specialize (Hk eq_refl).
    destruct (bool_decide _), (50 <? String.length path)%nat,
      (Str.endswith ".php" path || Str.endswith ".aspx" path); lia.
  - specialize (Hn eq_refl).
    rewrite bool_decide_eq_false_2 by (intros Hin; by specialize (Hb Hin)).
    destruct (50 <? String.length path)%nat,
      (Str.endswith ".php" path || Str.endswith ".aspx" path); lia.
Qed.

Lemma insert_by_perm {A} (key : A -> Z) (x : A) (l : list A) :
  Py.insert_by key x l ≡ₚ x :: l.
Proof.
  induction l as [|y l IH]; cbn [Py.insert_by]; [done|].
  destruct (key x <? key y)%Z; [|done].
  rewrite IH. apply Permutation_swap.
Qed.

Lemma sorted_reverse_perm {A} (key : A -> Z) (l : list A) :
  Py.sorted_reverse key l ≡ₚ l.
Proof.
  induction l as [|x l IH]; [done|].
  cbn [Py.sorted_reverse foldr]. rewrite insert_by_perm. by f_equiv.
Qed.

Lemma insert_by_sorted {A} (key : A -> Z) (x : A) (l : list A) :
  StronglySorted (fun a b => (key b <= key a)%Z) l ->
  StronglySorted (fun a b => (key b <= key a)%Z) (Py.insert_by key x l).
Proof.
  induction 1 as [|y l Hs IH Hy]; cbn [Py.insert_by].
  - repeat constructor.
  - destruct (Z.ltb_spec (key x) (key y)).
    + constructor; [done|].
      rewrite insert_by_perm. constructor; [lia | done].
    + constructor; [by constructor|].
      constructor; [done|].
      eapply Forall_impl; [exact Hy|]. cbn. intros z Hz. lia.
Qed.

Lemma sorted_reverse_sorted {A} (key : A -> Z) (l : list A) :
  StronglySorted (fun a b => (key b <= key a)%Z) (Py.sorted_reverse key l).
Proof.
  induction l as [|x l IH]; [constructor|].
  by apply insert_by_sorted.
Qed.

(** X14: [prioritize_paths] returns the paths it was given, in an order in
    which the score never rises, and with every path that has one of
    [PRIORITY_PATH_KEYWORDS] in it (in any case) before every path that
    has none. *)
Theorem prioritize_paths_keywords_first (paths : list string) :
  prioritize_paths paths ≡ₚ paths /\
  StronglySorted (fun p q => (score_path q <= score_path p)%Z)
    (prioritize_paths paths) /\
  exists front back,
    prioritize_paths paths = front ++ back /\
    Forall (fun p => has_priority_keyword p = true) front /\
    Forall (fun p => has_priority_keyword p = false) back.
Proof.
  split; [apply sorted_reverse_perm|].
  pose proof (sorted_reverse_sorted score_path paths) as Hs.
  split; [exact Hs|].
  unfold prioritize_paths. induction Hs as [|p l Hs IH Hp].
  - by exists [], [].
  - destruct IH as (front & back & E & Hf & Hb).
    pose proof (score_path_keyword p) as Hscore.
    destruct (has_priority_keyword p) eqn:Ep.
    + exists (p :: front), back. rewrite E. by repeat constructor.
    + exists [], (p :: l). split; [done|]. split; [constructor|].
      constructor; [done|].
      eapply Forall_impl; [exact Hp|]. cbn beta. intros q Hq.
      pose proof (score_path_keyword q) as Hsq.
      destruct (has_priority_keyword q); [lia | done].
Qed.

End PrioritizeTheorems.

Section WordlistMutatorTheorems.
Import WordlistMutator.
Local Open Scope string_scope.
Local Open Scope list_scope.
Context {L : SetListing}.

Lemma length_string_app (a b : string) :
  String.length (a +:+ b) = (String.length a + String.length b)%nat.
Proof.
  induction a as [|c a IH]; [done|].
  change (S (String.length (a +:+ b)) = S (String.length a + String.length b)).
  by rewrite IH.
Qed.

(** A character in front of a word gives the word followed by a suffix
    only when the suffix is that character. *)
Lemma cons_eq_app (w : string) : forall (c : ascii) (s : string),
  String c w = w +:+ s -> s = String c "".
Proof.
  induction w as [|a w IH]; intros c s E.
  - symmetry. exact E.
  - change (String c (String a w) = String a (w +:+ s)) in E.
    injection E as -> E. by apply IH.
Qed.

Lemma eleven_NoDup (word : string) : NoDup (eleven word).
Proof.
  assert (Hsuf : forall s1 s2, word +:+ s1 = word +:+ s2 -> s1 = s2).
  { intros s1 s2. apply (inj (String.app word)). }
  assert (Hself : forall s, word = word +:+ s -> s = "").
  { intros s E. apply (f_equal String.length) in E.
    rewrite length_string_app in E. destruct s; [done | cbn in E; lia]. }
  assert (Hpre : forall c, String c word <> word).
  { intros c E. apply (f_equal String.length) in E. cbn in E. lia. }
  unfold eleven.
  change ("_" +:+ word) with (String "_" word).
  change ("-" +:+ word) with (String "-" word).
  change ("." +:+ word) with (String "." word).
  repeat (apply NoDup_cons; split;
    [ rewrite ?not_elem_of_cons; repeat split;
      try (by apply not_elem_of_nil);
      intros E;
      first
        [ by (apply Hself in E)
        | by (symmetry in E; apply Hself in E)
        | by (apply Hsuf in E)
        | by (apply cons_eq_app in E)
        | by (symmetry in E; apply cons_eq_app in E)
        | by (apply Hpre in E)
        | by (symmetry in E; apply Hpre in E)
        | by (injection E) ]
    | ]).
  apply NoDup_nil_2.
Qed.

Lemma eleven_added (word : string) : eleven word ⊆ added word.
Proof.
  intros x Hx. unfold added. unfold eleven in Hx.
  apply elem_of_cons in Hx as [->|Hx]; [by left|].
  right. apply elem_of_app. right.
  change (map (fun i : Z => word +:+ pretty i) [1; 2; 3]%Z)
    with [word +:+ "1"; word +:+ "2"; word +:+ "3"].
  cbn [map app].
  change ("_" +:+ word) with (String "_" word) in *.
  change ("-" +:+ word) with (String "-" word) in *.
  change ("." +:+ word) with (String "." word) in *.
  repeat (apply elem_of_cons in Hx as [->|Hx];
          [rewrite !elem_of_cons; tauto|]).
  by apply elem_of_nil in Hx.
Qed.

Lemma size_mutations (word : string) :
  (11 ≤ size (list_to_set (added word) : gset string))%nat.
Proof.
  assert (Hsub : (list_to_set (eleven word) : gset string)
                 ⊆ list_to_set (added word)).
  { intros x. rewrite !elem_of_list_to_set. apply eleven_added. }
  apply subseteq_size in Hsub.
  by rewrite (size_list_to_set _ (eleven_NoDup word)) in Hsub.
Qed.

(** X15: [mutate] is always cut: a word has at least eleven different
    mutations, so for [max_mutations] from 0 to 11 (the default is 10) the
    result has exactly [max_mutations] strings, all different and all
    mutations of the word. *)
Theorem mutate_returns_max_mutations (m : t) (word : string) :
  (0 <= max_mutations m <= 11)%Z ->
  Z.of_nat (length (mutate m word)) = max_mutations m /\
  NoDup (mutate m word) /\
  (forall x, x ∈ mutate m word -> x ∈ added word).
Proof.
  intros Hm. pose proof (size_mutations word) as Hsize.
  unfold mutate, Str.slice_to.
  destruct (Z.leb_spec 0 (max_mutations m)); [|lia].
  split; [|split].
  - rewrite length_take, length_listing. lia.
  - eapply sublist_NoDup; [|apply sublist_take].
    rewrite listing_perm. apply NoDup_elements.
  - intros x Hx.
    assert (Hin : x ∈ listing (list_to_set (added word)))
      by (eapply elem_of_sublist; [exact Hx | apply sublist_take]).
    apply elem_of_listing in Hin. by apply elem_of_list_to_set in Hin.
Qed.

End WordlistMutatorTheorems.

Section WordlistMutatorExamples.
Import WordlistMutator.
Local Open Scope string_scope.

(** The default mutator returns ten mutations of [admin]. *)
Lemma mutate_returns_max_mutations_witness :
  Z.of_nat (length (@mutate listing_by_elements with_defaults "admin")) = 10%Z.
Proof.
  apply (@mutate_returns_max_mutations listing_by_elements with_defaults "admin").
  cbn. lia.
Defined.

End WordlistMutatorExamples.

(** ** The shaping of the path list *)

Section FinderTheorems.
Import Finder.
Local Open Scope string_scope.
Local Open Scope list_scope.
Context {L : SetListing} {R : Shuffle}.

Lemma prioritized_elem (paths : list string) (p : string) :
  p ∈ prioritized paths <-> p ∈ paths /\ has_admin_keyword p = true.
Proof. unfold prioritized. rewrite list_elem_of_filter. tauto. Qed.

Lemma remaining_elem (paths : list string) (p : string) :
  p ∈ remaining paths <-> p ∈ paths /\ has_admin_keyword p = false.
Proof.
  unfold remaining.
  rewrite elem_of_difference, !elem_of_list_to_set, prioritized_elem.
  destruct (has_admin_keyword p); intuition congruence.
Qed.

(** The random part of the stealth selection. *)
Lemma stealth_paths_split (paths : list string) :
  stealth_paths paths
  = take 300 (prioritized paths) ++ take 200 (shuffle (listing (remaining paths))).
Proof.
  unfold stealth_paths. f_equal.
  destruct (listing (remaining paths)) as [|x l] eqn:E; [|done].
  assert (Hs : shuffle [] = []) by (apply Permutation_nil_r, shuffle_perm).
  by rewrite Hs.
Qed.

Lemma shape_paths_stealth (paths : list string) :
  (500 < length paths)%nat ->
  shape_paths "stealth" paths = stealth_paths paths.
Proof.
  intros Hlen. unfold shape_paths.
  change (String.eqb "stealth" "simple") with false.
  change (String.eqb "stealth" "stealth") with true.
  cbn [andb].
  by destruct (Nat.ltb_spec 500 (length paths)); [|lia].
Qed.

Lemma length_shuffled_remaining (paths : list string) :
  length (shuffle (listing (remaining paths))) = size (remaining paths).
Proof. by rewrite shuffle_perm, listing_perm. Qed.

Lemma size_remaining_distinct (paths : list string) :
  NoDup paths ->
  size (remaining paths) = (length paths - length (prioritized paths))%nat.
Proof.
  intros Hnd. unfold remaining.
  rewrite size_difference.
  - rewrite !size_list_to_set; [done | | done].
    by apply NoDup_filter.
  - intros x. rewrite !elem_of_list_to_set, prioritized_elem. tauto.
Qed.

(** C4, as the code has it. In stealth mode with more than 500 candidates
    the dispatched list is the keyword matches cut to the first 300,
    followed by [min(200, n)] paths without a keyword, pairwise different,
    where [n] counts the _different_ paths without a keyword
    ([set(paths) - set(prioritized_paths)]); it has at most 500 elements;
    and for 600 pairwise different candidates with 50 matches it has
    exactly 250. *)
Theorem stealth_selection (paths : list string) :
  (500 < length paths)%nat ->
  exists selected : list string,
    shape_paths "stealth" paths = take 300 (prioritized paths) ++ selected /\
    NoDup selected /\
    (forall p, p ∈ selected -> p ∈ paths /\ has_admin_keyword p = false) /\
    length selected = (200 `min` size (remaining paths))%nat /\
    (length (shape_paths "stealth" paths) ≤ 500)%nat /\
    (NoDup paths -> length paths = 600%nat ->
     length (prioritized paths) = 50%nat ->
     length (shape_paths "stealth" paths) = 250%nat).
Proof.
  intros Hlen. rewrite shape_paths_stealth, stealth_paths_split by done.
  set (selected := take 200 (shuffle (listing (remaining paths)))).
  assert (Hsel : length selected = (200 `min` size (remaining paths))%nat).
  { unfold selected. by rewrite length_take, length_shuffled_remaining. }
  exists selected. split; [done|]. split; [|split; [|split; [done|split]]].
  - unfold selected. eapply sublist_NoDup; [|apply sublist_take].
    rewrite shuffle_perm, listing_perm. apply NoDup_elements.
  - intros p Hp. apply remaining_elem.
    apply elem_of_listing. rewrite <- (shuffle_perm (listing _)).
    eapply elem_of_sublist; [exact Hp | apply sublist_take].
  - rewrite length_app, length_take, Hsel. lia.
  - intros Hnd H600 H50.
    rewrite length_app, length_take, Hsel, size_remaining_distinct by done.
    lia.
Qed.

End FinderTheorems.

Section FinderExamples.
Import Finder.
Local Open Scope string_scope.
Local Open Scope list_scope.

(** 600 different paths, 50 of them with a keyword: 250 are dispatched. *)
Lemma stealth_selection_witness :
  length (@shape_paths listing_by_elements shuffle_nothing "stealth" sample_paths)
  = 250%nat.
Proof.
  destruct (@stealth_selection listing_by_elements shuffle_nothing sample_paths)
    as (selected & _ & _ & _ & _ & _ & H250).
  - vm_compute. lia.
  - apply H250.
    + apply (bool_decide_unpack _). vm_compute. exact I.
    + vm_compute. reflexivity.
    + vm_compute. reflexivity.
Defined.

(** C4, as stated, fails: the paths without a keyword are drawn from a
    set, so what counts is how many different ones there are. Of 600
    candidates with 50 matches, 51 are dispatched when the other 550 lines
    repeat one path. *)
Lemma stealth_selection_counts_distinct_paths :
  length repeated_paths = 600%nat /\
  length (prioritized repeated_paths) = 50%nat /\
  ~ (forall (L : SetListing) (R : Shuffle),
       length (shape_paths "stealth" repeated_paths) = 250%nat).
Proof.
  split; [by vm_compute|]. split; [by vm_compute|].
  intros Hall. specialize (Hall listing_by_elements shuffle_nothing).
  vm_compute in Hall. discriminate Hall.
Qed.

End FinderExamples.

(** ** The proxy pool *)

Section ProxyHealthTheorems.
Import ProxyManager.

Lemma record_all_snoc (mx : Z) (s : ProxyStats.t) (os : list outcome)
    (o : outcome) :
  record_all mx s (os ++ [o]) = record mx (record_all mx s os) o.
Proof. unfold record_all. by rewrite fold_left_app. Qed.

Lemma trailing_failures_snoc (os : list outcome) (o : outcome) :
  trailing_failures (os ++ [o])
  = match o with
    | Failure _ => S (trailing_failures os)
    | Success _ _ => 0%nat
    end.
Proof.
  unfold trailing_failures. rewrite rev_app_distr. cbn. by destruct o.
Qed.

(** The counter is the number of failures since the last success, and the
    flag is down exactly when that number reached [max_failures]. *)
Lemma record_all_health (mx : Z) (s : ProxyStats.t) (os : list outcome) :
  ProxyStats.is_healthy s = true ->
  ProxyStats.consecutive_failures s = 0%Z ->
  ProxyStats.consecutive_failures (record_all mx s os)
  = Z.of_nat (trailing_failures os) /\
  (ProxyStats.is_healthy (record_all mx s os) = false <->
   (1 <= trailing_failures os)%nat /\ (mx <= Z.of_nat (trailing_failures os))%Z).
Proof.
  intros Hh Hc. induction os as [|o os [IHc IHh]] using rev_ind.
  - cbn. rewrite Hh, Hc. split; [done|]. split; [done | lia].
  - rewrite record_all_snoc, trailing_failures_snoc.
    destruct o as [rt now|now]; cbn [record succeeded failed
      ProxyStats.consecutive_failures ProxyStats.is_healthy].
    + split; [done|]. split; [done | lia].
    + rewrite IHc. split; [lia|].
      destruct (Z.leb_spec mx (Z.of_nat (trailing_failures os) + 1)).
      * split; [lia | done].
      * rewrite IHh. lia.
Qed.

(** The calls on the manager change the statistics of the proxy they are
    given, and of no other proxy of the pool. *)
Lemma record_success_stats (m : t) (i j : nat) (response_time now : Q) :
  _proxies (record_success m i response_time now) !! j
  = (if decide (i = j)
     then (fun p => Proxy.set_stats p
                      (succeeded (Proxy.stats p) response_time now))
          <$> _proxies m !! j
     else _proxies m !! j).
Proof.
  unfold record_success. cbn [_proxies set_proxies].
  case_decide as E; [subst; apply list_lookup_alter_eq | by apply list_lookup_alter_ne].
Qed.

Lemma record_failure_stats (m : t) (i j : nat) (now : Q) :
  _proxies (record_failure m i now) !! j
  = (if decide (i = j)
     then (fun p => Proxy.set_stats p
                      (failed (max_failures m) (Proxy.stats p) now))
          <$> _proxies m !! j
     else _proxies m !! j).
Proof.
  unfold record_failure.
  destruct (_proxies m !! i) as [p|] eqn:Ep.
  - assert (Hi : (i < length (_proxies m))%nat) by (by eapply lookup_lt_Some).
    assert (E : _proxies (set_proxies m
                  (<[i:=Proxy.set_stats p
                         (failed (max_failures m) (Proxy.stats p) now)]>
                     (_proxies m))) !! j
                = (if decide (i = j)
                   then (fun p => Proxy.set_stats p
                            (failed (max_failures m) (Proxy.stats p) now))
                        <$> _proxies m !! j
                   else _proxies m !! j)).
    { cbn [_proxies set_proxies]. case_decide as E.
      - subst. by rewrite list_lookup_insert_eq, Ep.
      - by rewrite list_lookup_insert_ne. }
    cbn zeta. by destruct (_ <=? _)%Z.
  - case_decide as E; [subst; by rewrite Ep | done].
Qed.

Lemma positions_elem (f : Proxy.t -> bool) (ps : list Proxy.t) :
  forall (k i : nat),
    i ∈ positions f ps k <->
    (k <= i)%nat /\ exists p, ps !! (i - k)%nat = Some p /\ f p = true.
Proof.
  induction ps as [|q ps IH]; intros k i; cbn [positions].
  - rewrite elem_of_nil. split; [done|]. by intros (_ & p & Hp & _).
  - assert (Hrest : i ∈ positions f ps (S k) <->
              (k < i)%nat /\ exists p, ps !! (i - S k)%nat = Some p /\ f p = true).
    { rewrite IH. done. }
    destruct (f q) eqn:Hq; rewrite ?elem_of_cons, Hrest.
    + split.
      * intros [->|[Hlt (p & Hp & Hf)]].
        -- split; [lia|]. exists q. by rewrite Nat.sub_diag.
        -- split; [lia|]. exists p. split; [|done].
           by replace (i - k)%nat with (S (i - S k)) by lia.
      * intros [Hle (p & Hp & Hf)].
        destruct (decide (i = k)) as [->|Hne]; [by left|right].
        split; [lia|]. exists p. split; [|done].
        by replace (i - k)%nat with (S (i - S k)) in Hp by lia.
    + split.
      * intros [Hlt (p & Hp & Hf)]. split; [lia|]. exists p. split; [|done].
        by replace (i - k)%nat with (S (i - S k)) by lia.
      * intros [Hle (p & Hp & Hf)].
        destruct (decide (i = k)) as [->|Hne].
        { rewrite Nat.sub_diag in Hp. cbn in Hp. congruence. }
        split; [lia|]. exists p. split; [|done].
        by replace (i - k)%nat with (S (i - S k)) in Hp by lia.
Qed.

Lemma positions_nil (f : Proxy.t -> bool) (ps : list Proxy.t) (k : nat) :
  positions f ps k = [] <-> Forall (fun p => f p = false) ps.
Proof.
  revert k. induction ps as [|q ps IH]; intros k; cbn [positions].
  - split; [constructor | done].
  - destruct (f q) eqn:Hq.
    + split; [done|]. intros Hall. inversion Hall; congruence.
    + rewrite IH. split; [by constructor | by inversion 1].
Qed.

Lemma best_elem (ps : list Proxy.t) (candidates : list nat) :
  forall current, best ps candidates current ∈ current :: candidates.
Proof.
  induction candidates as [|i rest IH]; intros current; cbn [best].
  - by left.
  - assert (Hi : best ps rest i ∈ current :: i :: rest)
      by (right; apply IH).
    assert (Hc : best ps rest current ∈ current :: i :: rest).
    { specialize (IH current). apply elem_of_cons in IH as [->|Hin].
      - by left.
      - by do 2 right. }
    destruct (ps !! i); [|done].
    destruct (ps !! current); [|done].
    by destruct (key_lt _ _).
Qed.

Lemma choose_elem (m : t) (ps : list Proxy.t) (first : nat)
    (others : list nat) (d : draw) :
  (choose m ps first others d).1 ∈ first :: others.
Proof.
  unfold choose.
  assert (Hpos : (0 < length (first :: others))%nat) by (cbn; lia).
  destruct (String.eqb _ "random"); [|destruct (String.eqb _ "performance")];
    cbn [fst].
  - apply list_elem_of_lookup_total_2. by apply Nat.mod_upper_bound, Nat.neq_0_lt_0.
  - apply best_elem.
  - apply list_elem_of_lookup_total_2.
    pose proof (Z.mod_pos_bound (_current_index m + 1)
                  (Z.of_nat (length (first :: others)))). lia.
Qed.

Lemma rested_true (m : t) (now : Q) (p : Proxy.t) :
  rested m now p = true <->
  (health_check_interval m < now - ProxyStats.last_failure (Proxy.stats p))%Q.
Proof. apply Qltb_true. Qed.

(** C3, as the code has it. For a proxy that starts healthy with no
    failure counted: after any history of [record_success] and
    [record_failure], [consecutive_failures] is the number of failures
    since the last success and the proxy is unhealthy exactly when that
    number is at least one and has reached [max_failures]; a success
    resets the counter and the flag. And when no proxy of the pool is
    healthy, [get_proxy] reinstates (healthy, counter at zero) exactly the
    proxies with [now - last_failure > health_check_interval], strictly,
    and returns one of them, or [None] when there is none. *)
Theorem proxy_health (mx : Z) (s : ProxyStats.t) (os : list outcome)
    (m : t) (d : draw) :
  ProxyStats.is_healthy s = true ->
  ProxyStats.consecutive_failures s = 0%Z ->
  Forall (fun p => healthy p = false) (_proxies m) ->
  (ProxyStats.consecutive_failures (record_all mx s os)
   = Z.of_nat (trailing_failures os) /\
   (ProxyStats.is_healthy (record_all mx s os) = false <->
    (1 <= trailing_failures os)%nat /\ (mx <= Z.of_nat (trailing_failures os))%Z)) /\
  (forall s0 response_time now,
     ProxyStats.consecutive_failures (succeeded s0 response_time now) = 0%Z /\
     ProxyStats.is_healthy (succeeded s0 response_time now) = true) /\
  (forall i p, _proxies m !! i = Some p ->
     exists p', _proxies (get_proxy m d).2 !! i = Some p' /\
       (healthy p' = true <->
        (health_check_interval m
         < t_check d - ProxyStats.last_failure (Proxy.stats p))%Q) /\
       (healthy p' = true ->
        ProxyStats.consecutive_failures (Proxy.stats p') = 0%Z)) /\
  ((get_proxy m d).1 = None <->
   Forall (fun p => ~ (health_check_interval m
                       < t_check d - ProxyStats.last_failure (Proxy.stats p))%Q)
     (_proxies m)) /\
  (forall i, (get_proxy m d).1 = Some i ->
     exists p, _proxies m !! i = Some p /\
       (health_check_interval m
        < t_check d - ProxyStats.last_failure (Proxy.stats p))%Q).
Proof.
  intros Hh Hc Hall.
  split; [by apply record_all_health|]. split; [done|].
  assert (Hnone : positions healthy (_proxies m) 0 = []) by (by apply positions_nil).
  assert (Hre : forall p, p ∈ _proxies m ->
            healthy (reinstate m (t_check d) p) = rested m (t_check d) p /\
            (healthy (reinstate m (t_check d) p) = true ->
             ProxyStats.consecutive_failures
               (Proxy.stats (reinstate m (t_check d) p)) = 0%Z)).
  { intros p Hp. rewrite Forall_forall in Hall. specialize (Hall p Hp).
    unfold reinstate. destruct (rested m (t_check d) p); [done|].
    rewrite Hall. split; [done | discriminate]. }
  unfold get_proxy. rewrite Hnone.
  destruct (positions (rested m (t_check d)) (_proxies m) 0)
    as [|first others] eqn:Epos.
  - apply positions_nil in Epos as Hno. cbn [fst snd _proxies set_proxies].
    split; [|split].
    + intros i p Hp. exists (reinstate m (t_check d) p).
      split; [by rewrite list_lookup_fmap, Hp|].
      destruct (Hre p) as [E Hz]; [by eapply list_elem_of_lookup_2|].
      split; [rewrite E; apply rested_true | exact Hz].
    + split; [intros _ | done].
      eapply Forall_impl; [exact Hno|]. cbn. intros p Hp.
      rewrite <- rested_true. congruence.
    + discriminate.
  - pose proof (choose_elem m (map (reinstate m (t_check d)) (_proxies m))
                  first others d) as Hin.
    destruct (choose m _ first others d) as [i k]. cbn [fst] in Hin.
    rewrite <- Epos in Hin. apply positions_elem in Hin as (_ & q & Hq & Hr).
    rewrite Nat.sub_0_r in Hq.
    cbn [fst snd _proxies set_proxies set_index]. split; [|split].
    + intros j p Hp.
      destruct (Hre p) as [E Hz]; [by eapply list_elem_of_lookup_2|].
      destruct (decide (i = j)) as [->|Hne].
      * exists (touch (reinstate m (t_check d) p) (t_used d)).
        split; [by rewrite list_lookup_alter_eq, list_lookup_fmap, Hp|].
        change (healthy (touch ?x _)) with (healthy x).
        split; [rewrite E; apply rested_true | exact Hz].
      * exists (reinstate m (t_check d) p).
        split; [by rewrite list_lookup_alter_ne, list_lookup_fmap, Hp|].
        split; [rewrite E; apply rested_true | exact Hz].
    + split; [discriminate|]. intros Hno. exfalso.
      rewrite Forall_forall in Hno.
      apply (Hno q); [by eapply list_elem_of_lookup_2 | by apply rested_true].
    + intros j [= <-]. exists q. split; [done | by apply rested_true].
Qed.

(** Two failures, a success, three failures, with [max_failures = 3]; and
    the pool of two failed proxies at time 400: the one that failed at time
    0 is returned. *)
Lemma proxy_health_witness :
  ProxyStats.is_healthy
    (record_all 3 ProxyStats.new
       [Failure 1; Failure 2; Success (1 # 2) 3; Failure 4; Failure 5; Failure 6])
  = false /\
  (get_proxy sample_pool (drawn 400 401 0)).1 = Some 0%nat.
Proof.
  destruct (proxy_health 3 ProxyStats.new
              [Failure 1; Failure 2; Success (1 # 2) 3;
               Failure 4; Failure 5; Failure 6]
              sample_pool (drawn 400 401 0))
    as ((_ & Hflag) & _ & _ & _ & _).
  - reflexivity.
  - reflexivity.
  - repeat constructor.
  - split; [|reflexivity]. apply Hflag. vm_compute. split; [lia | discriminate].
Defined.

(** C3, as stated, fails at the boundary: a proxy whose last failure is
    exactly [health_check_interval] old is not reinstated. *)
Lemma proxy_not_reinstated_at_interval :
  let m := mk 3 300 "round_robin" [failed_out "http://proxy.example:8080" 100] 0 [] in
  Forall (fun p => healthy p = false) (_proxies m) /\
  Forall (fun p => (health_check_interval m
                    <= 400 - ProxyStats.last_failure (Proxy.stats p))%Q)
    (_proxies m) /\
  (get_proxy m (drawn 400 400 0)).1 = None.
Proof.
  cbn zeta. split; [by repeat constructor|]. split; [|reflexivity].
  repeat constructor. by vm_compute.
Qed.

End ProxyHealthTheorems.

Section ProxyLoadingTheorems.
Import ProxyManager.
Local Open Scope string_scope.
Local Open Scope list_scope.
Context {U : Urllib} {R : Regex} {F : FileSystem}.

Lemma proxy_new_fields (url type : string) (host : option string) (port : Z)
    (username password : option string) (p : Proxy.t) :
  Proxy.new url type host port username password = Py.Ok p ->
  Proxy.url p = url /\ Proxy.type p = type.
Proof.
  unfold Proxy.new.
  destruct ((negb (Py.truthy host)) || (port =? 0)%Z); [|by intros [= <-]].
  destruct (urlparse url) as [parsed|e]; cbn; [|done].
  destruct (Urlparse.port parsed) as [parsed_port|e]; cbn; [|done].
  by intros [= <-].
Qed.

(** What the [try] block of [add_proxy] does to the pool. *)
Lemma try_add_pool (m : t) (proxy_url : string) (added : bool) (m' : t) :
  try_add m proxy_url = Py.Ok (added, m') ->
  if added
  then exists p, _proxies m' = _proxies m ++ [p] /\ Proxy.url p = proxy_url /\
         Proxy.type p ∈ ["http"; "https"; "socks4"; "socks5"] /\
         (proxy_url ∉ map Proxy.url (_proxies m))
  else _proxies m' = _proxies m.
Proof.
  unfold try_add.
  destruct (urlparse proxy_url) as [parsed|e]; cbn [Py.bind]; [|done].
  destruct (bool_decide (Str.lower (Urlparse.scheme parsed) ∈ _)) eqn:Etype;
    cbn [negb]; [|by intros [= <- <-]].
  apply bool_decide_eq_true in Etype.
  destruct (Urlparse.port parsed) as [parsed_port|e]; cbn [Py.bind]; [|done].
  destruct (Proxy.new _ _ _ _ _ _) as [proxy|e] eqn:Enew; cbn [Py.bind]; [|done].
  apply proxy_new_fields in Enew as [Eurl Etp].
  destruct (existsb (Proxy.eqb proxy) (_proxies m)) eqn:Edup; cbn [negb].
  - by intros [= <- <-].
  - intros [= <- <-]. exists proxy. cbn. split; [done|]. split; [done|].
    split; [by rewrite Etp|].
    intros Hin. apply list_elem_of_fmap in Hin as (q & Hq & Hin).
    apply not_true_iff_false in Edup. apply Edup, existsb_exists.
    exists q. split; [by apply list_elem_of_In|].
    unfold Proxy.eqb. rewrite Eurl, Hq. apply String.eqb_refl.
Qed.

Lemma add_proxy_pool (m : t) (proxy_url : string) :
  if (add_proxy m proxy_url).1
  then exists p, _proxies (add_proxy m proxy_url).2 = _proxies m ++ [p] /\
         Proxy.url p = proxy_url /\
         Proxy.type p ∈ ["http"; "https"; "socks4"; "socks5"] /\
         (proxy_url ∉ map Proxy.url (_proxies m)) /\
         (InputValidator.validate_proxy_url proxy_url).1 = true
  else _proxies (add_proxy m proxy_url).2 = _proxies m.
Proof.
  unfold add_proxy.
  destruct (InputValidator.validate_proxy_url proxy_url) as [[] result];
    cbn [negb fst snd]; [|done].
  destruct (try_add m proxy_url) as [[added m']|e] eqn:E; [|done].
  apply try_add_pool in E. cbn [fst snd].
  destruct added; [|done].
  destruct E as (p & ? & ? & ? & ?). by exists p.
Qed.

Lemma add_proxy_rejects_invalid (m : t) (proxy_url : string) :
  (InputValidator.validate_proxy_url proxy_url).1 = false ->
  (add_proxy m proxy_url).1 = false.
Proof.
  intros Hv. pose proof (add_proxy_pool m proxy_url) as H.
  destruct (add_proxy m proxy_url).1; [|done].
  destruct H as (p & _ & _ & _ & _ & Hv'). congruence.
Qed.

Lemma add_proxy_rejects_present (m : t) (proxy_url : string) :
  proxy_url ∈ map Proxy.url (_proxies m) ->
  (add_proxy m proxy_url).1 = false.
Proof.
  intros Hin. pose proof (add_proxy_pool m proxy_url) as H.
  destruct (add_proxy m proxy_url).1; [|done].
  by destruct H as (p & _ & _ & _ & Hnot & _).
Qed.

Lemma add_proxy_rejects_scheme (m : t) (proxy_url : string)
    (parsed : Urlparse.ParseResult) :
  urlparse proxy_url = Py.Ok parsed ->
  Str.lower (Urlparse.scheme parsed) ∉ ["http"; "https"; "socks4"; "socks5"] ->
  (add_proxy m proxy_url).1 = false.
Proof.
  intros Hparse Hscheme. unfold add_proxy.
  destruct (InputValidator.validate_proxy_url proxy_url) as [[] result];
    cbn [negb fst]; [|done].
  unfold try_add. rewrite Hparse. cbn [Py.bind].
  by rewrite bool_decide_eq_false_2.
Qed.

Lemma add_proxy_rejects_unparsable (m : t) (proxy_url : string) (e : Py.exn) :
  urlparse proxy_url = Py.Raise e ->
  (add_proxy m proxy_url).1 = false.
Proof.
  intros Hparse. unfold add_proxy.
  destruct (InputValidator.validate_proxy_url proxy_url) as [[] result];
    cbn [negb fst]; [|done].
  unfold try_add. by rewrite Hparse.
Qed.

(** The loop of [load_from_file] counts the proxies it appends to the
    pool, each of them a candidate line of the file. *)
Lemma load_lines_pool (f : file_lines) : forall (m : t) (count : Z),
  exists added : list Proxy.t,
    _proxies (load_lines m f count).1.2 = _proxies m ++ added /\
    (load_lines m f count).1.1 = (count + Z.of_nat (length added))%Z /\
    Forall (fun p => Proxy.url p ∈ candidate_lines f) added.
Proof.
  induction f as [|s rest IH|e]; intros m count.
  - exists []. cbn. rewrite app_nil_r. split; [done|]. split; [lia | done].
  - cbn [load_lines candidate_lines].
    destruct (bool_decide (Str.strip s <> "") && negb (Str.startswith "#" (Str.strip s)));
      [|apply IH].
    pose proof (add_proxy_pool m (Str.strip s)) as Hadd.
    destruct (add_proxy m (Str.strip s)) as [ok m1]. cbn [fst snd] in Hadd.
    destruct ok.
    + destruct Hadd as (p & Hpool & Hurl & _).
      destruct (IH m1 (count + 1)%Z) as (added & Hp & Hc & Hall).
      exists (p :: added). rewrite Hp, Hc, Hpool, <- app_assoc. cbn [app length].
      split; [done|]. split; [lia|].
      constructor; [rewrite Hurl; by left|].
      eapply Forall_impl; [exact Hall|]. cbn. intros q Hq. by right.
    + destruct (IH m1 count) as (added & Hp & Hc & Hall).
      exists added. rewrite Hp, Hc, Hadd. split; [done|]. split; [done|].
      eapply Forall_impl; [exact Hall|]. cbn. intros q Hq. by right.
  - exists []. cbn. rewrite app_nil_r. split; [done|]. split; [lia | done].
Qed.

Lemma load_failed_pool (m : t) (filepath : string) (e : Py.exn) :
  _proxies (load_failed m filepath e) = _proxies m.
Proof. by destruct e. Qed.

(** A blank line and a comment line are skipped. *)
Lemma load_lines_skips (m : t) (s : string) (rest : file_lines) (count : Z) :
  Str.strip s = "" \/ Str.startswith "#" (Str.strip s) = true ->
  load_lines m (Line s rest) count = load_lines m rest count.
Proof.
  intros Hskip. cbn [load_lines].
  destruct Hskip as [->| ->]; [done|]. by rewrite andb_false_r.
Qed.

(** C9: [add_proxy] always returns (the model has no exception left to
    raise: both [try] blocks catch [Exception]); when it returns [False] the
    pool is as it was, and it returns [False] for a URL the validator
    rejects, for a URL [urlparse] raises on, for a scheme outside
    http/https/socks4/socks5 and for a URL already in the pool; when it
    returns [True] it has appended one proxy with that URL.
    [load_from_file] returns the number of proxies it appended to the pool,
    each from a line that is neither blank nor a comment; blank and comment
    lines are skipped; and for a missing file it returns 0, leaves the pool
    alone and logs the warning. *)
Theorem add_proxy_and_load_from_file (m : t) :
  (forall proxy_url,
     (add_proxy m proxy_url).1 = false ->
     _proxies (add_proxy m proxy_url).2 = _proxies m) /\
  (forall proxy_url,
     (add_proxy m proxy_url).1 = true ->
     exists p, _proxies (add_proxy m proxy_url).2 = _proxies m ++ [p] /\
       Proxy.url p = proxy_url) /\
  (forall proxy_url,
     (InputValidator.validate_proxy_url proxy_url).1 = false ->
     (add_proxy m proxy_url).1 = false) /\
  (forall proxy_url e,
     urlparse proxy_url = Py.Raise e -> (add_proxy m proxy_url).1 = false) /\
  (forall proxy_url parsed,
     urlparse proxy_url = Py.Ok parsed ->
     Str.lower (Urlparse.scheme parsed) ∉ ["http"; "https"; "socks4"; "socks5"] ->
     (add_proxy m proxy_url).1 = false) /\
  (forall proxy_url,
     proxy_url ∈ map Proxy.url (_proxies m) ->
     (add_proxy m proxy_url).1 = false) /\
  (forall filepath,
     exists added : list Proxy.t,
       _proxies (load_from_file m filepath).2 = _proxies m ++ added /\
       (load_from_file m filepath).1 = Z.of_nat (length added) /\
       forall f, open_read filepath = Py.Ok f ->
         Forall (fun p => Proxy.url p ∈ candidate_lines f) added) /\
  (forall s rest count,
     Str.strip s = "" \/ Str.startswith "#" (Str.strip s) = true ->
     load_lines m (Line s rest) count = load_lines m rest count) /\
  (forall filepath msg,
     open_read filepath = Py.Raise (Py.FileNotFoundError msg) ->
     (load_from_file m filepath).1 = 0%Z /\
     _proxies (load_from_file m filepath).2 = _proxies m /\
     logged (load_from_file m filepath).2
     = logged m ++ [log_warning ("Proxy file not found: " +:+ filepath)]).
Proof.
  repeat apply conj.
  - intros proxy_url Hf. pose proof (add_proxy_pool m proxy_url) as H.
    by rewrite Hf in H.
  - intros proxy_url Ht. pose proof (add_proxy_pool m proxy_url) as H.
    rewrite Ht in H. destruct H as (p & ? & ? & _). by exists p.
  - apply add_proxy_rejects_invalid.
  - apply add_proxy_rejects_unparsable.
  - apply add_proxy_rejects_scheme.
  - apply add_proxy_rejects_present.
  - intros filepath. unfold load_from_file.
    destruct (open_read filepath) as [f|e].
    + destruct (load_lines_pool f m 0) as (added & Hp & Hc & Hall).
      exists added.
      destruct (load_lines m f 0) as [[count m'] [e|]]; cbn [fst snd] in *.
      * rewrite load_failed_pool. split; [done|]. split; [lia|].
        by intros ? [= <-].
      * split; [done|]. split; [lia|]. by intros ? [= <-].
    + exists []. cbn [fst snd]. rewrite load_failed_pool, app_nil_r.
      by repeat split.
  - apply load_lines_skips.
  - intros filepath msg Hopen. unfold load_from_file. rewrite Hopen. by cbn.
Qed.

End ProxyLoadingTheorems.

(** ** The pool over the lifetime of a manager *)

Section ProxyPoolTheorems.
Import ProxyManager.
Local Open Scope string_scope.
Local Open Scope list_scope.
Context {U : Urllib} {R : Regex} {F : FileSystem}.

Lemma pool_extends_refl (m : t) : pool_extends m m.
Proof. by repeat split. Qed.

Lemma pool_extends_trans (m1 m2 m3 : t) :
  pool_extends m1 m2 -> pool_extends m2 m3 -> pool_extends m1 m3.
Proof.
  intros (H1 & H2 & H3) (H1' & H2' & H3'). split; [by etrans|]. split; auto.
Qed.

Lemma pool_extends_same_identity (m m' : t) :
  map Proxy.url (_proxies m') = map Proxy.url (_proxies m) ->
  map Proxy.type (_proxies m') = map Proxy.type (_proxies m) ->
  pool_extends m m'.
Proof.
  intros Eu Et. split; [by rewrite Eu|]. split; [by rewrite Eu|].
  rewrite !Forall_forall. intros Hall p Hp.
  assert (Hin : Proxy.type p ∈ map Proxy.type (_proxies m')).
  { apply list_elem_of_fmap. by exists p. }
  rewrite Et in Hin. apply list_elem_of_fmap in Hin as (q & -> & Hq). by apply Hall.
Qed.

Lemma add_proxy_extends (m : t) (proxy_url : string) :
  pool_extends m (add_proxy m proxy_url).2.
Proof.
  pose proof (add_proxy_pool m proxy_url) as H.
  destruct (add_proxy m proxy_url).1.
  - destruct H as (p & Ep & Eu & Et & Hnot & _).
    unfold pool_extends. rewrite Ep.
    split; [|split].
    + rewrite map_app. by apply prefix_app_r.
    + intros Hnd. rewrite map_app. apply NoDup_app. split; [done|].
      split; [|apply NoDup_singleton].
      intros x Hx Hx'. cbn in Hx'. apply list_elem_of_singleton in Hx'.
      subst x. by rewrite Eu in Hx.
    + intros Hall. apply Forall_app. split; [done|]. by constructor.
  - apply pool_extends_same_identity; by rewrite H.
Qed.

Lemma add_proxies_extends (proxy_urls : list string) : forall m : t,
  pool_extends m (add_proxies m proxy_urls).
Proof.
  induction proxy_urls as [|u rest IH]; intros m; [apply pool_extends_refl|].
  eapply pool_extends_trans; [apply (add_proxy_extends m u) | apply IH].
Qed.

Lemma load_lines_extends (f : file_lines) : forall (m : t) (count : Z),
  pool_extends m (load_lines m f count).1.2.
Proof.
  induction f as [|s rest IH|e]; intros m count; cbn [load_lines];
    [apply pool_extends_refl | | apply pool_extends_refl].
  destruct (bool_decide (Str.strip s <> "") && negb (Str.startswith "#" (Str.strip s)));
    [|apply IH].
  pose proof (add_proxy_extends m (Str.strip s)) as Hadd.
  destruct (add_proxy m (Str.strip s)) as [ok m1]. cbn [snd] in Hadd.
  eapply pool_extends_trans; [exact Hadd | apply IH].
Qed.

Lemma load_from_file_extends (m : t) (filepath : string) :
  pool_extends m (load_from_file m filepath).2.
Proof.
  unfold load_from_file. destruct (open_read filepath) as [f|e]; cbn [snd].
  - pose proof (load_lines_extends f m 0) as H.
    destruct (load_lines m f 0) as [[count m'] [e|]]; cbn [fst snd] in *.
    + eapply pool_extends_trans; [exact H|].
      apply pool_extends_same_identity; by rewrite load_failed_pool.
    + eapply pool_extends_trans; [exact H|].
      by apply pool_extends_same_identity.
  - apply pool_extends_same_identity; by rewrite load_failed_pool.
Qed.

Lemma map_alter_same {A B} (f : A -> B) (g : A -> A) (i : nat) (l : list A) :
  (forall x, f (g x) = f x) -> map f (alter g i l) = map f l.
Proof.
  intros Hfg. revert i. induction l as [|x l IH]; intros [|i]; cbn; [done..| |].
  - by rewrite Hfg.
  - f_equal. apply IH.
Qed.

Lemma map_insert_same {A B} (f : A -> B) (i : nat) (x y : A) (l : list A) :
  l !! i = Some x -> f y = f x -> map f (<[i := y]> l) = map f l.
Proof.
  revert i. induction l as [|z l IH]; intros [|i]; cbn; [done..| |].
  - intros [= ->] ->. done.
  - intros Hl Hf. f_equal. by apply IH.
Qed.

Lemma get_proxy_identity (m : t) (d : draw) :
  map Proxy.url (_proxies (get_proxy m d).2) = map Proxy.url (_proxies m) /\
  map Proxy.type (_proxies (get_proxy m d).2) = map Proxy.type (_proxies m).
Proof.
  unfold get_proxy.
  assert (Hre : forall f : Proxy.t -> string,
            (forall p s, f (Proxy.set_stats p s) = f p) ->
            map f (map (reinstate m (t_check d)) (_proxies m)) = map f (_proxies m)).
  { intros f Hf. rewrite map_map. apply map_ext. intros p. unfold reinstate.
    by destruct (rested m (t_check d) p). }
  destruct (positions healthy (_proxies m) 0) as [|h hs].
  - destruct (positions (rested m (t_check d)) (_proxies m) 0) as [|r rs].
    + cbn. by rewrite !Hre.
    + destruct (choose m _ r rs d) as [i k]. cbn.
      rewrite !map_alter_same by done. by rewrite !Hre.
  - destruct (choose m _ h hs d) as [i k]. cbn.
    by rewrite !map_alter_same.
Qed.

Lemma record_failure_identity (m : t) (i : nat) (now : Q) :
  map Proxy.url (_proxies (record_failure m i now)) = map Proxy.url (_proxies m) /\
  map Proxy.type (_proxies (record_failure m i now)) = map Proxy.type (_proxies m).
Proof.
  unfold record_failure. destruct (_proxies m !! i) as [p|] eqn:Ep; [|done].
  cbn zeta. destruct (_ <=? _)%Z; cbn;
    by rewrite !(map_insert_same _ i p) by done.
Qed.

Lemma step_extends (m : t) (c : call) : pool_extends m (step m c).
Proof.
  destruct c; cbn [step].
  - apply add_proxy_extends.
  - apply add_proxies_extends.
  - apply load_from_file_extends.
  - apply pool_extends_same_identity; apply get_proxy_identity.
  - apply pool_extends_same_identity; unfold record_success; cbn;
      by rewrite map_alter_same.
  - apply pool_extends_same_identity; apply record_failure_identity.
Qed.

Lemma run_extends (calls : list call) : forall m : t, pool_extends m (run m calls).
Proof.
  induction calls as [|c rest IH]; intros m; [apply pool_extends_refl|].
  eapply pool_extends_trans; [apply (step_extends m c) | apply IH].
Qed.

(** X7: The pool of a manager, however it was built and used: the URLs of its
    proxies are pairwise distinct, their types are among http, https,
    socks4 and socks5, and no call removes or moves a proxy (the pool before
    later calls is a prefix of the pool after them). *)
Theorem pool_grows_without_duplicates (proxies : option (list string))
    (max_failures : Z) (health_check_interval : Q) (rotation_strategy : string)
    (calls later : list call) :
  let m := run (new proxies max_failures health_check_interval rotation_strategy)
             calls in
  NoDup (map Proxy.url (_proxies m)) /\
  Forall (fun p => Proxy.type p ∈ ["http"; "https"; "socks4"; "socks5"])
    (_proxies m) /\
  map Proxy.url (_proxies m) `prefix_of` map Proxy.url (_proxies (run m later)).
Proof.
  cbn zeta.
  set (m0 := mk max_failures health_check_interval rotation_strategy [] 0 []).
  assert (H0 : pool_extends m0
                 (new proxies max_failures health_check_interval rotation_strategy)).
  { unfold new. destruct proxies as [[|u us]|]; try apply pool_extends_refl.
    apply add_proxies_extends. }
  destruct (pool_extends_trans _ _ _ H0 (run_extends calls _)) as (_ & Hnd & Hty).
  split; [apply Hnd; constructor|]. split; [apply Hty; constructor|].
  apply run_extends.
Qed.

End ProxyPoolTheorems.

Section ProxyStatsTheorems.
Import ProxyManager.
Local Open Scope Q_scope.

Lemma record_all_counts (mx : Z) (os : list outcome) :
  let s := record_all mx ProxyStats.new os in
  ProxyStats.total_requests s = Z.of_nat (length os) /\
  ProxyStats.successful_requests s = Z.of_nat (length (List.filter is_success os)) /\
  ProxyStats.failed_requests s
  = Z.of_nat (length (List.filter (fun o => negb (is_success o)) os)).
Proof.
  cbn zeta. induction os as [|o os (IHt & IHs & IHf)] using rev_ind; [done|].
  rewrite record_all_snoc, !List.filter_app, !length_app.
  destruct o as [rt now|now]; cbn; lia.
Qed.

(** X8: The statistics of a proxy after any history of recorded outcomes:
    every request is counted once, as a success or as a failure, the
    success rate lies between 0 and 1, and the average response time is
    infinite exactly when no request succeeded. *)
Theorem proxy_stats_accounting (max_failures : Z) (os : list outcome) :
  let s := record_all max_failures ProxyStats.new os in
  ProxyStats.total_requests s = Z.of_nat (length os) /\
  ProxyStats.successful_requests s = Z.of_nat (length (List.filter is_success os)) /\
  (ProxyStats.successful_requests s + ProxyStats.failed_requests s
   = ProxyStats.total_requests s)%Z /\
  0 <= ProxyStats.success_rate s /\ ProxyStats.success_rate s <= 1 /\
  (ProxyStats.avg_response_time s = None <->
   Forall (fun o => is_success o = false) os).
Proof.
  cbn zeta. destruct (record_all_counts max_failures os) as (Et & Es & Ef).
  set (s := record_all max_failures ProxyStats.new os) in *.
  assert (Hsplit : (length (List.filter is_success os)
                    + length (List.filter (fun o => negb (is_success o)) os)
                    = length os)%nat).
  { clear. induction os as [|o os IH]; [done|].
    cbn. destruct (is_success o); cbn; lia. }
  split; [done|]. split; [done|]. split; [lia|].
  assert (Hrate : 0 <= ProxyStats.success_rate s /\ ProxyStats.success_rate s <= 1).
  { unfold ProxyStats.success_rate.
    destruct (Z.eqb_spec (ProxyStats.total_requests s) 0) as [E0|Hne]; [lra|].
    assert (H0 : 0 <= inject_Z (ProxyStats.successful_requests s)).
    { change 0 with (inject_Z 0). rewrite <- Zle_Qle. lia. }
    assert (H1 : 0 < inject_Z (ProxyStats.total_requests s)).
    { change 0 with (inject_Z 0). rewrite <- Zlt_Qlt. lia. }
    assert (H2 : inject_Z (ProxyStats.successful_requests s)
                 <= inject_Z (ProxyStats.total_requests s)).
    { rewrite <- Zle_Qle. lia. }
    split.
    - apply Qle_shift_div_l; [done | lra].
    - apply Qle_shift_div_r; [done | lra]. }
  split; [apply Hrate|]. split; [apply Hrate|].
  unfold ProxyStats.avg_response_time. rewrite Es.
  split.
  - destruct (Z.eqb_spec (Z.of_nat (length (List.filter is_success os))) 0) as [E0|];
      [|done].
    intros _. apply List.Forall_forall. intros o Ho.
    destruct (is_success o) eqn:Eo; [|done].
    assert (Hin : In o (List.filter is_success os)) by (by apply filter_In).
    destruct (List.filter is_success os); [done | cbn in E0; lia].
  - intros Hall.
    assert (E0 : List.filter is_success os = []).
    { clear -Hall. induction Hall as [|o os Ho _ IH]; [done|].
      cbn. rewrite Ho. exact IH. }
    by rewrite E0.
Qed.

End ProxyStatsTheorems.

Section ProxyChoiceTheorems.
Import ProxyManager.
Local Open Scope Q_scope.

Lemma positions_lookup (f : Proxy.t -> bool) (ps : list Proxy.t) (i : nat) :
  i ∈ positions f ps 0 <-> exists p, ps !! i = Some p /\ f p = true.
Proof.
  rewrite positions_elem, Nat.sub_0_r. split; [by intros [_ H] | intros H].
  split; [lia | done].
Qed.

Lemma reinstate_none (m : t) (now : Q) (ps : list Proxy.t) :
  Forall (fun p => rested m now p = false) ps -> map (reinstate m now) ps = ps.
Proof.
  induction 1 as [|p ps Hp _ IH]; [done|].
  cbn. unfold reinstate at 1. by rewrite Hp, IH.
Qed.

(** X9: What [get_proxy] answers. A proxy it returns is in the pool, is healthy
    when it is returned and carries the time of the call as [last_used];
    it returns [None] exactly when no proxy is healthy and none has rested
    for more than the interval, and then the pool is as it was. *)
Theorem get_proxy_returns_healthy (m : t) (d : draw) :
  match (get_proxy m d).1 with
  | Some i =>
      exists p, _proxies (get_proxy m d).2 !! i = Some p /\
        healthy p = true /\
        ProxyStats.last_used (Proxy.stats p) = t_used d
  | None => _proxies (get_proxy m d).2 = _proxies m
  end /\
  ((get_proxy m d).1 = None <->
   Forall (fun p => healthy p = false /\ rested m (t_check d) p = false)
     (_proxies m)).
Proof.
  unfold get_proxy.
  destruct (positions healthy (_proxies m) 0) as [|h hs] eqn:Eh.
  - apply positions_nil in Eh.
    destruct (positions (rested m (t_check d)) (_proxies m) 0) as [|r rs] eqn:Er.
    + apply positions_nil in Er. cbn [fst snd _proxies set_proxies].
      split; [by apply reinstate_none|]. split; [intros _ | done].
      apply Forall_forall. intros p Hp.
      rewrite Forall_forall in Eh, Er. split; [by apply Eh | by apply Er].
    + pose proof (choose_elem m (map (reinstate m (t_check d)) (_proxies m))
                    r rs d) as Hin.
      destruct (choose m _ r rs d) as [i k]. cbn [fst snd] in *.
      rewrite <- Er in Hin.
      apply positions_lookup in Hin as (p & Hp & Hr).
      split.
      * exists (touch (reinstate m (t_check d) p) (t_used d)).
        cbn [_proxies set_proxies set_index].
        rewrite list_lookup_alter_eq, list_lookup_fmap, Hp. cbn.
        split; [done|]. split; [|done].
        unfold reinstate. by rewrite Hr.
      * split; [done|]. intros Hall.
        assert (Hnil : positions (rested m (t_check d)) (_proxies m) 0 = []).
        { apply positions_nil. eapply Forall_impl; [exact Hall|]. by intros ? [_ ?]. }
        congruence.
  - pose proof (choose_elem m (_proxies m) h hs d) as Hin.
    destruct (choose m _ h hs d) as [i k]. cbn [fst snd] in *.
    rewrite <- Eh in Hin. apply positions_lookup in Hin as (p & Hp & Hhp).
    split.
    + exists (touch p (t_used d)). cbn [_proxies set_proxies set_index].
      rewrite list_lookup_alter_eq, Hp. by cbn.
    + split; [done|]. intros Hall.
      assert (Hnil : positions healthy (_proxies m) 0 = []).
      { apply positions_nil. eapply Forall_impl; [exact Hall|]. by intros ? [? _]. }
      congruence.
Qed.

End ProxyChoiceTheorems.

Section ProxyRotationTheorems.
Import ProxyManager.
Local Open Scope Q_scope.

Lemma positions_ext (f : Proxy.t -> bool) (ps ps' : list Proxy.t) :
  map f ps' = map f ps -> forall k, positions f ps' k = positions f ps k.
Proof.
  revert ps'. induction ps as [|p ps IH]; intros [|p' ps'] E k; try done.
  cbn in E. injection E as Ep E. cbn [positions]. rewrite Ep, (IH ps' E). done.
Qed.

(** With a healthy proxy in the pool, [get_proxy] under round-robin
    advances the index by one modulo the number of healthy proxies and
    changes no health flag. *)
Lemma get_proxy_round_robin (m : t) (d : draw) (hs : list nat) :
  String.eqb (rotation_strategy m) "random" = false ->
  String.eqb (rotation_strategy m) "performance" = false ->
  positions healthy (_proxies m) 0 = hs -> hs <> [] ->
  let k := ((_current_index m + 1) `mod` Z.of_nat (length hs))%Z in
  (get_proxy m d).1 = Some (hs !!! Z.to_nat k) /\
  _current_index (get_proxy m d).2 = k /\
  rotation_strategy (get_proxy m d).2 = rotation_strategy m /\
  positions healthy (_proxies (get_proxy m d).2) 0 = hs.
Proof.
  intros Hr Hp Eh Hne. cbn zeta. unfold get_proxy. rewrite Eh.
  destruct hs as [|h hs']; [done|].
  unfold choose. rewrite Hr, Hp. cbn [fst snd _current_index set_index
    rotation_strategy set_proxies _proxies].
  split; [done|]. split; [done|]. split; [done|].
  transitivity (positions healthy (_proxies m) 0); [|done].
  apply positions_ext. by apply map_alter_same.
Qed.

Lemma get_proxies_round_robin (ds : list draw) : forall (m : t) (hs : list nat),
  String.eqb (rotation_strategy m) "random" = false ->
  String.eqb (rotation_strategy m) "performance" = false ->
  positions healthy (_proxies m) 0 = hs -> hs <> [] ->
  (get_proxies m ds).1
  = map (fun j : nat =>
           Some (hs !!! Z.to_nat ((_current_index m + Z.of_nat j)
                                  `mod` Z.of_nat (length hs))%Z))
        (seq 1 (length ds)).
Proof.
  induction ds as [|d rest IH]; intros m hs Hr Hp Eh Hne; [done|].
  destruct (get_proxy_round_robin m d hs Hr Hp Eh Hne) as (E1 & Ei & Es & Eh').
  cbn [get_proxies length seq map].
  destruct (get_proxy m d) as [r m'] eqn:E. cbn [fst snd] in *.
  specialize (IH m' hs). rewrite Es in IH. specialize (IH Hr Hp Eh' Hne).
  destruct (get_proxies m' rest) as [rs m'']. cbn [fst] in *.
  rewrite E1, IH. f_equal. rewrite <- (seq_shift _ 1), map_map.
  apply map_ext. intros j. rewrite Ei. do 3 f_equal.
  rewrite Zplus_mod_idemp_l. f_equal. lia.
Qed.

(** X10: Round-robin rotation: while the health flags stay as they are, the
    [j]-th call of [get_proxy] returns the healthy proxy at position
    [(index + j) mod n] of the [n] healthy ones, so [n] calls in a row
    return each healthy proxy once. On a new manager (index 0) the first
    call returns the second healthy proxy. *)
Theorem round_robin_cycle (m : t) (ds : list draw) (hs : list nat) :
  rotation_strategy m <> "random"%string ->
  rotation_strategy m <> "performance"%string ->
  positions healthy (_proxies m) 0 = hs -> hs <> [] ->
  (get_proxies m ds).1
  = map (fun j : nat =>
           Some (hs !!! Z.to_nat ((_current_index m + Z.of_nat j)
                                  `mod` Z.of_nat (length hs))%Z))
        (seq 1 (length ds)).
Proof.
  intros Hr Hp. apply get_proxies_round_robin; by apply String.eqb_neq.
Qed.

(** Three calls on a new manager whose second proxy is unhealthy: the
    third proxy, the first, the third. *)
Lemma round_robin_cycle_witness :
  (get_proxies three_proxies [drawn 1 1 0; drawn 2 2 0; drawn 3 3 0]).1
  = [Some 2%nat; Some 0%nat; Some 2%nat].
Proof.
  refine (round_robin_cycle three_proxies [drawn 1 1 0; drawn 2 2 0; drawn 3 3 0]
            [0%nat; 2%nat] _ _ eq_refl _); discriminate.
Defined.

End ProxyRotationTheorems.

Section ProxyPerformanceTheorems.
Import ProxyManager.
Local Open Scope Q_scope.

Lemma Qeq_bool_false (a b : Q) : Qeq_bool a b = false <-> ~ a == b.
Proof.
  split.
  - intros E H. apply Qeq_bool_iff in H. congruence.
  - intros H. destruct (Qeq_bool a b) eqn:E; [|done].
    by apply Qeq_bool_iff in E.
Qed.

Ltac key_cases :=
  unfold key_lt; intros;
  repeat match goal with
  | k : (Q * option Q)%type |- _ => destruct k as [? [?|]]
  end;
  cbn [fst snd] in *;
  repeat match goal with
  | H : context [Qeq_bool ?a ?b] |- _ =>
      let E := fresh "E" in
      destruct (Qeq_bool a b) eqn:E;
      [apply Qeq_bool_iff in E | apply Qeq_bool_false in E]
  | |- context [Qeq_bool ?a ?b] =>
      let E := fresh "E" in
      destruct (Qeq_bool a b) eqn:E;
      [apply Qeq_bool_iff in E | apply Qeq_bool_false in E]
  end;
  repeat match goal with
  | H : Py.Qltb _ _ = true |- _ => apply Qltb_true in H
  | H : Py.Qltb _ _ = false |- _ => apply Qltb_false in H
  end;
  try done;
  try (apply Qltb_true); try (apply Qltb_false);
  try lra.

Lemma key_lt_trans (a b c : Q * option Q) :
  key_lt a b = true -> key_lt b c = true -> key_lt a c = true.
Proof. key_cases. Qed.

Lemma key_lt_negtrans (a b c : Q * option Q) :
  key_lt a b = false -> key_lt b c = false -> key_lt a c = false.
Proof. key_cases. Qed.

(** [best] returns a position whose key no candidate's key is below. *)
Lemma best_least (ps : list Proxy.t) (candidates : list nat) :
  forall current pc,
    ps !! current = Some pc ->
    Forall (fun i => is_Some (ps !! i)) candidates ->
    exists pb,
      ps !! best ps candidates current = Some pb /\
      key_lt (performance_key pc) (performance_key pb) = false /\
      forall j q, j ∈ candidates -> ps !! j = Some q ->
        key_lt (performance_key q) (performance_key pb) = false.
Proof.
  induction candidates as [|i rest IH]; intros current pc Hc Hall.
  - exists pc. cbn [best]. split; [done|]. split.
    + unfold key_lt. destruct (Qeq_bool _ _) eqn:E.
      * destruct (performance_key pc).2; [|done]. apply Qltb_false. lra.
      * apply Qltb_false. lra.
    + intros j q Hj. by apply elem_of_nil in Hj.
  - inversion Hall as [|? ? [pi Hi] Hrest]; subst. cbn [best]. rewrite Hi, Hc.
    destruct (key_lt (performance_key pi) (performance_key pc)) eqn:Elt.
    + destruct (IH i pi Hi Hrest) as (pb & Hb & Hib & Hjb).
      exists pb. split; [done|]. split.
      * destruct (key_lt (performance_key pc) (performance_key pb)) eqn:Ecb;
          [|done].
        by rewrite (key_lt_trans _ _ _ Elt Ecb) in Hib.
      * intros j q Hj Hq. apply elem_of_cons in Hj as [->|Hj].
        -- rewrite Hi in Hq. by injection Hq as <-.
        -- by apply (Hjb j).
    + destruct (IH current pc Hc Hrest) as (pb & Hb & Hcb & Hjb).
      exists pb. split; [done|]. split; [done|].
      intros j q Hj Hq. apply elem_of_cons in Hj as [->|Hj].
      * rewrite Hi in Hq. injection Hq as <-.
        by apply (key_lt_negtrans _ _ _ Elt Hcb).
      * by apply (Hjb j).
Qed.

(** X11: The strategy [performance]: when the pool has a healthy proxy,
    [get_proxy] returns a healthy proxy whose key
    [(-success_rate, avg_response_time)] no healthy proxy's key is below: a
    highest success rate and, among those, a lowest average response
    time. *)
Theorem performance_picks_best (m : t) (d : draw) (h : nat) (ph : Proxy.t) :
  rotation_strategy m = "performance"%string ->
  _proxies m !! h = Some ph -> healthy ph = true ->
  exists i p,
    (get_proxy m d).1 = Some i /\ _proxies m !! i = Some p /\
    healthy p = true /\
    forall j q, _proxies m !! j = Some q -> healthy q = true ->
      key_lt (performance_key q) (performance_key p) = false.
Proof.
  intros Hs Hh Hph. unfold get_proxy.
  assert (Hin : h ∈ positions healthy (_proxies m) 0).
  { apply positions_lookup. by exists ph. }
  destruct (positions healthy (_proxies m) 0) as [|first others] eqn:E;
    [by apply elem_of_nil in Hin|].
  assert (Hpos : forall i, i ∈ first :: others <->
            exists p, _proxies m !! i = Some p /\ healthy p = true).
  { intros i. rewrite <- E. apply positions_lookup. }
  unfold choose. rewrite Hs. cbn [String.eqb Ascii.eqb Bool.eqb fst snd].
  destruct (proj1 (Hpos first)) as (pf & Hf & Hfh); [by left|].
  destruct (best_least (_proxies m) others first pf Hf) as (pb & Hb & Hfb & Hjb).
  { apply Forall_forall. intros i Hi.
    destruct (proj1 (Hpos i)) as (p & Hp & _); [by right | by eexists]. }
  exists (best (_proxies m) others first), pb.
  split; [done|]. split; [done|]. split.
  - pose proof (best_elem (_proxies m) others first) as Hbe.
    apply Hpos in Hbe as (p & Hp & Hhp). congruence.
  - intros j q Hq Hhq.
    assert (Hj : j ∈ first :: others) by (apply Hpos; by exists q).
    apply elem_of_cons in Hj as [->|Hj].
    + rewrite Hf in Hq. by injection Hq as <-.
    + by apply (Hjb j).
Qed.

(** Of two healthy proxies with the same success rate, the faster one is
    returned. *)
Lemma performance_picks_best_witness :
  exists i p,
    (get_proxy two_speeds (drawn 1 1 0)).1 = Some i /\
    _proxies two_speeds !! i = Some p /\
    healthy p = true /\
    forall j q, _proxies two_speeds !! j = Some q -> healthy q = true ->
      key_lt (performance_key q) (performance_key p) = false.
Proof.
  eapply (performance_picks_best two_speeds (drawn 1 1 0) 0%nat); reflexivity.
Defined.

End ProxyPerformanceTheorems.

(** ** The input validator *)

Section ValidatePathTheorems.
Import Constants InputValidator.
Local Open Scope string_scope.
Local Open Scope list_scope.
Context {Q : Unquote}.

(** [sub in s], one character at a time. *)
Lemma contains_nil (sub : string) :
  Str.contains sub "" = String.prefix sub "".
Proof. cbn [Str.contains]. apply orb_false_r. Qed.

Lemma contains_cons (sub : string) (c : ascii) (s : string) :
  Str.contains sub (String c s)
  = String.prefix sub (String c s) || Str.contains sub s.
Proof. done. Qed.

Lemma prefix_cons (a : ascii) (sub : string) (c : ascii) (s : string) :
  String.prefix (String a sub) (String c s)
  = bool_decide (a = c) && String.prefix sub s.
Proof.
  cbn [String.prefix]. destruct (ascii_dec a c); by case_bool_decide.
Qed.

Lemma prefix_nil_l (s : string) : String.prefix "" s = true.
Proof. by destruct s. Qed.

(** A pattern none of whose characters a character map produces from
    another character is in the image only if it was in the string. *)
Lemma prefix_map_chars (f : ascii -> ascii) (sub : string) : forall s,
  (forall c x, In c (list_ascii_of_string sub) -> f x = c -> x = c) ->
  String.prefix sub (Str.map_chars f s) = true -> String.prefix sub s = true.
Proof.
  induction sub as [|a sub IH]; intros s Hf; [intros _; apply prefix_nil_l|].
  destruct s as [|x s]; [done|].
  change (Str.map_chars f (String x s)) with (String (f x) (Str.map_chars f s)).
  rewrite !prefix_cons. intros H. apply andb_true_iff in H as [Ha Hs].
  apply bool_decide_eq_true in Ha.
  assert (x = a) as -> by (symmetry in Ha; apply (Hf a x); [by left | done]).
  rewrite bool_decide_eq_true_2 by done. apply IH; [|done].
  intros c y Hc. apply Hf. by right.
Qed.

Lemma contains_map_chars (f : ascii -> ascii) (sub : string) (s : string) :
  (forall c x, In c (list_ascii_of_string sub) -> f x = c -> x = c) ->
  Str.contains sub (Str.map_chars f s) = true -> Str.contains sub s = true.
Proof.
  intros Hf. induction s as [|x s IH].
  - change (Str.map_chars f "") with "". done.
  - change (Str.map_chars f (String x s)) with (String (f x) (Str.map_chars f s)).
    rewrite !contains_cons, !orb_true_iff. intros [H|H].
    + left. by apply (prefix_map_chars f sub (String x s)).
    + right. by apply IH.
Qed.

Lemma contains_lstrip (drop : ascii -> bool) (sub s : string) :
  Str.contains sub (Str.lstrip_with drop s) = true -> Str.contains sub s = true.
Proof.
  induction s as [|x s IH]; [done|]. cbn [Str.lstrip_with].
  destruct (drop x); [|done]. intros H.
  rewrite contains_cons, (IH H). apply orb_true_r.
Qed.

Lemma contains_replaced (sub s : string) :
  ~ In "/"%char (list_ascii_of_string sub) ->
  Str.contains sub (Str.lstrip_with (Ascii.eqb "/")
                      (Str.replace_char "\" "/" s)) = true ->
  Str.contains sub s = true.
Proof.
  intros Hsub H. apply contains_lstrip in H.
  unfold Str.replace_char in H.
  apply contains_map_chars in H; [done|].
  intros c x Hc. cbn beta. destruct (Ascii.eqb_spec x "\"%char); [|done].
  intros <-. done.
Qed.

Lemma filter_drops_control (c : ascii) (s : string) :
  control_chars c = true ->
  Str.contains (String c "") (_filter_control_chars s) = false.
Proof.
  intros Hc. induction s as [|x s IH]; [done|]. cbn [_filter_control_chars].
  destruct (control_chars x) eqn:Hx; [done|].
  rewrite contains_cons, prefix_cons, IH.
  rewrite bool_decide_eq_false_2 by congruence. done.
Qed.

Lemma replace_drops_backslash (s : string) :
  Str.contains "\" (Str.replace_char "\" "/" s) = false.
Proof.
  induction s as [|x s IH]; [done|].
  change (Str.replace_char "\" "/" (String x s))
    with (String (if Ascii.eqb x "\" then "/"%char else x)
            (Str.replace_char "\" "/" s)).
  rewrite contains_cons, prefix_cons, IH.
  destruct (Ascii.eqb_spec x "\"%char).
  - by rewrite bool_decide_eq_false_2.
  - rewrite bool_decide_eq_false_2 by congruence. done.
Qed.

Lemma lstrip_slash (s : string) :
  Str.startswith "/" (Str.lstrip_with (Ascii.eqb "/") s) = false.
Proof.
  induction s as [|x s IH]; [done|]. cbn [Str.lstrip_with].
  destruct (Ascii.eqb_spec "/"%char x); [done|].
  unfold Str.startswith. rewrite prefix_cons.
  by rewrite bool_decide_eq_false_2.
Qed.

Lemma length_map_chars (f : ascii -> ascii) (s : string) :
  String.length (Str.map_chars f s) = String.length s.
Proof. induction s as [|x s IH]; [done|]. cbn. by rewrite IH. Qed.

Lemma length_lstrip (drop : ascii -> bool) (s : string) :
  (String.length (Str.lstrip_with drop s) ≤ String.length s)%nat.
Proof.
  induction s as [|x s IH]; [done|]. cbn [Str.lstrip_with].
  destruct (drop x); cbn; lia.
Qed.

Lemma length_filter_control (s : string) :
  (String.length (_filter_control_chars s) ≤ String.length s)%nat.
Proof.
  induction s as [|x s IH]; [done|]. cbn [_filter_control_chars].
  destruct (control_chars x); cbn; lia.
Qed.

Lemma contains_false_of (P : Prop) (sub s : string) :
  (Str.contains sub s = true -> P) -> ~ P -> Str.contains sub s = false.
Proof. destruct (Str.contains sub s); [intros H Hn; by destruct Hn; apply H | done]. Qed.

(** What [normalize_path] gives from a filtered path that holds none of
    the forbidden patterns. *)
Lemma normalize_path_safe (path0 : string) :
  (Z.of_nat (String.length path0) <= MAX_PATH_LENGTH)%Z ->
  let path := _filter_control_chars path0 in
  (forall forbidden, In forbidden FORBIDDEN_PATH_CHARS ->
     Str.contains forbidden path = false) ->
  (normalize_path path).1 = true /\ safe_path (normalize_path path).2.
Proof.
  intros Hlen path Hforbidden. split; [done|].
  unfold normalize_path. cbn [snd].
  assert (Hfree : forall sub, ~ In "/"%char (list_ascii_of_string sub) ->
            Str.contains sub path = false ->
            Str.contains sub (Str.lstrip_with (Ascii.eqb "/")
                                (Str.replace_char "\" "/" path)) = false).
  { intros sub Hsub Hp.
    apply (contains_false_of (Str.contains sub path = true)).
    - by apply contains_replaced.
    - by rewrite Hp. }
  repeat split.
  - apply Hfree; [cbn; intuition discriminate|].
    apply Hforbidden. cbn. tauto.
  - apply (contains_false_of False); [|tauto]. intros H.
    apply contains_lstrip in H. by rewrite replace_drops_backslash in H.
  - apply lstrip_slash.
  - intros c Hc. apply Hfree.
    + cbn. intros [->|[]]. destruct Hc as [Hc|[Hc|Hc]]; by vm_compute in Hc.
    + destruct Hc as [Hc|[Hc|Hc]].
      * by apply filter_drops_control.
      * rewrite <- (ascii_nat_embedding c), Hc. apply Hforbidden. cbn. tauto.
      * rewrite <- (ascii_nat_embedding c), Hc. apply Hforbidden. cbn. tauto.
  - apply Hfree; [cbn; intuition discriminate|]. apply Hforbidden. cbn. tauto.
  - apply Hfree; [cbn; intuition discriminate|]. apply Hforbidden. cbn. tauto.
  - apply Hfree; [cbn; intuition discriminate|]. apply Hforbidden. cbn. tauto.
  - pose proof (length_lstrip (Ascii.eqb "/") (Str.replace_char "\" "/" path)) as H1.
    unfold Str.replace_char in H1. rewrite length_map_chars in H1.
    pose proof (length_filter_control path0). unfold Str.replace_char.
    fold path in H. lia.
Qed.

Lemma validate_path_accepts (path r : string) :
  validate_path path = (true, r) -> safe_path r.
Proof.
  unfold validate_path.
  destruct (bool_decide (path <> "")); cbn [negb]; [|done].
  destruct (Z.ltb_spec MAX_PATH_LENGTH (Z.of_nat (String.length path))); [done|].
  destruct (List.find _ FORBIDDEN_PATH_CHARS) as [forbidden|] eqn:Efind; [done|].
  assert (Hn : (normalize_path (_filter_control_chars path)).1 = true /\
               safe_path (normalize_path (_filter_control_chars path)).2).
  { apply normalize_path_safe; [done|]. intros forbidden Hin.
    by apply (find_none _ _ Efind). }
  destruct (unquote (_filter_control_chars path)) as [decoded_path|e].
  - destruct (existsb _ FORBIDDEN_PATH_CHARS); [done|].
    intros E. rewrite E in Hn. apply Hn.
  - intros E. rewrite E in Hn. apply Hn.
Qed.

(** X16: A path [validate_path] accepts comes back without [..], backslash,
    leading slash, control character, line feed, carriage return, [%00],
    [%0a] or [%0d], and no longer than [MAX_PATH_LENGTH]. *)
Theorem validate_path_result_is_safe (path r : string) :
  validate_path path = (true, r) -> safe_path r.
Proof. apply validate_path_accepts. Qed.

(** The accepted paths, one by one. *)
Lemma validate_paths_list_accepts (paths : list string) :
  Forall safe_path (validate_paths_list paths) /\
  (forall r, r ∈ validate_paths_list paths ->
     exists path, path ∈ paths /\ validate_path path = (true, r)) /\
  (length (validate_paths_list paths) ≤ length paths)%nat.
Proof.
  induction paths as [|path rest (IH1 & IH2 & IH3)].
  - split; [constructor|]. split; [|done]. intros r Hr. by apply elem_of_nil in Hr.
  - cbn [validate_paths_list].
    pose proof (validate_path_accepts path) as Hsafe.
    destruct (validate_path path) as [[] r0] eqn:E; cbn [length].
    + split; [constructor; [by apply Hsafe | done]|]. split; [|lia].
      intros r Hr. apply elem_of_cons in Hr as [->|Hr].
      * exists path. split; [by left | done].
      * destruct (IH2 r Hr) as (p & Hp & Ep). exists p. split; [by right | done].
    + split; [done|]. split; [|lia].
      intros r Hr. destruct (IH2 r Hr) as (p & Hp & Ep).
      exists p. split; [by right | done].
Qed.

(** X17: Every path [validate_paths_list] returns is safe and is what
    [validate_path] made of one of the paths given; the list does not
    grow. *)
Theorem validate_paths_list_safe (paths : list string) :
  Forall safe_path (validate_paths_list paths) /\
  (forall r, r ∈ validate_paths_list paths ->
     exists path, path ∈ paths /\ validate_path path = (true, r)) /\
  (length (validate_paths_list paths) ≤ length paths)%nat.
Proof. apply validate_paths_list_accepts. Qed.

End ValidatePathTheorems.

Section SanitizeTheorems.
Import Constants InputValidator.
Local Open Scope string_scope.
Local Open Scope list_scope.

Lemma all_chars_app (f : ascii -> bool) (a b : string) :
  Str.all_chars f (a +:+ b) = Str.all_chars f a && Str.all_chars f b.
Proof.
  induction a as [|c a IH]; [done|].
  change (f c && Str.all_chars f (a +:+ b)
          = f c && Str.all_chars f a && Str.all_chars f b).
  by rewrite IH, andb_assoc.
Qed.

Lemma all_chars_rev_app (f : ascii -> bool) (s : string) : forall acc,
  Str.all_chars f (String.rev_app s acc) = Str.all_chars f s && Str.all_chars f acc.
Proof.
  induction s as [|c s IH]; intros acc; [done|].
  cbn [String.rev_app Str.all_chars]. rewrite IH. cbn [Str.all_chars].
  by destruct (f c), (Str.all_chars f s), (Str.all_chars f acc).
Qed.

Lemma all_chars_rev (f : ascii -> bool) (s : string) :
  Str.all_chars f (String.rev s) = Str.all_chars f s.
Proof. unfold String.rev. rewrite all_chars_rev_app. apply andb_true_r. Qed.

Lemma all_chars_lstrip (f drop : ascii -> bool) (s : string) :
  Str.all_chars f s = true -> Str.all_chars f (Str.lstrip_with drop s) = true.
Proof.
  induction s as [|c s IH]; [done|]. cbn [Str.lstrip_with].
  destruct (drop c); [|done]. cbn [Str.all_chars].
  intros H. apply andb_true_iff in H as [_ H]. by apply IH.
Qed.

Lemma all_chars_strip (f drop : ascii -> bool) (s : string) :
  Str.all_chars f s = true -> Str.all_chars f (Str.strip_with drop s) = true.
Proof.
  intros H. unfold Str.strip_with.
  rewrite all_chars_rev. apply all_chars_lstrip.
  rewrite all_chars_rev. by apply all_chars_lstrip.
Qed.

Lemma all_chars_filter_control (s : string) :
  Str.all_chars (fun c => negb (control_chars c)) (_filter_control_chars s) = true.
Proof.
  induction s as [|c s IH]; [done|]. cbn [_filter_control_chars].
  destruct (control_chars c) eqn:E; [done|]. cbn [Str.all_chars]. by rewrite E.
Qed.

Lemma all_chars_map (f : ascii -> bool) (g : ascii -> ascii) (s : string) :
  Str.all_chars f (Str.map_chars g s) = Str.all_chars (fun c => f (g c)) s.
Proof.
  induction s as [|c s IH]; [done|].
  change (f (g c) && Str.all_chars f (Str.map_chars g s)
          = f (g c) && Str.all_chars (fun c => f (g c)) s).
  by rewrite IH.
Qed.

Lemma all_chars_impl (f g : ascii -> bool) (s : string) :
  (forall c, f c = true -> g c = true) ->
  Str.all_chars f s = true -> Str.all_chars g s = true.
Proof.
  intros Hfg. induction s as [|c s IH]; [done|]. cbn [Str.all_chars].
  intros H. apply andb_true_iff in H as [Hc Hs].
  by rewrite (Hfg c Hc), (IH Hs).
Qed.

Lemma all_chars_of_list (f : ascii -> bool) (l : list ascii) :
  Str.all_chars f (string_of_list_ascii l) = forallb f l.
Proof. induction l as [|c l IH]; [done|]. cbn. by rewrite IH. Qed.

Lemma forallb_to_list (f : ascii -> bool) (s : string) :
  forallb f (list_ascii_of_string s) = Str.all_chars f s.
Proof. induction s as [|c s IH]; [done|]. cbn. by rewrite IH. Qed.

Lemma all_chars_slice (f : ascii -> bool) (m : Z) (s : string) :
  Str.all_chars f s = true -> Str.all_chars f (Str.slice_string_to m s) = true.
Proof.
  intros H. unfold Str.slice_string_to. rewrite all_chars_of_list.
  rewrite <- forallb_to_list in H. rewrite forallb_forall in *.
  intros c Hc. apply H. apply list_elem_of_In.
  apply list_elem_of_In in Hc. unfold Str.slice_to in Hc.
  destruct (0 <=? m)%Z; eapply elem_of_sublist; try exact Hc; apply sublist_take.
Qed.

(** [split_last_dot] cuts the string in two. *)
Lemma split_last_dot_app (p name ext : string) :
  split_last_dot p = Some (name, ext) -> p = name +:+ ext.
Proof.
  revert name ext. induction p as [|c p IH]; intros name ext; [done|].
  cbn [split_last_dot].
  destruct (split_last_dot p) as [[name' ext']|].
  - intros [= <- <-]. by rewrite (IH name' ext').
  - destruct (Ascii.eqb c "."); [|done]. by intros [= <- <-].
Qed.

Lemma splitext_app (p : string) : p = (splitext p).1 +:+ (splitext p).2.
Proof.
  unfold splitext. destruct (split_last_dot p) as [[name ext]|] eqn:E.
  - destruct (Str.all_chars _ name); cbn [fst snd].
    + by rewrite string_app_nil_r.
    + by apply split_last_dot_app.
  - cbn [fst snd]. by rewrite string_app_nil_r.
Qed.

Lemma all_chars_absent (f : ascii -> bool) (c : ascii) (s : string) :
  Str.all_chars f s = true -> f c = false ->
  Str.contains (String c "") s = false.
Proof.
  intros Hs Hc. induction s as [|x s IH]; [done|].
  cbn [Str.all_chars] in Hs. apply andb_true_iff in Hs as [Hx Hs].
  rewrite contains_cons, prefix_cons, (IH Hs).
  rewrite bool_decide_eq_false_2 by congruence. done.
Qed.

(** Replacing each character of a list by an underscore leaves none of
    them. *)
Lemma fold_replace_all (chars : list ascii) : forall (P : ascii -> bool) (s : string),
  "_"%char ∉ chars -> P "_"%char = true ->
  Str.all_chars P s = true ->
  Str.all_chars (fun c => P c && negb (bool_decide (c ∈ chars)))
    (fold_left (fun filename char => Str.replace_char char "_" filename) chars s)
  = true.
Proof.
  induction chars as [|a rest IH]; intros P s Hnot HP Hs; cbn [fold_left].
  - eapply all_chars_impl; [|exact Hs]. intros c Hc.
    rewrite Hc. by rewrite bool_decide_eq_false_2 by apply not_elem_of_nil.
  - apply not_elem_of_cons in Hnot as [Hne Hnot].
    specialize (IH (fun c => P c && negb (bool_decide (c = a)))
                   (Str.replace_char a "_" s) Hnot).
    eapply all_chars_impl; [|apply IH].
    + intros c Hc. apply andb_true_iff in Hc as [Hc Hr].
      apply andb_true_iff in Hc as [Hc Ha]. rewrite Hc. cbn [andb].
      apply negb_true_iff, bool_decide_eq_false in Ha, Hr.
      apply negb_true_iff, bool_decide_eq_false.
      intros Hin. apply elem_of_cons in Hin as [?|?]; done.
    + rewrite HP. cbn [andb]. apply negb_true_iff.
      by apply bool_decide_eq_false_2.
    + unfold Str.replace_char. rewrite all_chars_map.
      eapply all_chars_impl; [|exact Hs]. intros c Hc. cbn beta.
      destruct (Ascii.eqb_spec c a) as [->|Hca].
      * rewrite HP. cbn [andb]. apply negb_true_iff.
        by apply bool_decide_eq_false_2.
      * rewrite Hc. cbn [andb]. apply negb_true_iff.
        by apply bool_decide_eq_false_2.
Qed.

Lemma clean_filename_wanted (filename : string) :
  Str.all_chars (fun c => negb (unwanted c)) (clean_filename filename) = true.
Proof.
  unfold clean_filename. apply all_chars_strip.
  change (fold_left _ invalid_chars
            (Str.replace_char "\" "_"
               (Str.replace_char "/" "_" (_filter_control_chars filename))))
    with (fold_left (fun filename char => Str.replace_char char "_" filename)
            (["/"; "\"]%char ++ invalid_chars)
            (_filter_control_chars filename)).
  eapply all_chars_impl; [|apply fold_replace_all with
                             (P := fun c => negb (control_chars c))].
  - intros c Hc. unfold unwanted. apply andb_true_iff in Hc as [Hc Hin].
    apply negb_true_iff in Hc. rewrite Hc. exact Hin.
  - apply (bool_decide_unpack _). by vm_compute.
  - done.
  - apply all_chars_filter_control.
Qed.

Lemma sanitize_filename_wanted (filename : string) :
  Str.all_chars (fun c => negb (unwanted c)) (sanitize_filename filename) = true.
Proof.
  unfold sanitize_filename.
  destruct (bool_decide (filename <> "")); cbn [negb]; [|by vm_compute].
  pose proof (clean_filename_wanted filename) as Hc.
  set (cleaned := clean_filename filename) in *.
  assert (H : Str.all_chars (fun c => negb (unwanted c))
                (if (MAX_FILENAME_LENGTH <? Z.of_nat (String.length cleaned))%Z
                 then let '(name, ext) := splitext cleaned in
                      Str.slice_string_to
                        (MAX_FILENAME_LENGTH - Z.of_nat (String.length ext)) name
                      +:+ ext
                 else cleaned) = true).
  { destruct (_ <? _)%Z; [|done].
    rewrite (splitext_app cleaned), all_chars_app in Hc.
    destruct (splitext cleaned) as [name ext]. cbn [fst snd] in Hc.
    apply andb_true_iff in Hc as [Hn He].
    rewrite all_chars_app, He, all_chars_slice; done. }
  cbn zeta. destruct (bool_decide _); [exact H | by vm_compute].
Qed.

(** X18: [sanitize_filename] never returns the empty name, and what it returns
    holds no control character, no slash or backslash and none of the
    characters of [invalid_chars]. *)
Theorem sanitize_filename_clean (filename : string) (c : ascii) :
  sanitize_filename filename <> "" /\
  (unwanted c = true ->
   Str.contains (String c "") (sanitize_filename filename) = false).
Proof.
  split.
  - unfold sanitize_filename.
    destruct (bool_decide (filename <> "")); cbn [negb]; [|done].
    cbn zeta. case_bool_decide; done.
  - intros Hc. apply (all_chars_absent _ c _ (sanitize_filename_wanted filename)).
    by rewrite Hc.
Qed.


Lemma length_to_list (s : string) :
  length (list_ascii_of_string s) = String.length s.
Proof. induction s as [|c s IH]; [done|]. cbn. by rewrite IH. Qed.


End SanitizeTheorems.

Section InputValidatorExamples.
Import InputValidator.
Local Open Scope string_scope.

(** Leading slashes and a backslash. *)
Lemma validate_path_result_is_safe_witness : safe_path "admin/login.php".
Proof.
  apply (@validate_path_result_is_safe unquote_plain "//admin\login.php").
  reflexivity.
Defined.


End InputValidatorExamples.

(** ** From the wordlist to the scanner *)

Section ScanTheorems.
Import Finder Scan.
Local Open Scope string_scope.
Local Open Scope list_scope.
Context {Q : Unquote} {L : SetListing} {R : Shuffle}.

Lemma stealth_paths_elem (paths : list string) (p : string) :
  p ∈ stealth_paths paths -> p ∈ paths.
Proof.
  rewrite stealth_paths_split, elem_of_app. intros [Hp|Hp].
  - assert (Hin : p ∈ prioritized paths)
      by (eapply elem_of_sublist; [exact Hp | apply sublist_take]).
    by apply prioritized_elem in Hin as [? _].
  - assert (Hin : p ∈ shuffle (listing (remaining paths)))
      by (eapply elem_of_sublist; [exact Hp | apply sublist_take]).
    rewrite shuffle_perm in Hin. apply elem_of_listing in Hin.
    by apply remaining_elem in Hin as [? _].
Qed.

Lemma stealth_paths_length (paths : list string) :
  (length (stealth_paths paths) ≤ 500)%nat.
Proof. rewrite stealth_paths_split, length_app, !length_take. lia. Qed.

(** The shaping by detection mode: nothing new, never more than given, at
    most 1000 in simple mode and 500 in stealth mode, everything in the
    other modes. *)
Lemma shape_paths_limits (detection_mode : string) (paths : list string) :
  (forall p, p ∈ shape_paths detection_mode paths -> p ∈ paths) /\
  (length (shape_paths detection_mode paths) ≤ length paths)%nat /\
  (detection_mode = "simple" ->
   (length (shape_paths detection_mode paths) ≤ 1000)%nat) /\
  (detection_mode = "stealth" ->
   (length (shape_paths detection_mode paths) ≤ 500)%nat) /\
  (detection_mode <> "simple" -> detection_mode <> "stealth" ->
   shape_paths detection_mode paths = paths).
Proof.
  pose proof (stealth_paths_length paths) as Hst.
  unfold shape_paths.
  destruct (String.eqb_spec detection_mode "simple") as [->|Hs]; cbn [andb];
    [change (String.eqb "simple" "stealth") with false; cbn [andb]
    |destruct (String.eqb_spec detection_mode "stealth") as [->|Ht]; cbn [andb]].
  - destruct (Nat.ltb_spec 1000 (length paths));
      (split; [|split; [|split; [|split]]]);
      try done; try (intros; rewrite ?length_take; lia).
    intros p Hp. eapply elem_of_sublist; [exact Hp | apply sublist_take].
  - destruct (Nat.ltb_spec 500 (length paths));
      (split; [|split; [|split; [|split]]]);
      try done; try (intros; lia).
    apply stealth_paths_elem.
  - by repeat split.
Qed.

Lemma length_read_wordlist (lines : list string) :
  (length (read_wordlist lines) ≤ length lines)%nat.
Proof.
  unfold read_wordlist. rewrite length_map.
  induction lines as [|l lines IH]; [done|]. cbn [List.filter].
  destruct (_ && _); cbn [length]; lia.
Qed.

Lemma length_filter_le {A} (f : A -> bool) (l : list A) :
  (length (List.filter f l) ≤ length l)%nat.
Proof.
  induction l as [|x l IH]; [done|]. cbn [List.filter].
  destruct (f x); cbn [length]; lia.
Qed.

(** X20: From the lines of a text wordlist to the scanner. Without fuzzing
    every path scanned is safe and there are no more paths than lines;
    with fuzzing there are at most 49 per line; and in every case at most
    1000 paths are scanned in simple mode and at most 500 in stealth
    mode. *)
Theorem scan_paths_limits (USE_PATH_FUZZING : bool) (FUZZING_DEPTH : Z)
    (DETECTION_MODE : string) (lines : list string) :
  Forall InputValidator.safe_path
    (scan_paths false FUZZING_DEPTH DETECTION_MODE lines) /\
  (length (scan_paths USE_PATH_FUZZING FUZZING_DEPTH DETECTION_MODE lines)
   ≤ (if USE_PATH_FUZZING then 49 else 1) * length lines)%nat /\
  (length (scan_paths USE_PATH_FUZZING FUZZING_DEPTH "simple" lines) ≤ 1000)%nat /\
  (length (scan_paths USE_PATH_FUZZING FUZZING_DEPTH "stealth" lines) ≤ 500)%nat.
Proof.
  unfold scan_paths. cbn zeta.
  set (valid := InputValidator.validate_paths_list
                  (List.filter (fun p => bool_decide (p <> "")) (read_wordlist lines))).
  assert (Hvalid : Forall InputValidator.safe_path valid /\
                   (length valid ≤ length lines)%nat).
  { destruct (validate_paths_list_accepts
                (List.filter (fun p => bool_decide (p <> "")) (read_wordlist lines)))
      as (Hs & _ & Hl). split; [exact Hs|].
    pose proof (length_filter_le (fun p => bool_decide (p <> ""))
                  (read_wordlist lines)).
    pose proof (length_read_wordlist lines). unfold valid. lia. }
  destruct Hvalid as [Hsafe Hlen].
  split; [|split; [|split]].
  - destruct (shape_paths_limits DETECTION_MODE valid) as (Hin & _).
    apply Forall_forall. intros p Hp. rewrite Forall_forall in Hsafe.
    by apply Hsafe, Hin.
  - set (fuzzed := if USE_PATH_FUZZING then _ else valid).
    destruct (shape_paths_limits DETECTION_MODE fuzzed) as (_ & Hle & _).
    assert (length fuzzed ≤ (if USE_PATH_FUZZING then 49 else 1) * length lines)%nat;
      [|lia].
    unfold fuzzed. destruct USE_PATH_FUZZING; [|lia].
    destruct (fuzz_paths_cover FUZZING_DEPTH true true true true 50 valid)
      as (_ & _ & _ & Hf); [lia|].
    unfold get_fuzzer. lia.
  - set (fuzzed := if USE_PATH_FUZZING then _ else valid).
    by destruct (shape_paths_limits "simple" fuzzed) as (_ & _ & H & _); apply H.
  - set (fuzzed := if USE_PATH_FUZZING then _ else valid).
    by destruct (shape_paths_limits "stealth" fuzzed) as (_ & _ & _ & H & _); apply H.
Qed.

End ScanTheorems.

(** ** The admin boost *)

Section DetectionTheorems.
Import Detection.
Local Open Scope Q_scope.
Context {R : Regex} {J : Json} {D : DictStr}.

Lemma add_all_ge (boosts : list Q) : forall start : Q,
  Forall (fun b => 0 <= b) boosts -> start <= add_all start boosts.
Proof.
  unfold add_all. induction boosts as [|b rest IH]; intros start Hall; cbn.
  - lra.
  - inversion Hall as [|? ? Hb Hrest]; subst.
    specialize (IH (start + b) Hrest). lra.
Qed.

Lemma admin_patterns_nonneg :
  Forall (fun pb : string * Q => 0 <= pb.2) admin_patterns.
Proof. unfold admin_patterns. repeat constructor; by vm_compute. Qed.

Lemma raw_boost_nonneg (all_endpoints : list (string * list EndpointInfo))
    (content : string) (hs : headers) :
  0 <= raw_boost all_endpoints content hs.
Proof.
  unfold raw_boost.
  set (a := add_all 0 _). set (b := add_all a _).
  assert (Ha : 0 <= a).
  { apply (add_all_ge _ 0). apply Forall_fmap, Forall_true. intros; by vm_compute. }
  assert (Hb : a <= b).
  { apply add_all_ge. apply Forall_fmap. unfold matched_admin_patterns.
    apply Forall_forall. intros pb Hpb. cbn.
    apply list_elem_of_In, filter_In in Hpb as [Hpb _].
    pose proof admin_patterns_nonneg as Hall. rewrite Forall_forall in Hall.
    by apply Hall, list_elem_of_In. }
  assert (Hc : b <= add_all b (map (fun _ => 2 # 100)
                                 (found_security_features content hs))).
  { apply add_all_ge. apply Forall_fmap, Forall_true. intros; by vm_compute. }
  lra.
Qed.

(** Whenever [analyze_admin_potential] returns, the boost it returns lies
    between 0 and 0.4. *)
Lemma admin_boost_clamped (content title url : string) (hs : headers)
    (boost : Q) (details : admin_details) :
  analyze_admin_potential content title url hs = Py.Ok (boost, details) ->
  0 <= boost /\ boost <= 4 # 10.
Proof.
  unfold analyze_admin_potential.
  destruct (detect_all content hs url) as [all_endpoints|e]; cbn [Py.bind]; [|done].
  intros [= <- _].
  pose proof (raw_boost_nonneg all_endpoints content hs).
  destruct (min_cases (raw_boost all_endpoints content hs) (4 # 10))
    as [[? ->]|[? ->]]; lra.
Qed.

(** It returns for every body that holds neither of the two quoted words
    that send [RESTAPIDetector.detect] to [json.loads]. *)
Lemma admin_boost_returns (content title url : string) (hs : headers) :
  Str.contains (Str.dquote +:+ "swagger" +:+ Str.dquote) content = false ->
  Str.contains (Str.dquote +:+ "openapi" +:+ Str.dquote) content = false ->
  exists boost details,
    analyze_admin_potential content title url hs = Py.Ok (boost, details) /\
    0 <= boost /\ boost <= 4 # 10.
Proof.
  intros Hs Ho.
  assert (E : exists r, analyze_admin_potential content title url hs = Py.Ok r).
  { unfold analyze_admin_potential, detect_all, rest_detect.
    rewrite Hs, Ho. cbn. by eexists. }
  destruct E as [[boost details] E]. exists boost, details.
  split; [done|]. by eapply admin_boost_clamped.
Qed.

(** C6 fails on the code for a body that [json.loads] decodes to a value
    that is not a dictionary and that passes the test
    ['swagger' in api_spec]: the detector calls [api_spec.get], the
    [AttributeError] is not the [JSONDecodeError] the [try] catches, and
    [analyze_admin_potential] raises instead of returning a boost. Here the
    value is a string. *)
Theorem admin_boost_raises_on_json_string (content title url : string)
    (hs : headers) (s : string) :
  Str.contains (Str.dquote +:+ "swagger" +:+ Str.dquote) content = true ->
  json_loads content = Py.Ok (JString s) ->
  Str.contains "swagger" s = true ->
  analyze_admin_potential content title url hs
  = Py.Raise (Py.AttributeError "object has no attribute 'get'").
Proof.
  intros Hc Hj Hs.
  unfold analyze_admin_potential, detect_all, rest_detect.
  rewrite Hc, Hj. cbn [orb].
  unfold swagger_endpoint. cbn [json_contains Py.bind]. by rewrite Hs.
Qed.

End DetectionTheorems.

Section DetectionExamples.
Import Detection.

(** The body that is the JSON string [swagger], quotes included. *)
Lemma admin_boost_raises_on_json_string_witness :
  @analyze_admin_potential no_match loads_swagger_string str_empty
    json_string_body "Swagger" "http://target.example/api" []
  = Py.Raise (Py.AttributeError "object has no attribute 'get'").
Proof.
  apply (@admin_boost_raises_on_json_string no_match loads_swagger_string
           str_empty json_string_body _ _ _ "swagger").
  - reflexivity.
  - reflexivity.
  - reflexivity.
Defined.

End DetectionExamples.

(** ** The endpoints the detectors report *)

Section DetectAllTheorems.
Import Detection.
Local Open Scope Q_scope.
Context {R : Regex} {J : Json} {D : DictStr}.

Lemma Forall_if_singleton {A} (P : A -> Prop) (b : bool) (x : A) :
  P x -> Forall P (if b then [x] else []).
Proof. intros H. destruct b; by repeat constructor. Qed.

Lemma counted_confidence (cap base : Q) (n : Z) :
  (2 <= n)%Z -> 6 # 10 <= cap -> cap <= 95 # 100 -> 4 # 10 <= base ->
  6 # 10 <= Py.min cap (base + inject_Z n * (1 # 10)) /\
  Py.min cap (base + inject_Z n * (1 # 10)) <= 95 # 100.
Proof.
  intros Hn Hc1 Hc2 Hb.
  assert (2 <= inject_Z n) by (change 2 with (inject_Z 2); by rewrite <- Zle_Qle).
  destruct (min_cases cap (base + inject_Z n * (1 # 10))) as [[? ->]|[? ->]]; lra.
Qed.

Lemma websocket_reported (content : string) (hs : headers) (url : string) :
  Forall (reported_as "websocket") (websocket_detect content hs url).
Proof.
  unfold websocket_detect. apply Forall_app. split.
  - apply Forall_if_singleton. by repeat split.
  - apply Forall_flat_map, Forall_forall. intros pattern _.
    apply Forall_flat_map, Forall_forall. intros m _.
    apply Forall_if_singleton. by repeat split.
Qed.

Lemma graphql_reported (content : string) (hs : headers) (url : string) :
  Forall (reported_as "graphql") (graphql_detect content hs url).
Proof.
  unfold graphql_detect. cbn zeta. repeat (apply Forall_app; split).
  - apply Forall_if_singleton. by repeat split.
  - destruct (Z.leb_spec 2 (count_in graphql_indicators content)); [|constructor].
    constructor; [|constructor]. split; [done|].
    cbn [confidence]. apply counted_confidence; (done || lra).
  - apply Forall_if_singleton. by repeat split.
Qed.

Lemma soap_reported (content : string) (hs : headers) (url : string) :
  Forall (reported_as "soap") (soap_detect content hs url).
Proof.
  unfold soap_detect. cbn zeta. repeat (apply Forall_app; split);
    apply Forall_if_singleton; by repeat split.
Qed.

Lemma swagger_reported (api_spec : json) (url : string) (es : list EndpointInfo) :
  swagger_endpoint api_spec url = Py.Ok es -> Forall (reported_as "rest_api") es.
Proof.
  unfold swagger_endpoint.
  destruct (json_contains "swagger" api_spec) as [has_swagger|]; cbn [Py.bind];
    [|done].
  destruct (if has_swagger then _ else _) as [[]|]; cbn [Py.bind]; [| |done].
  - destruct (json_get "swagger" api_spec) as [swagger|]; cbn [Py.bind]; [|done].
    destruct (if json_truthy swagger then _ else _) as [version|]; cbn [Py.bind];
      [|done].
    destruct (json_get "info" api_spec) as [info|]; cbn [Py.bind]; [|done].
    destruct (json_get "title" _) as [title|]; cbn [Py.bind]; [|done].
    intros [= <-]. by repeat constructor.
  - intros [= <-]. constructor.
Qed.

Lemma rest_reported (content : string) (hs : headers) (url : string) :
  match rest_detect content hs url with
  | Py.Ok es => Forall (reported_as "rest_api") es
  | Py.Raise _ =>
      Str.contains (Str.dquote +:+ "swagger" +:+ Str.dquote) content
      || Str.contains (Str.dquote +:+ "openapi" +:+ Str.dquote) content = true
  end.
Proof.
  unfold rest_detect. cbn zeta.
  destruct (Str.contains (Str.dquote +:+ "swagger" +:+ Str.dquote) content
            || Str.contains (Str.dquote +:+ "openapi" +:+ Str.dquote) content)
    eqn:Eis.
  - destruct (json_loads content) as [api_spec|e].
    + pose proof (swagger_reported api_spec url) as Hs.
      destruct (swagger_endpoint api_spec url) as [es|e]; cbn [Py.bind]; [|done].
      repeat (apply Forall_app; split).
      * by apply Hs.
      * destruct (Z.leb_spec 2 (count_in (map Str.lower api_indicators)
                                   (Str.lower content))); [|constructor].
        constructor; [|constructor]. split; [done|].
        cbn [confidence]. apply counted_confidence; (done || lra).
      * apply Forall_if_singleton. by repeat split.
    + assert (Hrest : Forall (reported_as "rest_api")
                ([] ++ (if (2 <=? count_in (map Str.lower api_indicators)
                                    (Str.lower content))%Z
                        then [mkEndpointInfo url "rest_api"
                                (Py.min (85 # 100)
                                   ((4 # 10)
                                    + inject_Z (count_in (map Str.lower api_indicators)
                                                  (Str.lower content)) * (1 # 10)))
                                [("source", DStr "content");
                                 ("indicator_count",
                                  DInt (count_in (map Str.lower api_indicators)
                                          (Str.lower content)))]]
                        else [])
                    ++ (if Str.contains "x-api-key" (Str.lower (str_dict hs))
                           || Str.contains "x-ratelimit" (Str.lower (str_dict hs))
                        then [mkEndpointInfo url "rest_api" (7 # 10)
                                [("source", DStr "headers")]]
                        else []))).
      { repeat (apply Forall_app; split); [constructor | |].
        - destruct (Z.leb_spec 2 (count_in (map Str.lower api_indicators)
                                    (Str.lower content))); [|constructor].
          constructor; [|constructor]. split; [done|].
          cbn [confidence]. apply counted_confidence; (done || lra).
        - apply Forall_if_singleton. by repeat split. }
      destruct e; cbn [Py.bind]; done.
  - cbn [Py.bind]. repeat (apply Forall_app; split); [constructor | |].
    + destruct (Z.leb_spec 2 (count_in (map Str.lower api_indicators)
                                 (Str.lower content))); [|constructor].
      constructor; [|constructor]. split; [done|].
      cbn [confidence]. apply counted_confidence; (done || lra).
    + apply Forall_if_singleton. by repeat split.
Qed.

(** X21: [detect_all] either returns its four lists, under the keys websocket,
    graphql, rest_api and soap in this order, every endpoint in a list
    with the type of its key and a confidence from 0.6 to 0.95; or it
    raises, which it can only do for a body that holds one of the quoted
    words that send [RESTAPIDetector.detect] to [json.loads]. *)
Theorem detect_all_reports (content : string) (hs : headers) (url : string) :
  match detect_all content hs url with
  | Py.Ok all_endpoints =>
      map fst all_endpoints = ["websocket"; "graphql"; "rest_api"; "soap"]%string /\
      Forall (fun te : string * list EndpointInfo =>
                Forall (reported_as te.1) te.2) all_endpoints
  | Py.Raise _ =>
      Str.contains (Str.dquote +:+ "swagger" +:+ Str.dquote) content
      || Str.contains (Str.dquote +:+ "openapi" +:+ Str.dquote) content = true
  end.
Proof.
  unfold detect_all. cbn zeta.
  pose proof (rest_reported content hs url) as Hr.
  destruct (rest_detect content hs url) as [rest_api|e]; cbn [Py.bind]; [|done].
  split; [done|].
  repeat constructor; cbn [fst snd];
    [apply websocket_reported | apply graphql_reported | done | apply soap_reported].
Qed.

End DetectAllTheorems.

(** ** The exported results and the detection modes *)


Section ExporterTheorems.
Import Exporter.
Local Open Scope string_scope.
Local Open Scope list_scope.

Lemma find_none_intro {A} (f : A -> bool) (l : list A) :
  (forall x, In x l -> f x = false) -> List.find f l = None.
Proof.
  induction l as [|x l IH]; intros H; [done|]. cbn [List.find].
  rewrite (H x) by (by left). apply IH. intros y Hy. apply H. by right.
Qed.

(** What the loop over the fields does to one key. *)
Lemma fill_fields_lookup (fields : list (string * json)) :
  forall (r : gmap string json) (k : string),
    NoDup (map fst fields) ->
    Forall (fun fd : string * json => is_none fd.2 = false) fields ->
    fold_left fill_field fields r !! k
    = match r !! k with
      | Some value =>
          if is_none value
          then match List.find (fun fd : string * json => String.eqb fd.1 k) fields with
               | Some fd => Some fd.2
               | None => Some value
               end
          else Some value
      | None => snd <$> List.find (fun fd : string * json => String.eqb fd.1 k) fields
      end.
Proof.
  induction fields as [|[f d] fields IH]; intros r k Hnd Hd; cbn [fold_left List.find].
  - by destruct (r !! k) as [[]|].
  - inversion Hnd as [|? ? Hf Hnd']; subst. inversion Hd as [|? ? Hd0 Hd']; subst.
    cbn [fst snd] in *. rewrite IH by done. unfold fill_field. cbn [fst snd].
    assert (Hfind : forall k', k' = f ->
              List.find (fun fd : string * json => String.eqb fd.1 k') fields = None).
    { intros k' ->. apply find_none_intro. intros [f' d'] Hin. cbn.
      apply String.eqb_neq. intros ->. apply Hf.
      apply list_elem_of_fmap. exists (f, d'). split; [done|].
      by apply list_elem_of_In. }
    destruct (String.eqb_spec f k) as [->|Hne].
    + rewrite (Hfind k eq_refl).
      destruct (r !! k) as [value|] eqn:Er.
      * destruct (is_none value) eqn:En.
        -- rewrite lookup_insert_eq. cbn. by rewrite Hd0.
        -- rewrite Er. by rewrite En.
      * rewrite lookup_insert_eq. cbn. by rewrite Hd0.
    + assert (Hk : forall r' : gmap string json,
                (match r !! f with
                 | Some value => if is_none value then <[f:=d]> r else r
                 | None => <[f:=d]> r
                 end) !! k = r !! k).
      { intros _. destruct (r !! f) as [value|]; [destruct (is_none value)|];
          by rewrite ?lookup_insert_ne. }
      by rewrite (Hk r).
Qed.

Lemma find_field (fields : list (string * json)) (k : string) :
  k ∈ map fst fields ->
  exists fd, List.find (fun fd : string * json => String.eqb fd.1 k) fields = Some fd /\
    fd ∈ fields.
Proof.
  induction fields as [|[f d] fields IH]; intros Hk; [by apply elem_of_nil in Hk|].
  cbn [List.find fst]. destruct (String.eqb_spec f k) as [->|Hne].
  - exists (k, d). split; [done | by left].
  - cbn in Hk. apply elem_of_cons in Hk as [->|Hk]; [done|].
    destruct (IH Hk) as (fd & E & Hin). exists fd. split; [done | by right].
Qed.

Lemma required_fields_distinct : NoDup (map fst required_fields).
Proof. apply (bool_decide_unpack _). by vm_compute. Qed.

Lemma required_fields_not_none :
  Forall (fun fd : string * json => is_none fd.2 = false) required_fields.
Proof. by repeat constructor. Qed.

(** What the loop makes of a dictionary [r1] that agrees with [r] outside
    the server field. *)
Lemma filled_fields (r r1 : gmap string json) :
  (forall k, k <> "server" -> r1 !! k = r !! k) ->
  let safe := fold_left fill_field required_fields r1 in
  (forall field, field ∈ map fst required_fields ->
     exists v, safe !! field = Some v /\ is_none v = false) /\
  (forall k v, k <> "server" -> r !! k = Some v -> is_none v = false ->
     safe !! k = Some v) /\
  (forall k, k ∉ map fst required_fields -> safe !! k = r !! k) /\
  (forall v, r1 !! "server" = Some v -> is_none v = false ->
     safe !! "server" = Some v).
Proof.
  intros Hr1. cbn zeta.
  pose proof (fun k => fill_fields_lookup required_fields r1 k
                         required_fields_distinct required_fields_not_none) as Hl.
  split; [|split; [|split]].
  - intros field Hin. rewrite Hl.
    destruct (find_field required_fields field Hin) as (fd & -> & Hfd).
    pose proof required_fields_not_none as Hnn. rewrite Forall_forall in Hnn.
    destruct (r1 !! field) as [value|]; [destruct (is_none value) eqn:En|].
    + exists fd.2. split; [done|]. by apply Hnn.
    + by exists value.
    + exists fd.2. split; [done|]. by apply Hnn.
  - intros k v Hk Hv Hn. by rewrite Hl, (Hr1 k Hk), Hv, Hn.
  - intros k Hk.
    assert (Hks : k <> "server").
    { intros ->. apply Hk. apply (bool_decide_unpack _). by vm_compute. }
    assert (Hfind : List.find (fun fd : string * json => String.eqb fd.1 k)
                      required_fields = None).
    { apply find_none_intro. intros [f d] Hin. cbn. apply String.eqb_neq.
      intros ->. apply Hk. apply list_elem_of_fmap. exists (k, d).
      split; [done | by apply list_elem_of_In]. }
    rewrite Hl, Hfind, (Hr1 k Hks).
    by destruct (r !! k) as [value|]; [destruct (is_none value)|].
  - intros v Hv Hn. by rewrite Hl, Hv, Hn.
Qed.

(** X22: [_ensure_result_has_required_fields] either returns a dictionary in
    which each of the twelve required fields has a value other than [None],
    every entry of the result that was not [None] is kept (but for the
    server field), the other keys are as they were, and the server field
    is the [Server] entry of the headers when they are a dictionary with
    such an entry other than [None]; or it raises, which it does only for
    a result whose [headers] entry is not a dictionary, and does for one
    whose [headers] entry is [None]. *)
Theorem ensure_required_fields (r : gmap string json) :
  match _ensure_result_has_required_fields r with
  | Py.Ok safe =>
      (forall field, field ∈ map fst required_fields ->
         exists v, safe !! field = Some v /\ is_none v = false) /\
      (forall k v, k <> "server" -> r !! k = Some v -> is_none v = false ->
         safe !! k = Some v) /\
      (forall k, k ∉ map fst required_fields -> safe !! k = r !! k) /\
      (forall members kv,
         r !! "headers" = Some (JObject members) ->
         List.find (fun kv : string * json => String.eqb kv.1 "Server") members
         = Some kv ->
         is_none kv.2 = false -> safe !! "server" = Some kv.2)
  | Py.Raise _ =>
      exists headers, r !! "headers" = Some headers /\
        forall members, headers <> JObject members
  end /\
  (r !! "headers" = Some JNull ->
   exists message,
     _ensure_result_has_required_fields r = Py.Raise (Py.TypeError message)).
Proof.
  unfold _ensure_result_has_required_fields, server_from_headers.
  split; [|intros ->; by eexists].
  destruct (r !! "headers") as [headers|] eqn:Eh.
  - destruct headers as [|b|n|s|items|members]; cbn [Detection.json_contains Py.bind];
      try (by eexists; split; [done|]).
    + (* a string *)
      destruct (Str.contains "Server" s); cbn [json_subscript Py.bind].
      * by eexists; split; [done|].
      * destruct (filled_fields r r) as (H1 & H2 & H3 & _); [done|].
        split; [done|]. split; [done|]. split; [done|]. by intros members kv [=].
    + (* a list *)
      destruct (existsb _ items); cbn [json_subscript Py.bind].
      * by eexists; split; [done|].
      * destruct (filled_fields r r) as (H1 & H2 & H3 & _); [done|].
        split; [done|]. split; [done|]. split; [done|]. by intros members kv [=].
    + (* a dictionary *)
      destruct (existsb _ members) eqn:Eex; cbn [json_subscript Py.bind].
      * destruct (List.find _ members) as [kv|] eqn:Ef.
        -- cbn [Py.bind].
           destruct (filled_fields r (<["server" := kv.2]> r)) as (H1 & H2 & H3 & H4).
           { intros k Hk. by rewrite lookup_insert_ne. }
           split; [done|]. split; [done|]. split; [done|].
           intros members' kv' [= <-] Ef' Hn. rewrite Ef in Ef'.
           injection Ef' as <-. apply H4; [|done]. by rewrite lookup_insert_eq.
        -- apply existsb_exists in Eex as (kv & Hin & Hkv).
           by rewrite (find_none _ _ Ef kv Hin) in Hkv.
      * destruct (filled_fields r r) as (H1 & H2 & H3 & _); [done|].
        split; [done|]. split; [done|]. split; [done|].
        intros members' kv' [= <-] Ef' Hn.
        apply find_some in Ef' as [Hin Hkv].
        assert (Hex : existsb (fun kv : string * json => String.eqb kv.1 "Server")
                        members = true)
          by (apply existsb_exists; by exists kv').
        congruence.
  - cbn [Py.bind]. destruct (filled_fields r r) as (H1 & H2 & H3 & _); [done|].
    split; [done|]. split; [done|]. split; [done|]. by intros members kv [=].
Qed.

End ExporterTheorems.

Section ConfigTheorems.
Import Config.
Local Open Scope string_scope.
Local Open Scope list_scope.

Lemma fill_keys_lookup (kvs : list (string * setting)) :
  forall (config : gmap string setting) (k : string),
    fold_left fill_key kvs config !! k
    = match config !! k with
      | Some v => Some v
      | None => snd <$> List.find (fun kv : string * setting => String.eqb kv.1 k) kvs
      end.
Proof.
  induction kvs as [|[key v] kvs IH]; intros config k; cbn [fold_left List.find].
  - by destruct (config !! k).
  - rewrite IH. unfold fill_key. cbn [fst snd].
    destruct (String.eqb_spec key k) as [->|Hne].
    + destruct (config !! k) as [v0|] eqn:E; [by rewrite E|].
      by rewrite lookup_insert_eq.
    + destruct (config !! key) as [v0|] eqn:E; [done|].
      by rewrite lookup_insert_ne.
Qed.

Lemma list_to_map_lookup (kvs : list (string * setting)) (k : string) :
  (list_to_map kvs : gmap string setting) !! k
  = snd <$> List.find (fun kv : string * setting => String.eqb kv.1 k) kvs.
Proof.
  induction kvs as [|[key v] kvs IH]; [done|].
  cbn [list_to_map foldr List.find fst snd].
  destruct (String.eqb_spec key k) as [->|Hne].
  - by rewrite lookup_insert_eq.
  - by rewrite lookup_insert_ne.
Qed.

Lemma fill_mode_setting (configs : gmap string (gmap string setting))
    (m : string) (kvs : list (string * setting)) (mode key : string) :
  mode_setting (fill_mode configs (m, kvs)) mode key
  = match mode_setting configs mode key with
    | Some v => Some v
    | None =>
        if String.eqb m mode
        then snd <$> List.find (fun kv : string * setting => String.eqb kv.1 key) kvs
        else None
    end.
Proof.
  unfold mode_setting, fill_mode. cbn [fst snd].
  destruct (String.eqb_spec m mode) as [->|Hne].
  - destruct (configs !! mode) as [config|] eqn:E; rewrite lookup_insert_eq;
      cbn [mbind option_bind].
    + apply fill_keys_lookup.
    + apply list_to_map_lookup.
  - destruct (configs !! m) as [config|] eqn:E; rewrite lookup_insert_ne by done;
      by destruct (configs !! mode ≫= _).
Qed.

Lemma fill_modes_setting (modes : list (string * list (string * setting))) :
  forall (configs : gmap string (gmap string setting)) (mode key : string),
    NoDup (map fst modes) ->
    mode_setting (fold_left fill_mode modes configs) mode key
    = match mode_setting configs mode key with
      | Some v => Some v
      | None =>
          match List.find (fun mc : string * list (string * setting) =>
                             String.eqb mc.1 mode) modes with
          | Some mc =>
              snd <$> List.find (fun kv : string * setting => String.eqb kv.1 key)
                        mc.2
          | None => None
          end
      end.
Proof.
  induction modes as [|[m kvs] modes IH]; intros configs mode key Hnd;
    cbn [fold_left List.find fst snd].
  - by destruct (mode_setting configs mode key).
  - inversion Hnd as [|? ? Hm Hnd']; subst.
    rewrite IH by done. rewrite fill_mode_setting.
    destruct (mode_setting configs mode key) as [v|]; [done|].
    destruct (String.eqb_spec m mode) as [->|Hne]; [|done].
    assert (Hfind : List.find (fun mc : string * list (string * setting) =>
                                 String.eqb mc.1 mode) modes = None).
    { apply find_none_intro. intros [m' kvs'] Hin. cbn. apply String.eqb_neq.
      intros ->. apply Hm. apply list_elem_of_fmap. exists (mode, kvs').
      split; [done | by apply list_elem_of_In]. }
    rewrite Hfind. by destruct (snd <$> _).
Qed.

Lemma default_modes_distinct : NoDup (map fst default_modes).
Proof. apply (bool_decide_unpack _). by vm_compute. Qed.

Lemma all_defaults_setting (modes : list (string * list (string * setting)))
    (mode key : string) :
  mode_setting
    (list_to_map (map (fun mc : string * list (string * setting) =>
                         (mc.1, list_to_map mc.2)) modes)) mode key
  = match List.find (fun mc : string * list (string * setting) =>
                       String.eqb mc.1 mode) modes with
    | Some mc =>
        snd <$> List.find (fun kv : string * setting => String.eqb kv.1 key) mc.2
    | None => None
    end.
Proof.
  unfold mode_setting. induction modes as [|[m kvs] modes IH]; [done|].
  cbn [map list_to_map foldr List.find fst snd].
  destruct (String.eqb_spec m mode) as [->|Hne].
  - rewrite lookup_insert_eq. cbn [mbind option_bind]. apply list_to_map_lookup.
  - by rewrite lookup_insert_ne.
Qed.

(** The settings after the merge: what the configuration had is kept, what
    it lacked takes the default. *)
Lemma merged_setting (configs : gmap string (gmap string setting))
    (mode key : string) :
  mode_setting (merged_modes configs) mode key
  = match mode_setting configs mode key with
    | Some v => Some v
    | None => default_setting mode key
    end.
Proof.
  unfold merged_modes, default_setting.
  destruct (Nat.eqb_spec (size configs) 0) as [E|E].
  - apply map_size_empty_iff in E. subst configs.
    rewrite all_defaults_setting. unfold mode_setting. by rewrite lookup_empty.
  - apply fill_modes_setting, default_modes_distinct.
Qed.

Lemma fill_keys_id (kvs : list (string * setting)) (config : gmap string setting) :
  Forall (fun kv : string * setting => is_Some (config !! kv.1)) kvs ->
  fold_left fill_key kvs config = config.
Proof.
  induction 1 as [|kv kvs [v Hkv] _ IH]; [done|].
  cbn [fold_left]. unfold fill_key at 2. by rewrite Hkv.
Qed.

Lemma fill_modes_id (modes : list (string * list (string * setting)))
    (configs : gmap string (gmap string setting)) :
  Forall (fun mc : string * list (string * setting) =>
            exists config, configs !! mc.1 = Some config /\
              Forall (fun kv : string * setting => is_Some (config !! kv.1)) mc.2)
    modes ->
  fold_left fill_mode modes configs = configs.
Proof.
  induction 1 as [|mc modes (config & Hc & Hkeys) _ IH]; [done|].
  cbn [fold_left]. unfold fill_mode at 2.
  by rewrite Hc, (fill_keys_id _ _ Hkeys), insert_id.
Qed.

(** After the merge every default mode has every default key. *)
Lemma merged_complete (configs : gmap string (gmap string setting)) :
  Forall (fun mc : string * list (string * setting) =>
            exists config, merged_modes configs !! mc.1 = Some config /\
              Forall (fun kv : string * setting => is_Some (config !! kv.1)) mc.2)
    default_modes.
Proof.
  assert (Hset : forall mode key,
            is_Some (default_setting mode key) ->
            is_Some (mode_setting (merged_modes configs) mode key)).
  { intros mode key Hd. rewrite merged_setting.
    by destruct (mode_setting configs mode key). }
  assert (Hmode : forall mode,
            is_Some (default_setting mode "MAX_CONCURRENT_TASKS") ->
            exists config, merged_modes configs !! mode = Some config /\
              forall key, is_Some (default_setting mode key) ->
                          is_Some (config !! key)).
  { intros mode Hd. pose proof (Hset mode _ Hd) as [v Hv].
    unfold mode_setting in Hv.
    destruct (merged_modes configs !! mode) as [config|] eqn:E; [|done].
    exists config. split; [done|]. intros key Hk.
    specialize (Hset mode key Hk). unfold mode_setting in Hset.
    by rewrite E in Hset. }
  unfold default_modes.
  repeat (constructor;
          [ cbn [fst snd];
            match goal with
            | |- exists config, merged_modes configs !! ?mode = Some config /\ _ =>
                destruct (Hmode mode) as (config & E & Hkeys);
                [by vm_compute; eexists|];
                exists config; split; [exact E|];
                repeat (constructor; [apply Hkeys; by vm_compute; eexists|])
            end;
            constructor
          | ]).
  constructor.
Qed.

Lemma merged_modes_fixed (configs : gmap string (gmap string setting)) :
  merged_modes (merged_modes configs) = merged_modes configs.
Proof.
  pose proof (merged_complete configs) as Hc.
  unfold merged_modes at 1.
  destruct (Nat.eqb_spec (size (merged_modes configs)) 0) as [E|E].
  - apply map_size_empty_iff in E.
    inversion Hc as [|? ? (config & Hsimple & _) _]; subst.
    rewrite E in Hsimple. by rewrite lookup_empty in Hsimple.
  - by apply fill_modes_id.
Qed.

(** X23: [_setup_detection_modes] merges the defaults into the configured
    modes: a setting the configuration has is kept, a setting it lacks in
    one of the three modes takes the default; the detection mode is left as
    it is and its three settings, where the mode has them, replace the
    top-level ones; and setting up a second time changes nothing. *)
Theorem setup_detection_modes_merges (c : t) :
  (forall mode key,
     mode_setting (MODE_CONFIGS (_setup_detection_modes c)) mode key
     = match mode_setting (MODE_CONFIGS c) mode key with
       | Some v => Some v
       | None => default_setting mode key
       end) /\
  DETECTION_MODE (_setup_detection_modes c) = DETECTION_MODE c /\
  MAX_CONCURRENT_TASKS (_setup_detection_modes c)
  = default (MAX_CONCURRENT_TASKS c)
      (mode_setting (MODE_CONFIGS (_setup_detection_modes c))
         (DETECTION_MODE c) "MAX_CONCURRENT_TASKS") /\
  CONNECTION_TIMEOUT (_setup_detection_modes c)
  = default (CONNECTION_TIMEOUT c)
      (mode_setting (MODE_CONFIGS (_setup_detection_modes c))
         (DETECTION_MODE c) "CONNECTION_TIMEOUT") /\
  READ_TIMEOUT (_setup_detection_modes c)
  = default (READ_TIMEOUT c)
      (mode_setting (MODE_CONFIGS (_setup_detection_modes c))
         (DETECTION_MODE c) "READ_TIMEOUT") /\
  _setup_detection_modes (_setup_detection_modes c) = _setup_detection_modes c.
Proof.
  assert (Hm : MODE_CONFIGS (_setup_detection_modes c)
               = merged_modes (MODE_CONFIGS c)).
  { unfold _setup_detection_modes. by destruct (merged_modes _ !! _). }
  split; [intros mode key; rewrite Hm; apply merged_setting|].
  unfold _setup_detection_modes, mode_setting.
  destruct (merged_modes (MODE_CONFIGS c) !! DETECTION_MODE c) as [mode_config|]
    eqn:E; cbn [DETECTION_MODE MODE_CONFIGS MAX_CONCURRENT_TASKS
                CONNECTION_TIMEOUT READ_TIMEOUT];
    rewrite merged_modes_fixed, E; cbn [mbind option_bind default];
    repeat (split; [done|]).
  - by destruct (mode_config !! "MAX_CONCURRENT_TASKS"),
         (mode_config !! "CONNECTION_TIMEOUT"), (mode_config !! "READ_TIMEOUT").
  - done.
Qed.

End ConfigTheorems.

Section ConfigModeTheorems.
Import Config.
Local Open Scope string_scope.
Local Open Scope list_scope.

(** After the merge a key with a default in a mode has a setting there. *)
Lemma merged_has_defaults (configs : gmap string (gmap string setting))
    (mode key : string) :
  is_Some (default_setting mode key) ->
  is_Some (mode_setting (merged_modes configs) mode key).
Proof.
  intros Hd. rewrite merged_setting.
  by destruct (mode_setting configs mode key).
Qed.

(** X24: once the modes are set up, [set_detection_mode] knows each of
    the three built-in modes, whatever the configuration held: it makes the
    mode the detection mode, leaves the modes' settings as they are, and
    takes the number of concurrent tasks and the two timeouts from the
    settings of the mode. *)
Theorem set_detection_mode_builtin (c : t) (mode : string) :
  In mode (map fst default_modes) ->
  exists tasks connection read,
    mode_setting (MODE_CONFIGS (_setup_detection_modes c)) mode
      "MAX_CONCURRENT_TASKS" = Some tasks /\
    mode_setting (MODE_CONFIGS (_setup_detection_modes c)) mode
      "CONNECTION_TIMEOUT" = Some connection /\
    mode_setting (MODE_CONFIGS (_setup_detection_modes c)) mode
      "READ_TIMEOUT" = Some read /\
    set_detection_mode (_setup_detection_modes c) mode
    = mk mode (MODE_CONFIGS (_setup_detection_modes c)) tasks connection read.
Proof.
  intros Hmode.
  assert (Hm : MODE_CONFIGS (_setup_detection_modes c)
               = merged_modes (MODE_CONFIGS c)).
  { unfold _setup_detection_modes. by destruct (merged_modes _ !! _). }
  assert (Hkeys : forall key,
            In key ["MAX_CONCURRENT_TASKS"; "CONNECTION_TIMEOUT"; "READ_TIMEOUT"] ->
            is_Some (mode_setting (merged_modes (MODE_CONFIGS c)) mode key)).
  { intros key Hkey. apply merged_has_defaults.
    cbn in Hmode, Hkey.
    destruct Hmode as [<-|[<-|[<-|[]]]], Hkey as [<-|[<-|[<-|[]]]];
      by vm_compute; eexists. }
  destruct (Hkeys "MAX_CONCURRENT_TASKS") as [tasks Ht]; [cbn; tauto|].
  destruct (Hkeys "CONNECTION_TIMEOUT") as [connection Hc]; [cbn; tauto|].
  destruct (Hkeys "READ_TIMEOUT") as [read Hr]; [cbn; tauto|].
  exists tasks, connection, read. rewrite Hm.
  do 3 (split; [done|]).
  unfold mode_setting in Ht, Hc, Hr.
  destruct (merged_modes (MODE_CONFIGS c) !! mode) as [config|] eqn:E; [|done].
  cbn [mbind option_bind] in Ht, Hc, Hr.
  unfold set_detection_mode. rewrite Hm, E.
  unfold _setup_detection_modes at 1.
  cbn [DETECTION_MODE MODE_CONFIGS MAX_CONCURRENT_TASKS CONNECTION_TIMEOUT
       READ_TIMEOUT].
  by rewrite merged_modes_fixed, E, Ht, Hc, Hr.
Qed.

(** A configuration without modes, the detection mode being the stealth
    one: setting up and changing to the aggressive mode gives the
    settings of that mode. *)
Lemma set_detection_mode_builtin_witness :
  exists tasks connection read,
    mode_setting
      (MODE_CONFIGS
         (_setup_detection_modes (mk "stealth" ∅ (SInt 50) (SInt 3) (SInt 10))))
      "aggressive" "MAX_CONCURRENT_TASKS" = Some tasks /\
    mode_setting
      (MODE_CONFIGS
         (_setup_detection_modes (mk "stealth" ∅ (SInt 50) (SInt 3) (SInt 10))))
      "aggressive" "CONNECTION_TIMEOUT" = Some connection /\
    mode_setting
      (MODE_CONFIGS
         (_setup_detection_modes (mk "stealth" ∅ (SInt 50) (SInt 3) (SInt 10))))
      "aggressive" "READ_TIMEOUT" = Some read /\
    set_detection_mode
      (_setup_detection_modes (mk "stealth" ∅ (SInt 50) (SInt 3) (SInt 10)))
      "aggressive"
    = mk "aggressive"
        (MODE_CONFIGS
           (_setup_detection_modes (mk "stealth" ∅ (SInt 50) (SInt 3) (SInt 10))))
        tasks connection read.
Proof.
  apply (set_detection_mode_builtin
           (mk "stealth" ∅ (SInt 50) (SInt 3) (SInt 10)) "aggressive").
  cbn. tauto.
Defined.

End ConfigModeTheorems.

(** ** The model at work *)

Section Examples.
Local Open Scope string_scope.
Local Open Scope list_scope.

(** The additions of [fuzz_path("admin")] with the default settings. *)
Example fuzz_path_admin_additions :
  PathFuzzer.added PathFuzzer.with_defaults "admin"
  = [ "admin"; "admin.php"; "admin"; "admin.html"; "admin"; "admin.asp";
      "admin"; "admin.bak"; "admin.old"; "admin"; "ADMIN"; "Admin"; "Admin";
      "admin"; "admin"; "admin" ].
Proof. reflexivity. Qed.

(** A path with a directory, an extension and both separators. *)
Example fuzz_path_nested_additions :
  PathFuzzer.added (PathFuzzer.new 1 false true true true 50) "/cp/site_admin-1.php/"
  = [ "/cp/site_admin-1.php/";
      "cp/site_admin-1.php.bak"; "cp/site_admin-1.bak"; "cp/site_admin-1.bak.php";
      "cp/site_admin-1.php.old"; "cp/site_admin-1.old"; "cp/site_admin-1.old.php";
      "cp/site_admin-1.php"; "CP/SITE_ADMIN-1.PHP";
      "Cp/siteAdmin1.php"; "Cp/site_Admin_1.php";
      "cp/site-admin-1.php"; "cp/site_admin_1.php"; "cp/siteadmin1.php" ].
Proof. reflexivity. Qed.

Example keyword_match :
  Finder.has_admin_keyword "WP-Login.php" = true /\
  Finder.has_admin_keyword "index.html" = false.
Proof. split; reflexivity. Qed.

(** The file of the sample run: a comment, a blank line, a URL, the same
    URL again, a scheme that is not supported, a URL [urlparse] raises on.
    One proxy is added. *)
Example load_sample_file :
  let r := @ProxyManager.load_from_file ProxyManager.sample_urlparse
             ProxyManager.sample_regex ProxyManager.sample_files
             ProxyManager.empty_pool "proxies.txt" in
  r.1 = 1%Z /\
  map Proxy.url (ProxyManager._proxies r.2) = ["http://proxy.example:8080"] /\
  ProxyManager.logged r.2
  = [ log_info "Added proxy: proxy.example:8080 (http)";
      log_warning
        "Invalid proxy URL: Proxy URL must start with one of: http://, https://, socks4://, socks5://";
      log_warning "Invalid proxy URL: Proxy URL parsing error: Invalid URL";
      log_info "Loaded 1 proxies from proxies.txt" ].
Proof. vm_compute. by repeat split. Qed.

Example load_missing_file :
  (@ProxyManager.load_from_file ProxyManager.sample_urlparse
     ProxyManager.sample_regex ProxyManager.sample_files
     ProxyManager.empty_pool "absent.txt").1 = 0%Z.
Proof. reflexivity. Qed.

(** A body with two security words and nothing else: a boost of 0.04. *)
Example boost_of_two_security_features :
  exists details,
    @Detection.analyze_admin_potential Detection.no_match
      Detection.loads_swagger_string Detection.str_empty
      "<input name=csrf> <div class=captcha>" "Sign in"
      "http://target.example/login" []
    = Py.Ok (0 + (2 # 100) + (2 # 100), details)%Q.
Proof. eexists. vm_compute. reflexivity. Qed.

End Examples.
